(** * GreenPe prototype: accounting and marketplace engine

    A shallow embedding of the state and the event handlers of the React
    component [GreenPePrototype] (src/src/greenpay.jsx; the second source
    file is the same component with the same handlers, written more
    compactly), and the properties of the specification checked against it.

    JavaScript numbers are IEEE-754 binary64 values.  They are represented
    with the Standard Library's [spec_float], and every arithmetic
    operation is "the exact result, rounded to nearest, ties to even", as
    ECMAScript prescribes: [Num.round64] is that rounding, on the exact
    rational value.  [NumFacts.add_SFadd], [sub_SFsub], [mul_SFmul] and
    [compare_SFcompare] show that the operations are those of the Standard
    Library's specification of IEEE 754.  [Number.prototype.toFixed], the
    unary [+] applied to its result, [Math.round] and [Math.min] follow
    their ECMAScript definitions; [Math.log], which ECMAScript leaves to the
    implementation, is a parameter.

    State setters applied to updater functions, timers and notices are
    explicit: a handler returns the next state and the effects it asks for,
    and [GreenPe.step] runs one event of the page, keeping the settlement
    callbacks whose timers are pending. *)

From Stdlib Require Import ZArith QArith Qround Qpower Qabs Lia Lqa Bool List String.
From Stdlib Require Import DecimalString SpecFloat.
From Stdlib Require Import DecimalN DecimalPos.
Import ListNotations.

Set Implicit Arguments.

(** ** Numbers *)

Module Num.

Local Open Scope Q_scope.

Definition number := spec_float.

Definition pow2 (e : Z) : Q := 2 ^ e.
Definition pow10 (f : Z) : Q := 10 ^ f.

(** Exact rational value of a finite number (0 for the others). *)
Definition Qval (x : number) : Q :=
  match x with
  | S754_finite s m e => inject_Z (if s then Z.neg m else Z.pos m) * pow2 e
  | _ => 0
  end.

Definition sign (x : number) : bool :=
  match x with
  | S754_zero s | S754_infinity s | S754_finite s _ _ => s
  | S754_nan => false
  end.

(** [ilog2 q] is the integer [k] with [2^k <= q < 2^(k+1)], for [0 < q]. *)
Definition ilog2 (q : Q) : Z :=
  let k := (Z.log2 (Qnum q) - Z.log2 (Z.pos (Qden q)))%Z in
  if Qle_bool (pow2 k) q then k else (k - 1)%Z.

(** Nearest integer, ties to even. *)
Definition rne (q : Q) : Z :=
  let f := Qfloor q in
  match Qcompare (q - inject_Z f) (1 # 2) with
  | Lt => f
  | Gt => (f + 1)%Z
  | Eq => if Z.even f then f else (f + 1)%Z
  end.

(** Rounding of the magnitude [q >= 0] with sign [s] to binary64:
    53 bits of precision, least exponent -1074, overflow to infinity. *)
Definition round64 (s : bool) (q : Q) : number :=
  if Qle_bool q 0 then S754_zero s
  else
    let e := Z.max (ilog2 q - 52) (-1074) in
    let m := rne (q / pow2 e) in
    let '(m, e) := if (m =? 2 ^ 53)%Z then (2 ^ 52, e + 1)%Z else (m, e) in
    match m with
    | Z.pos p => if (e <=? 971)%Z then S754_finite s p e else S754_infinity s
    | _ => S754_zero s
    end.

(** Rounding of an exact result; an exact zero result is [+0]. *)
Definition round_exact (q : Q) : number :=
  match Qcompare q 0 with
  | Eq => S754_zero false
  | Lt => round64 true (- q)
  | Gt => round64 false q
  end.

(** [x + y] (Number::add). *)
Definition add (x y : number) : number :=
  match x, y with
  | S754_nan, _ | _, S754_nan => S754_nan
  | S754_infinity sx, S754_infinity sy =>
      if Bool.eqb sx sy then x else S754_nan
  | S754_infinity _, _ => x
  | _, S754_infinity _ => y
  | S754_zero sx, S754_zero sy =>
      if Bool.eqb sx sy then x else S754_zero false
  | S754_zero _, _ => y
  | _, S754_zero _ => x
  | S754_finite _ _ _, S754_finite _ _ _ => round_exact (Qval x + Qval y)
  end.

(** [x - y] (Number::subtract). *)
Definition sub (x y : number) : number :=
  match x, y with
  | S754_nan, _ | _, S754_nan => S754_nan
  | S754_infinity sx, S754_infinity sy =>
      if Bool.eqb sx sy then S754_nan else x
  | S754_infinity _, _ => x
  | _, S754_infinity sy => S754_infinity (negb sy)
  | S754_zero sx, S754_zero sy =>
      if Bool.eqb sx sy then S754_zero false else x
  | S754_zero _, S754_finite sy my ey => S754_finite (negb sy) my ey
  | _, S754_zero _ => x
  | S754_finite _ _ _, S754_finite _ _ _ => round_exact (Qval x - Qval y)
  end.

(** [x * y] (Number::multiply). *)
Definition mul (x y : number) : number :=
  match x, y with
  | S754_nan, _ | _, S754_nan => S754_nan
  | S754_infinity _, S754_zero _ | S754_zero _, S754_infinity _ => S754_nan
  | S754_infinity sx, _ => S754_infinity (xorb sx (sign y))
  | _, S754_infinity sy => S754_infinity (xorb (sign x) sy)
  | S754_zero sx, _ => S754_zero (xorb sx (sign y))
  | _, S754_zero sy => S754_zero (xorb (sign x) sy)
  | S754_finite sx _ _, S754_finite sy _ _ =>
      round64 (xorb sx sy) (Qabs (Qval x) * Qabs (Qval y))
  end.

(** Comparison of the values; [None] when an operand is NaN. *)
Definition compare (x y : number) : option comparison :=
  match x, y with
  | S754_nan, _ | _, S754_nan => None
  | S754_infinity sx, S754_infinity sy =>
      Some (if Bool.eqb sx sy then Eq else if sx then Lt else Gt)
  | S754_infinity s, _ => Some (if s then Lt else Gt)
  | _, S754_infinity s => Some (if s then Gt else Lt)
  | _, _ => Some (Qcompare (Qval x) (Qval y))
  end.

(** [x <= y], [x < y], [x > y] of JavaScript: false when an operand is NaN. *)
Definition leb (x y : number) : bool :=
  match compare x y with Some (Lt | Eq) => true | _ => false end.
Definition ltb (x y : number) : bool :=
  match compare x y with Some Lt => true | _ => false end.
Definition gtb (x y : number) : bool := ltb y x.

(** The result of [toFixed]: either the digits of an integer [n] with [f]
    of them after the decimal point and a sign, or, for NaN, the infinities
    and magnitudes from 10^21 on, the text [ToString] gives for the number
    itself. *)
Inductive numstr :=
  | NS_tostring (x : number)
  | NS_fixed (neg : bool) (n : Z) (f : Z).

(** [x.toFixed(f)]: [n] is the integer for which [n / 10^f - x] is closest
    to zero, the larger one when there are two. *)
Definition toFixed (x : number) (f : Z) : numstr :=
  match x with
  | S754_nan | S754_infinity _ => NS_tostring x
  | S754_zero _ => NS_fixed false 0 f
  | S754_finite s _ _ =>
      let X := Qabs (Qval x) in
      if Qle_bool (pow10 21) X then NS_tostring x
      else NS_fixed s (Qfloor (X * pow10 f + (1 # 2))) f
  end.

(** Unary [+] on such a text (StringToNumber): the double nearest to the
    decimal value; the text of a number reads back as that number. *)
Definition to_number (t : numstr) : number :=
  match t with
  | NS_tostring x => x
  | NS_fixed neg n f => round64 neg (inject_Z n / pow10 f)
  end.

(** [+x.toFixed(f)] *)
Definition fixed (f : Z) (x : number) : number := to_number (toFixed x f).

(** A decimal literal [n / 10^f] of the program text, [0 <= n]. *)
Definition lit (n : Z) (f : Z) : number := round64 false (inject_Z n / pow10 f).

(** [Math.round]: integral values and the non-finite ones are returned as
    they are; otherwise the nearest integer, the one closer to +infinity in
    a tie, with the sign of the argument when that integer is zero. *)
Definition Math_round (x : number) : number :=
  match x with
  | S754_finite s _ e =>
      if (0 <=? e)%Z then x
      else
        let k := Qfloor (Qval x + (1 # 2)) in
        round64 s (inject_Z (Z.abs k))
  | _ => x
  end.

(** [Math.min(x, y)]: NaN when an argument is NaN, and -0 below +0. *)
Definition Math_min (x y : number) : number :=
  match compare x y with
  | None => S754_nan
  | Some Lt => x
  | Some Gt => y
  | Some Eq => if sign x then x else y
  end.

(** *** Predicates on numbers *)

Definition is_nan (x : number) : bool :=
  match x with S754_nan => true | _ => false end.
Definition is_inf (x : number) : bool :=
  match x with S754_infinity _ => true | _ => false end.

(** [x] is a binary64 value: its significand and exponent are the canonical
    ones of the format. *)
Definition wf (x : number) : Prop := valid_binary 53 1024 x = true.

(** [0 <= x]: the zeros, the positive finite numbers and +infinity. *)
Definition nonneg (x : number) : Prop := leb (S754_zero false) x = true.

(** *** Rounding to decimals, as the specification words it

    [round(x, d)]: the exact value of [x] scaled by [10^d], rounded to the
    nearest integer with halves away from zero, scaled back, and read as
    the nearest double.  NaN and the infinities round to themselves. *)
Definition decimal_round (d : Z) (X : Q) : Q :=
  inject_Z (Qfloor (X * pow10 d + (1 # 2))) / pow10 d.

Definition round_dp (d : Z) (x : number) : number :=
  match x with
  | S754_nan | S754_infinity _ => x
  | _ => round64 (sign x && negb (Qeq_bool (Qval x) 0))
           (decimal_round d (Qabs (Qval x)))
  end.

(** *** Notions used in the proofs *)

(** The exponent, the integer significand and the value [round64] arrives
    at for a positive [q]. *)
Definition rexp (q : Q) : Z := Z.max (ilog2 q - 52) (-1074).
Definition rsig (q : Q) : Z := rne (q / pow2 (rexp q)).
Definition rval (q : Q) : Q := inject_Z (rsig q) * pow2 (rexp q).

(** The significand and exponent of a binary64 value. *)
Definition canon (p : positive) (e : Z) : Prop :=
  (Z.pos p < 2 ^ 53)%Z /\ (-1074 <= e <= 971)%Z /\ (2 ^ 52 <= Z.pos p \/ e = -1074)%Z.

(** The three outcomes of [round64]. *)
Inductive round64_result (s : bool) (q : Q) : number -> Prop :=
  | RR_zero : rval q == 0 -> round64_result s q (S754_zero s)
  | RR_finite p e : canon p e -> inject_Z (Z.pos p) * pow2 e == rval q ->
      round64_result s q (S754_finite s p e)
  | RR_inf : pow2 1024 <= rval q -> round64_result s q (S754_infinity s).

(** The shapes of a non-negative number. *)
Inductive nonneg_shape : number -> Prop :=
  | NS_zero s : nonneg_shape (S754_zero s)
  | NS_pos p e : nonneg_shape (S754_finite false p e)
  | NS_inf : nonneg_shape (S754_infinity false).

(** A positive finite number. *)
Definition pos_finite (c : number) : Prop :=
  match c with S754_finite false _ _ => True | _ => False end.

(** The position of a real [x >= 0] with respect to the integer below it,
    as the round and sticky bits of a shift record of the Standard Library's
    rounding tell it. *)
Definition located (x : Q) (mrs : shr_record) : Prop :=
  let f := x - inject_Z (shr_m mrs) in
  (0 <= shr_m mrs)%Z /\
  match shr_r mrs, shr_s mrs with
  | false, false => f == 0
  | false, true => 0 < f /\ f < 1 # 2
  | true, false => f == 1 # 2
  | true, true => (1 # 2) < f /\ f < 1
  end.

(** Equality of two numbers as data: the same class, sign, significand and
    exponent. *)
Definition same_number (x y : number) : bool :=
  match x, y with
  | S754_zero a, S754_zero b | S754_infinity a, S754_infinity b => Bool.eqb a b
  | S754_nan, S754_nan => true
  | S754_finite a m e, S754_finite b n f =>
      Bool.eqb a b && (m =? n)%positive && (e =? f)%Z
  | _, _ => false
  end.

End Num.

(** ** The component's state and handlers *)

Module GreenPe.

Import Num.
Local Open Scope string_scope.

(** *** Literals of the program text *)

Definition zero : number := S754_zero false.
Definition n_0_001 := lit 1 3.
Definition n_0_8 := lit 8 1.
Definition n_1_1 := lit 11 1.
Definition n_0_1 := lit 1 1.
Definition n_0_99 := lit 99 2.
Definition n_0_05 := lit 5 2.
Definition n_0_5 := lit 5 1.
Definition n_0_2 := lit 2 1.
Definition n_1 := lit 1 0.
Definition n_50 := lit 50 0.
Definition n_200 := lit 200 0.
Definition n_500 := lit 500 0.
Definition n_1000 := lit 1000 0.
Definition n_4800 := lit 4800 0.
Definition n_5000 := lit 5000 0.
Definition n_5200 := lit 5200 0.

(** *** Records *)

(** [user]: {name, energyId, aadhaarHash, gstin}; [aadhaarHash] may be
    [null]. *)
Record User := {
  name : string;
  energyId : string;
  aadhaarHash : option string;
  gstin : string
}.

(** A sell order {id, seller, rec, pricePerREC, createdAt}.  Instants are
    kept as the clock reading; the source stores their ISO-8601 text. *)
Record Order := {
  id : string;
  seller : string;
  rec : number;
  pricePerREC : number;
  createdAt : N
}.

Record Trade := {
  trade_id : string;
  orderId : string;
  buyer : string;
  trade_seller : string;
  trade_rec : number;
  trade_pricePerREC : number;
  total : number;
  paymentId : string;
  timestamp : N
}.

Record Generator := {
  gen_energyId : string;
  aadhaar_hash : option string;
  gen_gstin : string
}.

Record Compliance := {
  eu_cbam : bool;
  generatedAt : N
}.

Record GIC := {
  gicId : string;
  issuer : string;
  tokens : list string;
  totalRec : number;
  totalCarbonKg : number;
  generator : Generator;
  compliance : Compliance
}.

(** The [useState] cells of the component. *)
Record State := {
  user : option User;
  showOnboard : bool;
  kwhTotal : number;
  lastReading : number;
  isMeterRunning : bool;
  recBalance : number;
  carbonKg : number;
  inrBalance : number;
  orders : list Order;
  tradeHistory : list Trade;
  placePrice : number;
  placeRECs : number;
  gics : list GIC;
  greenScore : number
}.

Definition initial : State := {|
  user := None; showOnboard := true;
  kwhTotal := zero; lastReading := zero; isMeterRunning := false;
  recBalance := zero; carbonKg := zero; inrBalance := zero;
  orders := []; tradeHistory := [];
  placePrice := n_5000; placeRECs := n_0_05;
  gics := []; greenScore := zero
|}.

(** The state setters, each applied to an updater function as in
    [setRecBalance((r) => ...)]. *)
Definition setUser (u : option User) (s : State) : State :=
  Build_State u (showOnboard s) (kwhTotal s) (lastReading s)
    (isMeterRunning s) (recBalance s) (carbonKg s) (inrBalance s) (orders s)
    (tradeHistory s) (placePrice s) (placeRECs s) (gics s) (greenScore s).
Definition setShowOnboard (b : bool) (s : State) : State :=
  Build_State (user s) b (kwhTotal s) (lastReading s)
    (isMeterRunning s) (recBalance s) (carbonKg s) (inrBalance s) (orders s)
    (tradeHistory s) (placePrice s) (placeRECs s) (gics s) (greenScore s).
Definition setKwhTotal (f : number -> number) (s : State) : State :=
  Build_State (user s) (showOnboard s) (f (kwhTotal s)) (lastReading s)
    (isMeterRunning s) (recBalance s) (carbonKg s) (inrBalance s) (orders s)
    (tradeHistory s) (placePrice s) (placeRECs s) (gics s) (greenScore s).
Definition setLastReading (v : number) (s : State) : State :=
  Build_State (user s) (showOnboard s) (kwhTotal s) v
    (isMeterRunning s) (recBalance s) (carbonKg s) (inrBalance s) (orders s)
    (tradeHistory s) (placePrice s) (placeRECs s) (gics s) (greenScore s).
Definition setIsMeterRunning (f : bool -> bool) (s : State) : State :=
  Build_State (user s) (showOnboard s) (kwhTotal s) (lastReading s)
    (f (isMeterRunning s)) (recBalance s) (carbonKg s) (inrBalance s)
    (orders s) (tradeHistory s) (placePrice s) (placeRECs s) (gics s)
    (greenScore s).
Definition setRecBalance (f : number -> number) (s : State) : State :=
  Build_State (user s) (showOnboard s) (kwhTotal s) (lastReading s)
    (isMeterRunning s) (f (recBalance s)) (carbonKg s) (inrBalance s)
    (orders s) (tradeHistory s) (placePrice s) (placeRECs s) (gics s)
    (greenScore s).
Definition setCarbonKg (f : number -> number) (s : State) : State :=
  Build_State (user s) (showOnboard s) (kwhTotal s) (lastReading s)
    (isMeterRunning s) (recBalance s) (f (carbonKg s)) (inrBalance s)
    (orders s) (tradeHistory s) (placePrice s) (placeRECs s) (gics s)
    (greenScore s).
Definition setInrBalance (f : number -> number) (s : State) : State :=
  Build_State (user s) (showOnboard s) (kwhTotal s) (lastReading s)
    (isMeterRunning s) (recBalance s) (carbonKg s) (f (inrBalance s))
    (orders s) (tradeHistory s) (placePrice s) (placeRECs s) (gics s)
    (greenScore s).
Definition setOrders (f : list Order -> list Order) (s : State) : State :=
  Build_State (user s) (showOnboard s) (kwhTotal s) (lastReading s)
    (isMeterRunning s) (recBalance s) (carbonKg s) (inrBalance s)
    (f (orders s)) (tradeHistory s) (placePrice s) (placeRECs s) (gics s)
    (greenScore s).
Definition setTradeHistory (f : list Trade -> list Trade) (s : State) : State :=
  Build_State (user s) (showOnboard s) (kwhTotal s) (lastReading s)
    (isMeterRunning s) (recBalance s) (carbonKg s) (inrBalance s) (orders s)
    (f (tradeHistory s)) (placePrice s) (placeRECs s) (gics s) (greenScore s).
Definition setPlacePrice (v : number) (s : State) : State :=
  Build_State (user s) (showOnboard s) (kwhTotal s) (lastReading s)
    (isMeterRunning s) (recBalance s) (carbonKg s) (inrBalance s) (orders s)
    (tradeHistory s) v (placeRECs s) (gics s) (greenScore s).
Definition setPlaceRECs (v : number) (s : State) : State :=
  Build_State (user s) (showOnboard s) (kwhTotal s) (lastReading s)
    (isMeterRunning s) (recBalance s) (carbonKg s) (inrBalance s) (orders s)
    (tradeHistory s) (placePrice s) v (gics s) (greenScore s).
Definition setGics (f : list GIC -> list GIC) (s : State) : State :=
  Build_State (user s) (showOnboard s) (kwhTotal s) (lastReading s)
    (isMeterRunning s) (recBalance s) (carbonKg s) (inrBalance s) (orders s)
    (tradeHistory s) (placePrice s) (placeRECs s) (f (gics s)) (greenScore s).
Definition setGreenScore (v : number) (s : State) : State :=
  Build_State (user s) (showOnboard s) (kwhTotal s) (lastReading s)
    (isMeterRunning s) (recBalance s) (carbonKg s) (inrBalance s) (orders s)
    (tradeHistory s) (placePrice s) (placeRECs s) (gics s) v.

(** *** Effects outside the state *)

(** The texts shown with [alert]. *)
Inductive notice :=
  | PleaseOnboardFirst
  | InvalidRecAmount
  | OnboardToGenerateGIC
  | Welcome (energy_id : string)
  | SubsidyCredited
  | PaymentSettled (payment_id : string) (amount : number).

(** What the callback given to [setTimeout] in [buyOrder] closes over: the
    order, the [user] of the render the purchase was made in, and the
    locals [buyer], [total] and [paymentId]. *)
Record Settlement := {
  s_order : Order;
  s_user : option User;
  s_buyer : string;
  s_total : number;
  s_paymentId : string
}.

Inductive effect :=
  | Alert (n : notice)
  | SetTimeout (cb : Settlement) (delay : N)
  | Download (filename : string) (content : GIC).

(** The decimal digits of a clock reading, as a template literal prints
    them. *)
Definition digits (n : N) : string := NilZero.string_of_uint (N.to_uint n).

(** *** Helpers and core logic *)

Definition is_alnum (c : Ascii.ascii) : bool :=
  let n := Ascii.nat_of_ascii c in
  ((48 <=? n) && (n <=? 57) || (65 <=? n) && (n <=? 90)
   || (97 <=? n) && (n <=? 122))%nat.

Definition to_lower (c : Ascii.ascii) : Ascii.ascii :=
  let n := Ascii.nat_of_ascii c in
  if ((65 <=? n) && (n <=? 90))%nat then Ascii.ascii_of_nat (n + 32) else c.

Fixpoint strip_lower (t : string) : string :=
  match t with
  | EmptyString => EmptyString
  | String c r =>
      if is_alnum c then String (to_lower c) (strip_lower r)
      else strip_lower r
  end.

(** *** Texts and their code units

    A text is kept as the bytes of its UTF-8 form, which is how a string
    literal of this file reads.  JavaScript indexes a text by UTF-16 code
    units: a character outside the basic plane (four bytes, the first one
    240 or more) takes two units, a surrogate pair, and every other
    character one.  [chars] cuts the bytes into characters: a byte that is
    not a continuation byte, with the continuation bytes after it. *)
Definition is_continuation (c : Ascii.ascii) : bool :=
  let n := Ascii.nat_of_ascii c in ((128 <=? n) && (n <? 192))%nat.

Definition character : Type := (Ascii.ascii * list Ascii.ascii)%type.

Definition bytes_of (ch : character) : list Ascii.ascii := fst ch :: snd ch.

Fixpoint chars (l : list Ascii.ascii) : list character :=
  match l with
  | [] => []
  | c :: r =>
      match chars r with
      | (d, ch) :: rest =>
          if is_continuation d then (c, d :: ch) :: rest
          else (c, []) :: (d, ch) :: rest
      | [] => [(c, [])]
      end
  end.

Definition units_of (ch : character) : nat :=
  if (240 <=? Ascii.nat_of_ascii (fst ch))%nat then 2%nat else 1%nat.

Definition count_units (cs : list character) : nat :=
  list_sum (map units_of cs).

(** [t.length] *)
Definition units (t : string) : nat :=
  count_units (chars (list_ascii_of_string t)).

(** The second unit of a surrogate pair on its own, which a cut between
    the two units leaves: the code unit [0xDC00 + (c mod 0x400)] of the
    character [c], as the three bytes that stand for it.  Bytes that are no
    character give the replacement character. *)
Definition low_surrogate (ch : character) : character :=
  match snd ch with
  | [_; b2; b3] =>
      (Ascii.ascii_of_nat 237,
       [Ascii.ascii_of_nat (176 + Ascii.nat_of_ascii b2 mod 16); b3])
  | _ =>
      (Ascii.ascii_of_nat 239, [Ascii.ascii_of_nat 191; Ascii.ascii_of_nat 189])
  end.

(** The characters from code unit [d] on. *)
Fixpoint drop_units (d : nat) (cs : list character) : list character :=
  match cs with
  | [] => []
  | ch :: rest =>
      if (d =? 0)%nat then cs
      else if (units_of ch <=? d)%nat then drop_units (d - units_of ch) rest
           else low_surrogate ch :: rest
  end.

(** [aadhaar.slice(-4)]: from code unit [max(length - 4, 0)] to the end. *)
Definition last4 (t : string) : string :=
  let cs := chars (list_ascii_of_string t) in
  string_of_list_ascii
    (flat_map bytes_of (drop_units (count_units cs - 4) cs)).

Definition aadhaarHashOf (aadhaar : string) : option string :=
  if String.eqb aadhaar "" then None else Some ("hash_" ++ last4 aadhaar).

Definition createEnergyId (nm : string) : string :=
  strip_lower nm ++ "@greenpe".

(** Tokenization: 1 kWh -> 0.001 REC and 0.8 kg CO2e. *)
Definition mintTokensForKwh (kwh : number) (s : State) : State :=
  let rec := fixed 6 (mul kwh n_0_001) in
  let carbon := fixed 3 (mul kwh n_0_8) in
  setCarbonKg (fun c => fixed 3 (add c carbon))
    (setRecBalance (fun r => fixed 6 (add r rec)) s).

(** One firing of the meter interval; [u] is the value of
    [Math.random()]. *)
Definition meterTick (u : number) (s : State) : State :=
  let tick := fixed 3 (add (mul u n_1_1) n_0_1) in
  mintTokensForKwh tick
    (setKwhTotal (fun k => fixed 3 (add k tick)) (setLastReading tick s)).

Section Score.

(** [Math.log] is implementation-approximated in ECMAScript; it is a
    parameter here. *)
Variable Math_log : number -> number.

Definition score (kwh recs : number) : number :=
  Math_min n_1000
    (Math_round (add (mul (Math_log (add n_1 kwh)) n_200) (mul recs n_50))).

(** The effect that depends on [kwhTotal, recBalance]. *)
Definition greenScoreEffect (s : State) : State :=
  setGreenScore (score (kwhTotal s) (recBalance s)) s.

End Score.

(** Place sell order.  [now] is [Date.now()]. *)
Definition placeSellOrder (now : N) (s : State) : State * list effect :=
  match user s with
  | None => (s, [Alert PleaseOnboardFirst])
  | Some u =>
      if leb (placeRECs s) zero || gtb (placeRECs s) (recBalance s)
      then (s, [Alert InvalidRecAmount])
      else
        let order := {|
          id := "ORD-" ++ digits now;
          seller := energyId u;
          rec := fixed 6 (placeRECs s);
          pricePerREC := placePrice s;
          createdAt := now |} in
        (setRecBalance (fun r => fixed 6 (sub r (rec order)))
           (setOrders (fun o => order :: o) s), [])
  end.

(** Buy from order: the part that runs at once.  The settlement is handed
    to [setTimeout] with a delay of 3000.  [now] stands for the readings of
    [Date.now()] and [new Date()] of the call, taken to coincide. *)
Definition buyOrder (now : N) (order : Order) (s : State)
  : State * list effect :=
  let paymentId := "UPI-" ++ digits now in
  let total := fixed 2 (mul (rec order) (pricePerREC order)) in
  let buyer :=
    match user s with Some u => energyId u | None => "anonymous@greenpe" end in
  let trade := {|
    trade_id := "TRADE-" ++ digits now;
    orderId := id order;
    buyer := buyer;
    trade_seller := seller order;
    trade_rec := rec order;
    trade_pricePerREC := pricePerREC order;
    total := total;
    paymentId := paymentId;
    timestamp := now |} in
  (setOrders (filter (fun x => negb (String.eqb (id x) (id order))))
     (setTradeHistory (fun t => trade :: t) s),
   [SetTimeout {| s_order := order; s_user := user s; s_buyer := buyer;
                  s_total := total; s_paymentId := paymentId |} 3000]).

(** [x === (user && user.energyId)] for a string [x]. *)
Definition is_user (x : string) (u : option User) : bool :=
  match u with Some u => String.eqb x (energyId u) | None => false end.

(** The settlement callback, run when its timer fires. *)
Definition settle (cb : Settlement) (s : State) : State * list effect :=
  let s1 :=
    if is_user (seller (s_order cb)) (s_user cb)
    then setInrBalance
           (fun b => fixed 2 (add b (mul (s_total cb) n_0_99))) s
    else s in
  let s2 :=
    if is_user (s_buyer cb) (s_user cb)
    then setRecBalance (fun r => fixed 6 (add r (rec (s_order cb)))) s1
    else s1 in
  (s2, [Alert (PaymentSettled (s_paymentId cb) (s_total cb))]).

(** Generate GIC. *)
Definition generateGIC (now : N) (s : State) : State * list effect :=
  match user s with
  | None => (s, [Alert OnboardToGenerateGIC])
  | Some u =>
      let gic := {|
        gicId := "GIC-" ++ digits now;
        issuer := "GreenPe:CERTv1";
        tokens := [];
        totalRec := fixed 6 (recBalance s);
        totalCarbonKg := fixed 3 (carbonKg s);
        generator := {|
          gen_energyId := energyId u;
          aadhaar_hash := aadhaarHash u;
          gen_gstin := if String.eqb (gstin u) "" then "NA" else gstin u |};
        compliance := {| eu_cbam := true; generatedAt := now |} |} in
      (setGics (fun g => gic :: g) s, [Download (gicId gic ++ ".json") gic])
  end.

(** Onboarding submit, with the three form values. *)
Definition handleOnboard (f_name f_aadhaar f_gstin : string) (s : State)
  : State * list effect :=
  let nm := if String.eqb f_name "" then "user" else f_name in
  let aadhaar := if String.eqb f_aadhaar "" then "0000" else f_aadhaar in
  let energy := createEnergyId nm in
  let newUser := {| name := nm; energyId := energy;
                    aadhaarHash := aadhaarHashOf aadhaar;
                    gstin := f_gstin |} in
  (setShowOnboard false (setUser (Some newUser) s), [Alert (Welcome energy)]).

(** The sample marketplace seed. *)
Definition seedOrders (now : N) (s : State) : State :=
  setOrders (fun _ =>
    [ {| id := "ORD-1"; seller := "weaver_tirupur@greenpe"; rec := n_0_5;
         pricePerREC := n_5200; createdAt := now |};
      {| id := "ORD-2"; seller := "farmer_nashik@greenpe"; rec := n_0_2;
         pricePerREC := n_4800; createdAt := now |} ]) s.

(** The Reset button. *)
Definition resetMeter (s : State) : State :=
  setCarbonKg (fun _ => zero)
    (setRecBalance (fun _ => zero) (setKwhTotal (fun _ => zero) s)).

(** The Simulate Subsidy button. *)
Definition simulateSubsidy (s : State) : State * list effect :=
  (setInrBalance (fun b => add b n_500) s, [Alert SubsidyCredited]).

(** *** The running application

    The state together with the settlement callbacks whose timers have not
    fired yet. *)
Record System := {
  app : State;
  timers : list Settlement
}.

Definition scheduled (es : list effect) : list Settlement :=
  flat_map (fun e => match e with SetTimeout cb _ => [cb] | _ => [] end) es.

Definition run (sys : System) (r : State * list effect) : System :=
  {| app := fst r; timers := timers sys ++ scheduled (snd r) |}.

Definition with_app (f : State -> State) (sys : System) : System :=
  {| app := f (app sys); timers := timers sys |}.

Definition remove_nth {A : Type} (k : nat) (l : list A) : list A :=
  firstn k l ++ skipn (S k) l.

(** What can happen to the application: the buttons and inputs of the page
    and the two kinds of timer. *)
Inductive event :=
  | EvOnboard (f_name f_aadhaar f_gstin : string)
  | EvShowOnboard (b : bool)
  | EvMeterStart
  | EvMeterStop
  | EvMeterToggle
  | EvReset
  | EvTick (u : number)
  | EvInputRECs (v : number)
  | EvInputPrice (v : number)
  | EvPlaceSell (now : N)
  | EvBuy (now : N) (k : nat)
  | EvSettle (k : nat)
  | EvGenerateGIC (now : N)
  | EvClearGics
  | EvSubsidy.

(** One event.  The meter interval only exists while the meter runs; Buy is
    a button on the [k]-th listed order; [EvSettle k] is the firing of the
    [k]-th pending settlement timer.  The score effect, which React runs
    after a render that changed [kwhTotal] or [recBalance], writes
    [greenScore] only ([greenScoreEffect]) and is not repeated here. *)
Definition step (ev : event) (sys : System) : System :=
  match ev with
  | EvOnboard a b c => run sys (handleOnboard a b c (app sys))
  | EvShowOnboard b => with_app (setShowOnboard b) sys
  | EvMeterStart => with_app (setIsMeterRunning (fun _ => true)) sys
  | EvMeterStop => with_app (setIsMeterRunning (fun _ => false)) sys
  | EvMeterToggle => with_app (setIsMeterRunning negb) sys
  | EvReset => with_app resetMeter sys
  | EvTick u =>
      if isMeterRunning (app sys) then with_app (meterTick u) sys else sys
  | EvInputRECs v => with_app (setPlaceRECs v) sys
  | EvInputPrice v => with_app (setPlacePrice v) sys
  | EvPlaceSell now => run sys (placeSellOrder now (app sys))
  | EvBuy now k =>
      match nth_error (orders (app sys)) k with
      | Some o => run sys (buyOrder now o (app sys))
      | None => sys
      end
  | EvSettle k =>
      match nth_error (timers sys) k with
      | Some cb =>
          {| app := fst (settle cb (app sys));
             timers := remove_nth k (timers sys) |}
      | None => sys
      end
  | EvGenerateGIC now => run sys (generateGIC now (app sys))
  | EvClearGics => with_app (setGics (fun _ => [])) sys
  | EvSubsidy => run sys (simulateSubsidy (app sys))
  end.

(** What the environment can deliver: [Math.random()] is in [0, 1), and a
    number input holds a finite number. *)
Definition input_ok (ev : event) : Prop :=
  match ev with
  | EvTick u => wf u /\ nonneg u /\ ltb u n_1 = true
  | EvInputRECs v | EvInputPrice v =>
      wf v /\ is_nan v = false /\ is_inf v = false
  | _ => True
  end.

(** The application after mounting: the initial state with the seed
    orders. *)
Definition mounted (now : N) : System :=
  {| app := seedOrders now initial; timers := [] |}.

Fixpoint steps (evs : list event) (sys : System) : System :=
  match evs with
  | [] => sys
  | ev :: rest => steps rest (step ev sys)
  end.

(** A coarse logarithm, [floor(log2 x) * 0.6931] on the positive finite
    numbers, with the values ECMAScript fixes at the boundary cases.  It
    shows that what the score properties ask of [Math.log] can be met. *)
Definition coarse_log (x : number) : number :=
  match x with
  | S754_nan => S754_nan
  | S754_zero _ => S754_infinity true
  | S754_infinity s => if s then S754_nan else x
  | S754_finite true _ _ => S754_nan
  | S754_finite false _ _ =>
      round_exact (inject_Z (ilog2 (Qval x)) * (6931 # 10000))
  end.

(** *** Well-formed ledgers

    An amount with [d] decimals is a non-negative binary64 value that
    rounding to [d] decimals leaves unchanged. *)
Definition is_amount (d : Z) (x : number) : Prop :=
  wf x /\ nonneg x /\ round_dp d x = x.

Definition order_ok (o : Order) : Prop := wf (rec o) /\ nonneg (rec o).

Definition input_cell_ok (v : number) : Prop :=
  wf v /\ is_nan v = false /\ is_inf v = false.

(** The energy total and the carbon offset are amounts with 3 decimals,
    the credit balance one with 6; the amount typed into the sell form is a
    finite number; listed orders and orders awaiting settlement hold
    non-negative amounts. *)
Definition ledger_ok (sys : System) : Prop :=
  is_amount 3 (kwhTotal (app sys))
  /\ is_amount 3 (carbonKg (app sys))
  /\ is_amount 6 (recBalance (app sys))
  /\ input_cell_ok (placeRECs (app sys))
  /\ Forall order_ok (orders (app sys))
  /\ Forall (fun cb => order_ok (s_order cb)) (timers sys).

(** The reading of one meter tick. *)
Definition tick_of (u : number) : number := fixed 3 (add (mul u n_1_1) n_0_1).

(** [placeSellOrder] was refused with one of its two notices. *)
Definition rejected (r : State * list effect) : Prop :=
  snd r = [Alert PleaseOnboardFirst] \/ snd r = [Alert InvalidRecAmount].

(** *** Sample data *)

Definition asha : User :=
  {| name := "Asha"; energyId := "asha@greenpe";
     aadhaarHash := Some "hash_9012"; gstin := "" |}.

Definition order_mine : Order :=
  {| id := "ORD-7"; seller := "asha@greenpe"; rec := lit 3 1;
     pricePerREC := n_5000; createdAt := 7 |}.

Definition with_balances (recs carbon : number) (u : User) (s : State) : State :=
  setUser (Some u) (setCarbonKg (fun _ => carbon) (setRecBalance (fun _ => recs) s)).

(** Onboarding, two subsidies, one meter tick, a sell order for 0.0001 REC
    at 5000 and the purchase of that order by its seller. *)
Definition self_trade_script : list event :=
  [EvOnboard "Asha" "123456789012" ""; EvSubsidy; EvSubsidy; EvMeterStart;
   EvTick (lit 5 1); EvInputRECs (lit 1 4); EvPlaceSell 100; EvBuy 200 0].

(** Onboarding, one meter tick and 0.0000004 typed as the amount to sell. *)
Definition tiny_order_script : list event :=
  [EvOnboard "Asha" "123456789012" ""; EvMeterStart; EvTick (lit 5 1);
   EvInputRECs (lit 4 7)].

(** Onboarding, the purchase of the first seed order (0.5 REC) and its
    settlement, and 0.1234567 typed as the amount to sell. *)
Definition fractional_order_script : list event :=
  [EvOnboard "Asha" "123456789012" ""; EvBuy 10 0; EvSettle 0;
   EvInputRECs (lit 1234567 7)].

(** *** Further notions *)

(** The literal 300. *)
Definition n_300 := lit 300 0.

(** [greenScore > 300], the loan eligibility shown in the profile. *)
Definition loanEligible (s : State) : bool := gtb (greenScore s) n_300.

(** A lowercase letter or a digit: what an energy id is made of before
    the [@]. *)
Definition is_lower_alnum (c : Ascii.ascii) : bool :=
  let n := Ascii.nat_of_ascii c in
  ((48 <=? n) && (n <=? 57) || (97 <=? n) && (n <=? 122))%nat.

(** The trade [t] is the record of the purchase whose settlement [cb] is
    pending. *)
Definition recorded (cb : Settlement) (t : Trade) : Prop :=
  orderId t = id (s_order cb) /\ buyer t = s_buyer cb
  /\ trade_seller t = seller (s_order cb) /\ trade_rec t = rec (s_order cb)
  /\ total t = s_total cb /\ paymentId t = s_paymentId cb.

(** Every pending settlement belongs to a trade of the history, and there
    are no more of them than trades. *)
Definition settlements_recorded (sys : System) : Prop :=
  Forall (fun cb => exists t, In t (tradeHistory (app sys)) /\ recorded cb t)
    (timers sys)
  /\ (List.length (timers sys) <= List.length (tradeHistory (app sys)))%nat.

(** The clock readings of the sell-order placements of a run. *)
Fixpoint place_times (evs : list event) : list N :=
  match evs with
  | [] => []
  | EvPlaceSell t :: rest => t :: place_times rest
  | _ :: rest => place_times rest
  end.

(** The ids of the listed orders are made from the clock readings [used]. *)
Definition ids_from (used : list N) (sys : System) : Prop :=
  forall o, In o (orders (app sys)) ->
    exists t, In t used /\ id o = "ORD-" ++ digits t.

(** A non-negative finite binary64 value. *)
Definition finite_nonneg (x : number) : Prop :=
  wf x /\ nonneg x /\ is_inf x = false.

(** The amount and the price of an order are finite and not negative. *)
Definition priced_ok (o : Order) : Prop :=
  finite_nonneg (rec o) /\ finite_nonneg (pricePerREC o).

(** Prices are not negative: the one typed into the sell form, those of the
    listed orders, and the totals of the trades awaiting settlement. *)
Definition cash_ok (sys : System) : Prop :=
  wf (inrBalance (app sys)) /\ nonneg (inrBalance (app sys))
  /\ input_cell_ok (placeRECs (app sys))
  /\ finite_nonneg (placePrice (app sys))
  /\ Forall priced_ok (orders (app sys))
  /\ Forall (fun cb => wf (s_total cb) /\ nonneg (s_total cb)) (timers sys).

(** The price typed into the sell form is not negative. *)
Definition price_input_ok (ev : event) : Prop :=
  match ev with
  | EvInputPrice v => nonneg v
  | _ => True
  end.

(** What one meter reading of [n] thousandths of a kWh mints. *)
Definition mint_check (n : Z) : bool :=
  same_number (fixed 6 (mul (lit n 3) n_0_001)) (lit n 6)
  && same_number (fixed 3 (mul (lit n 3) n_0_8)) (lit ((8 * n + 5) / 10) 3).

(** Events other than the placement of a sell order and a settlement, the
    two that change the credit balance and not the energy total. *)
Definition meter_event (ev : event) : Prop :=
  match ev with
  | EvPlaceSell _ | EvSettle _ => False
  | _ => True
  end.

(** The credit balance is the energy total counted in millionths instead of
    thousandths; [i] bounds the number of meter readings so far. *)
Definition tokenized (i : Z) (sys : System) : Prop :=
  exists K C : Z,
    (0 <= K <= 1200 * i)%Z /\ (0 <= C)%Z
    /\ (8 * K - 5 * i <= 10 * C <= 8 * K + 5 * i)%Z
    /\ kwhTotal (app sys) = lit K 3
    /\ recBalance (app sys) = lit K 6
    /\ carbonKg (app sys) = lit C 3.

(** The number of millionths in an amount of credits. *)
Definition micro (x : number) : Z :=
  Qfloor (Qval x * pow10 6 + (1 # 2)).

(** A credit amount with 6 decimals, read from its millionths. *)
Definition exact6 (x : number) : Prop :=
  x = lit (micro x) 6 /\ (0 <= micro x)%Z.

(** The credits listed in the order book, and those awaited from purchases
    whose settlement will credit the balance. *)
Definition listed (l : list Order) : Z :=
  fold_right (fun o acc => micro (rec o) + acc)%Z 0%Z l.

Definition awaited (l : list Settlement) : Z :=
  fold_right (fun cb acc =>
    (if is_user (s_buyer cb) (s_user cb) then micro (rec (s_order cb)) else 0)
    + acc)%Z 0%Z l.

Definition credits_in_play (sys : System) : Z :=
  (micro (recBalance (app sys)) + listed (orders (app sys)) + awaited (timers sys))%Z.

(** The number of meter ticks of a run. *)
Fixpoint ticks (evs : list event) : Z :=
  match evs with
  | [] => 0
  | EvTick _ :: rest => 1 + ticks rest
  | _ :: rest => ticks rest
  end.

(** All credit amounts are exact, and at most [B] millionths are in play. *)
Definition conserved (B : Z) (sys : System) : Prop :=
  exact6 (recBalance (app sys))
  /\ Forall (fun o => exact6 (rec o)) (orders (app sys))
  /\ Forall (fun cb => exact6 (rec (s_order cb))) (timers sys)
  /\ input_cell_ok (placeRECs (app sys))
  /\ (credits_in_play sys <= B)%Z.

(** The bytes, or the text, do not begin inside a character. *)
Definition starts_char (l : list Ascii.ascii) : Prop :=
  match l with c :: _ => is_continuation c = false | [] => True end.

Definition starts_character (t : string) : Prop :=
  starts_char (list_ascii_of_string t).

(** [min(1000, round(q))] on an exact value, as the specification words the
    score: the nearest whole number, a half going up, and at most 1000. *)
Definition capped_round (q : Q) : Z := Z.min 1000 (Qfloor (q + (1 # 2))%Q).

(** Onboarding, a sell order for 0.0001 REC at the price -5000000, its
    purchase by the seller and the settlement. *)
Definition negative_price_script : list event :=
  [EvOnboard "Asha" "123456789012" ""; EvMeterStart; EvTick (lit 5 1);
   EvInputRECs (lit 1 4); EvInputPrice (round64 true (inject_Z 5000000));
   EvPlaceSell 100; EvBuy 200 0; EvSettle 0].

End GreenPe.

(** ** Facts about the number model *)

Module NumFacts.

Import Num.
Local Open Scope Q_scope.

(** *** Powers of two and the binary logarithm *)
Lemma pow2_pos e : 0 < pow2 e.
Proof. unfold pow2. apply Qpower_0_lt. reflexivity. Qed.

Lemma pow2_add a b : pow2 (a + b) == pow2 a * pow2 b.
Proof. unfold pow2. apply Qpower_plus. discriminate. Qed.

Lemma pow2_le a b : (a <= b)%Z -> pow2 a <= pow2 b.
Proof. intros. unfold pow2. apply Qpower_le_compat_l; [assumption|discriminate]. Qed.

Lemma pow2_lt a b : (a < b)%Z -> pow2 a < pow2 b.
Proof. intros. unfold pow2. apply Qpower_lt_compat_l; [assumption|reflexivity]. Qed.

Lemma pow2_Z n : (0 <= n)%Z -> pow2 n == inject_Z (2 ^ n).
Proof. intros. unfold pow2. rewrite Zpower_Qpower by assumption. reflexivity. Qed.

Lemma pow2_succ a : pow2 (a + 1) == 2 * pow2 a.
Proof. rewrite pow2_add. unfold pow2 at 2. simpl. ring. Qed.

Lemma pow2_nonzero e : ~ pow2 e == 0.
Proof. pose proof (pow2_pos e). intro E. rewrite E in H. discriminate. Qed.

(** ilog2 *)
Lemma Q_as_frac q : q == inject_Z (Qnum q) / inject_Z (Z.pos (Qden q)).
Proof. destruct q as [n d]. simpl. rewrite Qmake_Qdiv. reflexivity. Qed.

Lemma ilog2_spec q : 0 < q -> pow2 (ilog2 q) <= q /\ q < pow2 (ilog2 q + 1).
Proof.
  intros Hq.
  assert (Hn : (0 < Qnum q)%Z).
  { destruct q as [n d]. unfold Qlt in Hq. simpl in *. lia. }
  set (a := Z.log2 (Qnum q)). set (b := Z.log2 (Z.pos (Qden q))).
  destruct (Z.log2_spec (Qnum q) Hn) as [Ha1 Ha2].
  destruct (Z.log2_spec (Z.pos (Qden q))) as [Hb1 Hb2]; [lia|].
  fold a in Ha1, Ha2. fold b in Hb1, Hb2.
  assert (Ha0 : (0 <= a)%Z) by apply Z.log2_nonneg.
  assert (Hb0 : (0 <= b)%Z) by apply Z.log2_nonneg.
  assert (Hq' := Q_as_frac q).
  assert (Hd : 0 < inject_Z (Z.pos (Qden q))) by reflexivity.
  assert (Hlo : pow2 (a - b - 1) <= q).
  { rewrite Hq'. apply Qle_shift_div_l; [assumption|].
    assert (E : pow2 (a - b - 1) * pow2 (b + 1) == pow2 a).
    { rewrite <- pow2_add. replace (a - b - 1 + (b + 1))%Z with a by lia. reflexivity. }
    apply Qle_trans with (pow2 (a - b - 1) * pow2 (b + 1)).
    - apply Qmult_le_l; [apply pow2_pos|].
      rewrite pow2_Z by lia. rewrite <- Zle_Qle. lia.
    - rewrite E. rewrite pow2_Z by lia. rewrite <- Zle_Qle. lia. }
  assert (Hhi : q < pow2 (a - b + 1)).
  { rewrite Hq'. apply Qlt_shift_div_r; [assumption|].
    assert (E : pow2 (a - b + 1) * pow2 b == pow2 (a + 1)).
    { rewrite <- pow2_add. replace (a - b + 1 + b)%Z with (a + 1)%Z by lia. reflexivity. }
    apply Qlt_le_trans with (pow2 (a + 1)).
    - rewrite pow2_Z by lia. rewrite <- Zlt_Qlt. lia.
    - rewrite <- E. apply Qmult_le_l; [apply pow2_pos|].
      rewrite pow2_Z by lia. rewrite <- Zle_Qle. lia. }
  unfold ilog2. fold a b.
  destruct (Qle_bool (pow2 (a - b)) q) eqn:E.
  - apply Qle_bool_iff in E. split; assumption.
  - split; [assumption|].
    replace (a - b - 1 + 1)%Z with (a - b)%Z by lia.
    apply Qnot_le_lt. intro H. apply Qle_bool_iff in H. congruence.
Qed.

Lemma ilog2_unique q k : pow2 k <= q -> q < pow2 (k + 1) -> ilog2 q = k.
Proof.
  intros H1 H2.
  assert (Hq : 0 < q) by (eapply Qlt_le_trans; [apply pow2_pos|eassumption]).
  destruct (ilog2_spec Hq) as [H3 H4].
  assert (A : (ilog2 q < k + 1)%Z).
  { apply Qpower_lt_compat_l_inv with (q := 2); [|reflexivity].
    eapply Qle_lt_trans; eassumption. }
  assert (B : (k < ilog2 q + 1)%Z).
  { apply Qpower_lt_compat_l_inv with (q := 2); [|reflexivity].
    eapply Qle_lt_trans; eassumption. }
  lia.
Qed.

Lemma ilog2_mono q1 q2 : 0 < q1 -> q1 <= q2 -> (ilog2 q1 <= ilog2 q2)%Z.
Proof.
  intros H0 H.
  assert (H0' : 0 < q2) by (eapply Qlt_le_trans; eassumption).
  destruct (ilog2_spec H0) as [A _]. destruct (ilog2_spec H0') as [_ B].
  assert (C : (ilog2 q1 < ilog2 q2 + 1)%Z).
  { apply Qpower_lt_compat_l_inv with (q := 2); [|reflexivity].
    eapply Qle_lt_trans; [|eassumption]. eapply Qle_trans; eassumption. }
  lia.
Qed.

Lemma ilog2_comp q1 q2 : 0 < q1 -> q1 == q2 -> ilog2 q1 = ilog2 q2.
Proof.
  intros H0 E. symmetry. 
  destruct (ilog2_spec H0) as [A B].
  apply ilog2_unique; rewrite <- E; assumption.
Qed.

(** *** Rounding to the nearest integer *)
Lemma rne_cases q :
  let f := Qfloor q in
  (rne q = f /\ q - inject_Z f <= 1 # 2) \/
  (rne q = (f + 1)%Z /\ 1 # 2 <= q - inject_Z f).
Proof.
  intro f. unfold rne. fold f.
  destruct (Qcompare_spec (q - inject_Z f) (1 # 2)) as [E|E|E].
  - destruct (Z.even f); [left|right]; split; auto; rewrite E; apply Qle_refl.
  - left. split; auto. apply Qlt_le_weak; assumption.
  - right. split; auto. apply Qlt_le_weak; assumption.
Qed.

Lemma rne_lower q : inject_Z (rne q) - (1 # 2) <= q.
Proof.
  pose proof (Qfloor_le q). pose proof (Qlt_floor q).
  destruct (rne_cases q) as [[E H1]|[E H1]]; rewrite E.
  - lra.
  - rewrite inject_Z_plus. change (inject_Z 1) with 1. lra.
Qed.

Lemma rne_upper q : q <= inject_Z (rne q) + (1 # 2).
Proof.
  pose proof (Qfloor_le q). pose proof (Qlt_floor q).
  rewrite inject_Z_plus in H0. change (inject_Z 1) with 1 in H0.
  destruct (rne_cases q) as [[E H1]|[E H1]]; rewrite E.
  - lra.
  - rewrite inject_Z_plus. change (inject_Z 1) with 1. lra.
Qed.

Lemma rne_mono q1 q2 : q1 <= q2 -> (rne q1 <= rne q2)%Z.
Proof.
  intros H.
  pose proof (Qfloor_resp_le _ _ H) as Hf.
  destruct (Z.eq_dec (Qfloor q1) (Qfloor q2)) as [E|NE].
  - unfold rne. rewrite E.
    destruct (Qcompare_spec (q1 - inject_Z (Qfloor q2)) (1 # 2)) as [A|A|A];
    destruct (Qcompare_spec (q2 - inject_Z (Qfloor q2)) (1 # 2)) as [B|B|B];
    try destruct (Z.even (Qfloor q2)); try lia; exfalso; lra.
  - assert (rne q1 <= Qfloor q1 + 1)%Z by (destruct (rne_cases q1) as [[-> _]|[-> _]]; lia).
    assert (Qfloor q2 <= rne q2)%Z by (destruct (rne_cases q2) as [[-> _]|[-> _]]; lia).
    lia.
Qed.

Lemma rne_comp q1 q2 : q1 == q2 -> rne q1 = rne q2.
Proof.
  intros E. apply Z.le_antisymm; apply rne_mono; rewrite E; apply Qle_refl.
Qed.

Lemma rne_Z z : rne (inject_Z z) = z.
Proof.
  unfold rne. rewrite Qfloor_Z.
  destruct (Qcompare_spec (inject_Z z - inject_Z z) (1 # 2)) as [A|A|A]; auto; exfalso; lra.
Qed.

Lemma rne_ge z q : inject_Z z <= q -> (z <= rne q)%Z.
Proof. intros H. rewrite <- (rne_Z z). apply rne_mono; assumption. Qed.

Lemma rne_le z q : q <= inject_Z z -> (rne q <= z)%Z.
Proof. intros H. rewrite <- (rne_Z z). apply rne_mono; assumption. Qed.

(** *** Rounding to binary64 *)
Lemma rexp_mono q1 q2 : 0 < q1 -> q1 <= q2 -> (rexp q1 <= rexp q2)%Z.
Proof. intros. unfold rexp. pose proof (ilog2_mono H H0). lia. Qed.

Lemma rsig_upper q : 0 < q -> (rsig q <= 2 ^ 53)%Z.
Proof.
  intros Hq. unfold rsig. apply rne_le.
  destruct (ilog2_spec Hq) as [_ H].
  apply Qle_shift_div_r; [apply pow2_pos|].
  rewrite <- pow2_Z by lia. rewrite <- pow2_add.
  apply Qlt_le_weak. eapply Qlt_le_trans; [eassumption|].
  apply pow2_le. unfold rexp. lia.
Qed.

Lemma rsig_nonneg q : 0 < q -> (0 <= rsig q)%Z.
Proof.
  intros Hq. unfold rsig. apply rne_ge.
  apply Qle_shift_div_l; [apply pow2_pos|]. 
  change (inject_Z 0) with 0. lra.
Qed.

Lemma rsig_lower q : 0 < q -> (rexp q = ilog2 q - 52)%Z -> (2 ^ 52 <= rsig q)%Z.
Proof.
  intros Hq He. unfold rsig. apply rne_ge.
  destruct (ilog2_spec Hq) as [H _].
  apply Qle_shift_div_l; [apply pow2_pos|].
  rewrite <- pow2_Z by lia. rewrite <- pow2_add.
  eapply Qle_trans; [|eassumption]. apply pow2_le. lia.
Qed.

Lemma rsig_subnormal q : 0 < q -> (ilog2 q - 52 < rexp q)%Z -> (rsig q <= 2 ^ 52)%Z.
Proof.
  intros Hq He. unfold rsig. apply rne_le.
  destruct (ilog2_spec Hq) as [_ H].
  apply Qle_shift_div_r; [apply pow2_pos|].
  rewrite <- pow2_Z by lia. rewrite <- pow2_add.
  apply Qlt_le_weak. eapply Qlt_le_trans; [eassumption|].
  apply pow2_le. lia.
Qed.

Lemma rval_mono q1 q2 : 0 < q1 -> q1 <= q2 -> rval q1 <= rval q2.
Proof.
  intros H0 H.
  assert (H0' : 0 < q2) by (eapply Qlt_le_trans; eassumption).
  pose proof (rexp_mono H0 H) as He.
  unfold rval.
  destruct (Z.eq_dec (rexp q1) (rexp q2)) as [E|NE].
  - rewrite E. apply Qmult_le_compat_r; [|apply Qlt_le_weak, pow2_pos].
    rewrite <- Zle_Qle. unfold rsig. rewrite E. apply rne_mono.
    apply Qmult_le_compat_r; [assumption|].
    apply Qlt_le_weak, Qinv_lt_0_compat, pow2_pos.
  - assert (E2 : rexp q2 = (ilog2 q2 - 52)%Z) by (unfold rexp in *; lia).
    pose proof (rsig_upper H0). pose proof (rsig_lower H0' E2).
    apply Qle_trans with (pow2 53 * pow2 (rexp q1)).
    + apply Qmult_le_compat_r; [|apply Qlt_le_weak, pow2_pos].
      rewrite pow2_Z by lia. rewrite <- Zle_Qle. assumption.
    + apply Qle_trans with (pow2 52 * pow2 (rexp q2)).
      * rewrite <- !pow2_add. apply pow2_le. lia.
      * apply Qmult_le_compat_r; [|apply Qlt_le_weak, pow2_pos].
        rewrite pow2_Z by lia. rewrite <- Zle_Qle. assumption.
Qed.

Lemma rval_pos_sig q : 0 < q -> (0 < rsig q)%Z -> 0 < rval q.
Proof.
  intros. unfold rval. apply Qmult_lt_0_compat; [|apply pow2_pos].
  change 0 with (inject_Z 0). rewrite <- Zlt_Qlt. assumption.
Qed.

Lemma round64_pos q : 0 < q -> Qle_bool q 0 = false.
Proof.
  intros H. destruct (Qle_bool q 0) eqn:E; auto.
  apply Qle_bool_iff in E. exfalso. lra.
Qed.

Lemma round64_unfold s q : 0 < q ->
  round64 s q =
    let '(m, e) := if (rsig q =? 2 ^ 53)%Z then (2 ^ 52, rexp q + 1)%Z else (rsig q, rexp q) in
    match m with
    | Z.pos p => if (e <=? 971)%Z then S754_finite s p e else S754_infinity s
    | _ => S754_zero s
    end.
Proof. intros H. unfold round64. rewrite (round64_pos H). reflexivity. Qed.

Lemma round64_spec s q : 0 < q -> round64_result s q (round64 s q).
Proof.
  intros Hq. rewrite (round64_unfold s Hq).
  pose proof (rsig_upper Hq) as Hu. pose proof (rsig_nonneg Hq) as Hn.
  assert (Hexp : (-1074 <= rexp q)%Z) by (unfold rexp; lia).
  assert (Hnorm : (-1074 < rexp q -> 2 ^ 52 <= rsig q)%Z).
  { intros. apply rsig_lower; auto. unfold rexp in *. lia. }
  destruct (Z.eqb_spec (rsig q) (2 ^ 53)) as [E|NE].
  - assert (V : inject_Z (2 ^ 52) * pow2 (rexp q + 1) == rval q).
    { unfold rval. rewrite E, pow2_succ. 
      change (2 ^ 53)%Z with (2 * 2 ^ 52)%Z. rewrite inject_Z_mult.
      change (inject_Z 2) with 2. ring. }
    change (2 ^ 52)%Z with (Z.pos (2 ^ 52)) in *.
    cbv iota beta.
    destruct (Z.leb_spec (rexp q + 1) 971).
    + apply RR_finite; auto. repeat split; try lia.
    + apply RR_inf. rewrite <- V.
      change (pow2 1024) with (pow2 (52 + 972)). rewrite pow2_add.
      rewrite (pow2_Z (n := 52)) by lia.
      apply Qmult_le_l; [reflexivity|]. apply pow2_le. lia.
  - cbv iota beta. destruct (rsig q) as [|p|p] eqn:Es.
    + apply RR_zero. unfold rval. rewrite Es. ring.
    + destruct (Z.leb_spec (rexp q) 971).
      * apply RR_finite.
        -- repeat split; lia.
        -- unfold rval. rewrite Es. reflexivity.
      * apply RR_inf. unfold rval. rewrite Es.
        change (pow2 1024) with (pow2 (52 + 972)). rewrite pow2_add.
        apply Qle_trans with (inject_Z (Z.pos p) * pow2 972).
        -- apply Qmult_le_compat_r; [|apply Qlt_le_weak, pow2_pos].
           rewrite pow2_Z by lia. rewrite <- Zle_Qle. apply Hnorm. lia.
        -- apply Qmult_le_l; [reflexivity|]. apply pow2_le. lia.
    + lia.
Qed.

Lemma canon_lt_pow1024 p e : canon p e -> inject_Z (Z.pos p) * pow2 e < pow2 1024.
Proof.
  intros (H1 & H2 & _).
  apply Qlt_le_trans with (pow2 53 * pow2 e).
  - apply Qmult_lt_compat_r; [apply pow2_pos|].
    rewrite pow2_Z by lia. rewrite <- Zlt_Qlt. assumption.
  - rewrite <- pow2_add. apply pow2_le. lia.
Qed.

Lemma round64_zero s q : q <= 0 -> round64 s q = S754_zero s.
Proof. intros H. unfold round64. apply Qle_bool_iff in H. rewrite H. reflexivity. Qed.

Lemma leb_Qval x y : is_nan x = false -> is_inf x = false -> is_nan y = false -> is_inf y = false ->
  (leb x y = true <-> Qval x <= Qval y).
Proof.
  intros. unfold leb.
  assert (E : compare x y = Some (Qcompare (Qval x) (Qval y))).
  { destruct x, y; try discriminate; reflexivity. }
  rewrite E. rewrite Qle_alt.
  destruct (Qcompare (Qval x) (Qval y)); split; intros; congruence.
Qed.

Lemma leb_inf_r x : is_nan x = false -> leb x (S754_infinity false) = true.
Proof. destruct x as [s|s| |s m e]; try discriminate; try destruct s; reflexivity. Qed.

Lemma Qval_finite_pos p e : Qval (S754_finite false p e) = inject_Z (Z.pos p) * pow2 e.
Proof. reflexivity. Qed.

Lemma round64_mono q1 q2 : q1 <= q2 -> leb (round64 false q1) (round64 false q2) = true.
Proof.
  intros H.
  destruct (Qlt_le_dec 0 q1) as [H1|H1].
  - assert (H2 : 0 < q2) by lra.
    pose proof (rval_mono H1 H) as Hr.
    destruct (round64_spec false H1) as [A|p e C A|A];
    destruct (round64_spec false H2) as [B|p' e' C' B|B];
    try (apply leb_inf_r; reflexivity);
    try (apply leb_Qval; try reflexivity; rewrite ?Qval_finite_pos; simpl Qval; lra).
    + exfalso. pose proof (pow2_pos 1024). lra.
    + exfalso. pose proof (canon_lt_pow1024 C'). lra.
  - rewrite (round64_zero false H1).
    destruct (Qlt_le_dec 0 q2) as [H2|H2].
    + destruct (round64_spec false H2) as [B|p' e' C' B|B]; try reflexivity.
      apply leb_Qval; try reflexivity. rewrite Qval_finite_pos. simpl Qval.
      apply Qmult_le_0_compat; [discriminate|apply Qlt_le_weak, pow2_pos].
    + rewrite (round64_zero false H2). reflexivity.
Qed.

(** *** Binary64 values and the order *)
Lemma digits2_log2 p : Z.pos (digits2_pos p) = (Z.log2 (Z.pos p) + 1)%Z.
Proof.
  induction p as [p IH|p IH|]; simpl digits2_pos; try reflexivity.
  - rewrite Pos2Z.inj_succ, IH. 
    change (Z.pos p~1) with (2 * Z.pos p + 1)%Z. rewrite Z.log2_succ_double by lia. lia.
  - rewrite Pos2Z.inj_succ, IH.
    change (Z.pos p~0) with (2 * Z.pos p)%Z. rewrite Z.log2_double by lia. lia.
Qed.

Lemma bounded_canon p e : bounded 53 1024 p e = true <-> canon p e.
Proof.
  unfold bounded, canonical_mantissa, fexp, SpecFloat.emin, canon.
  rewrite digits2_log2.
  destruct (Z.log2_spec (Z.pos p)) as [L1 L2]; [lia|].
  pose proof (Z.log2_nonneg (Z.pos p)) as L0.
  set (l := Z.log2 (Z.pos p)) in *.
  rewrite andb_true_iff, Z.eqb_eq, Z.leb_le.
  change (3 - 1024 - 53)%Z with (-1074)%Z. change (1024 - 53)%Z with 971%Z.
  split.
  - intros [H1 H2].
    assert (l <= 52)%Z by lia.
    assert (2 ^ (l + 1) <= 2 ^ 53)%Z by (apply Z.pow_le_mono_r; lia).
    repeat split; try lia.
    destruct (Z.eq_dec e (-1074)); [right; assumption|left].
    assert (l = 52)%Z by lia. subst l. rewrite <- H3. assumption.
  - intros (H1 & H2 & H3).
    assert (l < 53)%Z.
    { apply Z.pow_lt_mono_r_iff with (a := 2%Z); lia. }
    split; [|lia].
    destruct H3 as [H3|H3]; [|lia].
    assert (52 < l + 1)%Z.
    { apply Z.pow_lt_mono_r_iff with (a := 2%Z); lia. }
    lia.
Qed.

Lemma wf_finite s p e : wf (S754_finite s p e) <-> canon p e.
Proof. unfold wf. simpl. apply bounded_canon. Qed.

Lemma ilog2_dyadic p e : ilog2 (inject_Z (Z.pos p) * pow2 e) = (Z.log2 (Z.pos p) + e)%Z.
Proof.
  destruct (Z.log2_spec (Z.pos p)) as [L1 L2]; [lia|].
  pose proof (Z.log2_nonneg (Z.pos p)) as L0.
  apply ilog2_unique.
  - rewrite pow2_add. apply Qmult_le_compat_r; [|apply Qlt_le_weak, pow2_pos].
    rewrite pow2_Z by lia. rewrite <- Zle_Qle. assumption.
  - replace (Z.log2 (Z.pos p) + e + 1)%Z with (Z.log2 (Z.pos p) + 1 + e)%Z by lia.
    rewrite pow2_add. apply Qmult_lt_compat_r; [apply pow2_pos|].
    rewrite pow2_Z by lia. rewrite <- Zlt_Qlt. replace (Z.log2 (Z.pos p) + 1)%Z with (Z.succ (Z.log2 (Z.pos p))) by lia. assumption.
Qed.

Lemma dyadic_pos p e : 0 < inject_Z (Z.pos p) * pow2 e.
Proof. apply Qmult_lt_0_compat; [reflexivity|apply pow2_pos]. Qed.

Lemma round64_id s p e : canon p e ->
  round64 s (inject_Z (Z.pos p) * pow2 e) = S754_finite s p e.
Proof.
  intros (H1 & H2 & H3).
  pose proof (dyadic_pos p e) as Hq.
  rewrite (round64_unfold s Hq).
  destruct (Z.log2_spec (Z.pos p)) as [L1 L2]; [lia|].
  pose proof (Z.log2_nonneg (Z.pos p)) as L0.
  assert (Hl : (Z.log2 (Z.pos p) < 53)%Z).
  { apply Z.pow_lt_mono_r_iff with (a := 2%Z); lia. }
  assert (He : rexp (inject_Z (Z.pos p) * pow2 e) = e).
  { unfold rexp. rewrite ilog2_dyadic.
    destruct H3 as [H3|H3]; [|lia].
    assert (52 < Z.log2 (Z.pos p) + 1)%Z.
    { apply Z.pow_lt_mono_r_iff with (a := 2%Z); lia. }
    lia. }
  assert (Hs : rsig (inject_Z (Z.pos p) * pow2 e) = Z.pos p).
  { unfold rsig. rewrite He. rewrite <- (rne_Z (Z.pos p)) at 2.
    apply rne_comp. field. apply pow2_nonzero. }
  rewrite Hs, He.
  destruct (Z.eqb_spec (Z.pos p) (2 ^ 53)); [lia|].
  destruct (Z.leb_spec e 971); [reflexivity|lia].
Qed.

Lemma round64_comp s q1 q2 : q1 == q2 -> round64 s q1 = round64 s q2.
Proof.
  intros E.
  destruct (Qlt_le_dec 0 q1) as [H|H].
  - assert (H2 : 0 < q2) by (rewrite <- E; assumption).
    rewrite (round64_unfold s H), (round64_unfold s H2).
    assert (Ee : rexp q1 = rexp q2) by (unfold rexp; rewrite (ilog2_comp H E); reflexivity).
    assert (Es : rsig q1 = rsig q2).
    { unfold rsig. rewrite Ee. apply rne_comp. rewrite E. reflexivity. }
    rewrite Ee, Es. reflexivity.
  - rewrite !round64_zero; auto. rewrite <- E. assumption.
Qed.

Lemma round64_wf s q : wf (round64 s q).
Proof.
  destruct (Qlt_le_dec 0 q) as [H|H].
  - destruct (round64_spec s H); try reflexivity. apply wf_finite. assumption.
  - rewrite round64_zero by assumption. reflexivity.
Qed.

Lemma round64_sign s q : sign (round64 s q) = s /\ is_nan (round64 s q) = false.
Proof.
  destruct (Qlt_le_dec 0 q) as [H|H].
  - destruct (round64_spec s H); split; reflexivity.
  - rewrite round64_zero by assumption. split; reflexivity.
Qed.

Lemma Qval_neg_lt p e : Qval (S754_finite true p e) < 0.
Proof.
  simpl. setoid_replace (inject_Z (Z.neg p) * pow2 e) with (- (inject_Z (Z.pos p) * pow2 e)).
  - pose proof (dyadic_pos p e). lra.
  - change (Z.neg p) with (- Z.pos p)%Z. rewrite inject_Z_opp. ring.
Qed.

Lemma nonneg_inv x : nonneg x -> nonneg_shape x.
Proof.
  unfold nonneg. destruct x as [s|[]| |[] p e]; try discriminate; try constructor.
  intros H. apply leb_Qval in H; try reflexivity.
  pose proof (Qval_neg_lt p e). simpl Qval in *. exfalso. lra.
Qed.

Lemma nonneg_intro x : nonneg_shape x -> nonneg x.
Proof.
  intros []; unfold nonneg; try reflexivity.
  apply leb_Qval; try reflexivity. simpl Qval at 1. apply Qlt_le_weak, dyadic_pos.
Qed.

Lemma round64_nonneg q : nonneg (round64 false q).
Proof.
  apply nonneg_intro.
  destruct (Qlt_le_dec 0 q) as [H|H].
  - destruct (round64_spec false H); constructor.
  - rewrite round64_zero by assumption. constructor.
Qed.

Lemma le_trans x y z : leb x y = true -> leb y z = true -> leb x z = true.
Proof.
  destruct x as [sx|sx| |sx mx ex]; destruct y as [sy|sy| |sy my ey];
  destruct z as [sz|sz| |sz mz ez]; try discriminate; intros H1 H2;
  first
    [ apply leb_Qval in H1; try reflexivity; apply leb_Qval in H2; try reflexivity;
      apply leb_Qval; try reflexivity; exact (Qle_trans _ _ _ H1 H2)
    | repeat match goal with s : bool |- _ => destruct s end;
      first [ reflexivity | discriminate H1 | discriminate H2 ] ].
Qed.

Lemma le_refl x : is_nan x = false -> leb x x = true.
Proof.
  destruct x as [s|[]| |s p e]; try discriminate; try reflexivity; intros _;
  apply leb_Qval; try reflexivity; apply Qle_refl.
Qed.

Lemma nonneg_not_nan x : nonneg x -> is_nan x = false.
Proof. intros H. destruct (nonneg_inv H); reflexivity. Qed.

Lemma nonneg_le x y : nonneg x -> leb x y = true -> nonneg y.
Proof. unfold nonneg. apply le_trans. Qed.

Lemma Qval_nonneg x : nonneg x -> 0 <= Qval x.
Proof.
  intros H. destruct (nonneg_inv H); simpl Qval; try apply Qle_refl.
  apply Qlt_le_weak, dyadic_pos.
Qed.

(** A finite non-negative binary64 number is the rounding of its value, up
    to the sign of zero. *)
Lemma round64_Qval_le x : nonneg x -> wf x -> is_inf x = false ->
  leb x (round64 false (Qval x)) = true /\ leb (round64 false (Qval x)) x = true.
Proof.
  intros H W I. destruct (nonneg_inv H) as [s|p e|]; try discriminate.
  - rewrite round64_zero by apply Qle_refl. destruct s; split; reflexivity.
  - apply wf_finite in W. rewrite Qval_finite_pos, (round64_id false W).
    split; apply le_refl; reflexivity.
Qed.

(** *** Addition *)
Lemma add_wf x y : wf x -> wf y -> wf (add x y).
Proof.
  intros Wx Wy. destruct x as [sx|sx| |sx mx ex], y as [sy|sy| |sy my ey]; simpl;
  try assumption; try reflexivity;
  try (destruct (Bool.eqb _ _); (assumption || reflexivity)).
  unfold round_exact. destruct (Qcompare _ _); try apply round64_wf. reflexivity.
Qed.

Lemma add_nonneg x y : nonneg x -> nonneg y -> nonneg (add x y).
Proof.
  intros Hx Hy. destruct (nonneg_inv Hx), (nonneg_inv Hy); simpl add;
  try assumption; try (destruct (Bool.eqb _ _); (assumption || reflexivity)).
  unfold round_exact.
  pose proof (dyadic_pos p e). pose proof (dyadic_pos p0 e0).
  match goal with |- context [Qcompare ?a 0] => destruct (Qcompare_spec a 0) as [A|A|A] end;
  simpl Qval in A; try (exfalso; lra). apply round64_nonneg.
Qed.

Lemma add_round x y : nonneg x -> nonneg y -> wf x -> wf y ->
  is_inf x = false -> is_inf y = false ->
  leb (add x y) (round64 false (Qval x + Qval y)) = true /\
  leb (round64 false (Qval x + Qval y)) (add x y) = true.
Proof.
  intros Hx Hy Wx Wy Ix Iy.
  destruct (nonneg_inv Hx) as [sx|px ex|], (nonneg_inv Hy) as [sy|py ey|]; try discriminate.
  - simpl Qval. rewrite round64_zero by (apply Qle_lteq; right; ring).
    simpl add. destruct sx, sy; split; reflexivity.
  - rewrite (round64_comp false (q2 := Qval (S754_finite false py ey))) by (simpl Qval; ring).
    simpl add. apply round64_Qval_le; auto.
  - rewrite (round64_comp false (q2 := Qval (S754_finite false px ex))) by (simpl Qval; ring).
    simpl add. apply round64_Qval_le; auto.
  - simpl add. unfold round_exact.
    pose proof (dyadic_pos px ex). pose proof (dyadic_pos py ey).
    match goal with |- context [Qcompare ?a 0] => destruct (Qcompare_spec a 0) as [A|A|A] end;
    simpl Qval in A; try (exfalso; lra).
    split; apply le_refl; apply round64_sign.
Qed.

Lemma add_inf_l y : nonneg y -> add (S754_infinity false) y = S754_infinity false.
Proof. intros H. destruct (nonneg_inv H); reflexivity. Qed.

Lemma add_inf_r x : nonneg x -> add x (S754_infinity false) = S754_infinity false.
Proof. intros H. destruct (nonneg_inv H); reflexivity. Qed.

Lemma is_inf_nonneg x : nonneg x -> is_inf x = true -> x = S754_infinity false.
Proof. intros H. destruct (nonneg_inv H); try discriminate; reflexivity. Qed.

Lemma le_inf_l y : leb (S754_infinity false) y = true -> y = S754_infinity false.
Proof. destruct y as [s|[]| |[] p e]; try discriminate; reflexivity. Qed.

Lemma add_mono_l x x' y : nonneg x -> nonneg y -> wf x -> wf x' -> wf y ->
  leb x x' = true -> leb (add x y) (add x' y) = true.
Proof.
  intros Hx Hy Wx Wx' Wy L.
  assert (Hx' : nonneg x') by exact (@nonneg_le x x' Hx L).
  destruct (is_inf y) eqn:Iy.
  { rewrite (is_inf_nonneg Hy Iy), !add_inf_r by assumption. reflexivity. }
  destruct (is_inf x') eqn:Ix'.
  { rewrite (is_inf_nonneg Hx' Ix'), add_inf_l by assumption.
    apply leb_inf_r, nonneg_not_nan, add_nonneg; assumption. }
  destruct (is_inf x) eqn:Ix.
  { rewrite (is_inf_nonneg Hx Ix) in L. apply le_inf_l in L. subst x'. discriminate. }
  destruct (add_round Hx Hy Wx Wy Ix Iy) as [A _].
  destruct (add_round Hx' Hy Wx' Wy Ix' Iy) as [_ B].
  eapply le_trans; [exact A|]. eapply le_trans; [|exact B].
  apply round64_mono. apply leb_Qval in L; try assumption; try (apply nonneg_not_nan; assumption).
  lra.
Qed.

Lemma add_comm_le x y : nonneg x -> nonneg y -> wf x -> wf y ->
  leb (add x y) (add y x) = true.
Proof.
  intros Hx Hy Wx Wy.
  destruct (is_inf y) eqn:Iy.
  { rewrite (is_inf_nonneg Hy Iy), add_inf_r, add_inf_l by assumption. reflexivity. }
  destruct (is_inf x) eqn:Ix.
  { rewrite (is_inf_nonneg Hx Ix), add_inf_r, add_inf_l by assumption. reflexivity. }
  destruct (add_round Hx Hy Wx Wy Ix Iy) as [A _].
  destruct (add_round Hy Hx Wy Wx Iy Ix) as [_ B].
  eapply le_trans; [exact A|]. eapply le_trans; [|exact B].
  apply round64_mono. lra.
Qed.

Lemma add_mono_r x y y' : nonneg x -> nonneg y -> wf x -> wf y -> wf y' ->
  leb y y' = true -> leb (add x y) (add x y') = true.
Proof.
  intros Hx Hy Wx Wy Wy' L.
  assert (Hy' : nonneg y') by exact (@nonneg_le y y' Hy L).
  eapply le_trans; [apply add_comm_le; assumption|].
  eapply le_trans; [apply add_mono_l; eassumption|].
  apply add_comm_le; assumption.
Qed.

(** *** Multiplication by a positive finite constant *)
Lemma Qabs_dyadic p e : Qabs (inject_Z (Z.pos p) * pow2 e) == inject_Z (Z.pos p) * pow2 e.
Proof. apply Qabs_pos, Qlt_le_weak, dyadic_pos. Qed.

Lemma mul_finite sx mx ex sy my ey :
  mul (S754_finite sx mx ex) (S754_finite sy my ey) =
  round64 (xorb sx sy)
    (Qabs (Qval (S754_finite sx mx ex)) * Qabs (Qval (S754_finite sy my ey))).
Proof. reflexivity. Qed.

Lemma mul_wf x y : wf (mul x y).
Proof.
  destruct x as [sx|sx| |sx mx ex], y as [sy|sy| |sy my ey]; simpl; try reflexivity.
  apply round64_wf.
Qed.

Lemma mul_nonneg x pc ec : nonneg x -> nonneg (mul x (S754_finite false pc ec)).
Proof.
  intros H. destruct (nonneg_inv H) as [s|p e|].
  - apply nonneg_intro. constructor.
  - rewrite mul_finite. apply round64_nonneg.
  - reflexivity.
Qed.

Lemma mul_round x pc ec : nonneg x -> is_inf x = false ->
  let c := S754_finite false pc ec in
  leb (mul x c) (round64 false (Qval x * Qval c)) = true /\
  leb (round64 false (Qval x * Qval c)) (mul x c) = true.
Proof.
  intros H I c. destruct (nonneg_inv H) as [s|p e|]; try discriminate.
  - simpl Qval at 1 3. rewrite round64_zero by (apply Qle_lteq; right; ring).
    simpl mul. destruct s; split; reflexivity.
  - unfold c. rewrite mul_finite. simpl xorb.
    rewrite (round64_comp false (q2 := Qval (S754_finite false p e) * Qval c)).
    + split; apply le_refl; apply round64_sign.
    + unfold c. rewrite !Qval_finite_pos, !Qabs_dyadic. reflexivity.
Qed.

Lemma mul_mono_l x x' pc ec : nonneg x -> leb x x' = true ->
  leb (mul x (S754_finite false pc ec)) (mul x' (S754_finite false pc ec)) = true.
Proof.
  intros Hx L.
  assert (Hx' : nonneg x') by exact (@nonneg_le x x' Hx L).
  destruct (is_inf x') eqn:Ix'.
  { rewrite (is_inf_nonneg Hx' Ix'). simpl mul at 2.
    apply leb_inf_r, nonneg_not_nan, mul_nonneg; assumption. }
  destruct (is_inf x) eqn:Ix.
  { rewrite (is_inf_nonneg Hx Ix) in L. apply le_inf_l in L. subst x'. discriminate. }
  destruct (mul_round pc ec Hx Ix) as [A _].
  destruct (mul_round pc ec Hx' Ix') as [_ B].
  eapply le_trans; [exact A|]. eapply le_trans; [|exact B].
  apply round64_mono. apply leb_Qval in L; try assumption; try (apply nonneg_not_nan; assumption).
  apply Qmult_le_compat_r; [assumption|]. rewrite Qval_finite_pos. apply Qlt_le_weak, dyadic_pos.
Qed.

(** *** Subtraction *)
Lemma sub_wf x y : wf x -> wf y -> wf (sub x y).
Proof.
  intros Wx Wy. destruct x as [sx|sx| |sx mx ex], y as [sy|sy| |sy my ey]; simpl;
  try assumption; try reflexivity;
  try (destruct (Bool.eqb _ _); (assumption || reflexivity)).
  unfold round_exact. destruct (Qcompare _ _); try apply round64_wf. reflexivity.
Qed.

Lemma sub_nonneg x y : nonneg x -> nonneg y -> is_inf y = false ->
  leb y x = true -> nonneg (sub x y).
Proof.
  intros Hx Hy Iy L.
  destruct (nonneg_inv Hx) as [sx|px ex|], (nonneg_inv Hy) as [sy|py ey|]; try discriminate;
  simpl sub; try assumption; try reflexivity.
  - destruct (Bool.eqb sx sy); apply nonneg_intro; constructor.
  - apply leb_Qval in L; try reflexivity. simpl Qval in L.
    pose proof (dyadic_pos py ey). exfalso. lra.
  - apply leb_Qval in L; try reflexivity. rewrite !Qval_finite_pos in L.
    unfold round_exact.
    match goal with |- context [Qcompare ?a 0] => destruct (Qcompare_spec a 0) as [A|A|A] end;
    rewrite ?Qval_finite_pos in A; try (exfalso; lra).
    + reflexivity.
    + apply round64_nonneg.
Qed.

(** *** toFixed followed by unary plus *)
Lemma pow10_pos f : 0 < pow10 f.
Proof. unfold pow10. apply Qpower_0_lt. reflexivity. Qed.

Lemma decimal_round_mono f X Y : X <= Y -> decimal_round f X <= decimal_round f Y.
Proof.
  intros H. unfold decimal_round.
  apply Qmult_le_compat_r; [|apply Qlt_le_weak, Qinv_lt_0_compat, pow10_pos].
  rewrite <- Zle_Qle. apply Qfloor_resp_le.
  pose proof (pow10_pos f).
  assert (X * pow10 f <= Y * pow10 f) by (apply Qmult_le_compat_r; lra). lra.
Qed.

Lemma pow10_Z n : (0 <= n)%Z -> pow10 n == inject_Z (10 ^ n).
Proof. intros. unfold pow10. rewrite Zpower_Qpower by assumption. reflexivity. Qed.

Lemma Qfloor_lt_Z q z : q < inject_Z z + (1 # 2) -> (Qfloor q <= z)%Z.
Proof.
  intros H. pose proof (Qfloor_le q).
  assert (A : inject_Z (Qfloor q) < inject_Z (z + 1)).
  { rewrite inject_Z_plus. change (inject_Z 1) with 1. lra. }
  rewrite <- Zlt_Qlt in A. lia.
Qed.

Lemma decimal_round_bound f X : (0 <= f)%Z -> X < pow10 21 -> decimal_round f X <= pow10 21.
Proof.
  intros Hf H. unfold decimal_round.
  apply Qle_shift_div_r; [apply pow10_pos|].
  assert (E : pow10 21 * pow10 f == inject_Z (10 ^ (21 + f))).
  { rewrite <- pow10_Z by lia. unfold pow10. rewrite Qpower_plus by discriminate. reflexivity. }
  rewrite E. rewrite <- Zle_Qle. apply Qfloor_lt_Z. rewrite <- E.
  pose proof (pow10_pos f).
  assert (X * pow10 f < pow10 21 * pow10 f) by (apply Qmult_lt_compat_r; assumption). lra.
Qed.

Lemma fixed_small f x : nonneg x -> is_inf x = false -> Qval x < pow10 21 ->
  fixed f x = round64 false (decimal_round f (Qval x)).
Proof.
  intros H I L. destruct (nonneg_inv H) as [s|p e|]; try discriminate.
  - unfold fixed, toFixed, to_number. apply round64_comp.
    unfold decimal_round. simpl Qval. 
    setoid_replace (0 * pow10 f + (1 # 2)) with (1 # 2) by ring. reflexivity.
  - unfold fixed, toFixed.
    destruct (Qle_bool (pow10 21) (Qabs (Qval (S754_finite false p e)))) eqn:E.
    + apply Qle_bool_iff in E. rewrite Qval_finite_pos, Qabs_dyadic in E.
      rewrite Qval_finite_pos in L. exfalso. lra.
    + unfold to_number, decimal_round. apply round64_comp.
      rewrite Qval_finite_pos, Qabs_dyadic. reflexivity.
Qed.

Lemma fixed_big f x : nonneg x -> is_inf x = true \/ pow10 21 <= Qval x -> fixed f x = x.
Proof.
  intros H L. destruct (nonneg_inv H) as [s|p e|].
  - destruct L as [L|L]; [discriminate|]. simpl Qval in L.
    pose proof (pow10_pos 21). exfalso. lra.
  - destruct L as [L|L]; [discriminate|]. unfold fixed, toFixed.
    destruct (Qle_bool (pow10 21) (Qabs (Qval (S754_finite false p e)))) eqn:E; [reflexivity|].
    exfalso. rewrite Qval_finite_pos, Qabs_dyadic in E. rewrite Qval_finite_pos in L.
    apply Qle_bool_iff in L. congruence.
  - reflexivity.
Qed.

Lemma fixed_cases f x : nonneg x ->
  (is_inf x = false /\ Qval x < pow10 21 /\ fixed f x = round64 false (decimal_round f (Qval x)))
  \/ ((is_inf x = true \/ pow10 21 <= Qval x) /\ fixed f x = x).
Proof.
  intros H. destruct (is_inf x) eqn:I.
  - right. split; [left; reflexivity|]. apply fixed_big; auto.
  - destruct (Qlt_le_dec (Qval x) (pow10 21)) as [L|L].
    + left. repeat split; auto. apply fixed_small; auto.
    + right. split; [right; assumption|]. apply fixed_big; auto.
Qed.

Lemma fixed_nonneg f x : nonneg x -> nonneg (fixed f x).
Proof.
  intros H. destruct (fixed_cases f H) as [(_ & _ & E)|(_ & E)]; rewrite E.
  - apply round64_nonneg.
  - assumption.
Qed.

Lemma fixed_wf f x : wf x -> wf (fixed f x).
Proof.
  intros W. unfold fixed, toFixed. destruct x as [s|s| |s p e]; try assumption.
  destruct (Qle_bool _ _); simpl to_number; [assumption|apply round64_wf].

Qed.

Lemma fixed_mono f x y : (0 <= f)%Z -> nonneg x -> wf x -> wf y ->
  leb x y = true -> leb (fixed f x) (fixed f y) = true.
Proof.
  intros Hf Hx Wx Wy L.
  assert (Hy : nonneg y) by exact (@nonneg_le x y Hx L).
  destruct (fixed_cases f Hx) as [(Ix & Bx & Ex)|([Ix|Bx] & Ex)];
  destruct (fixed_cases f Hy) as [(Iy & By & Ey)|([Iy|By] & Ey)]; rewrite Ex, Ey.
  - apply round64_mono, decimal_round_mono.
    apply leb_Qval in L; auto; apply nonneg_not_nan; assumption.
  - rewrite (is_inf_nonneg Hy Iy). apply leb_inf_r, round64_sign.
  - destruct (is_inf y) eqn:Iy.
    { rewrite (is_inf_nonneg Hy Iy). apply leb_inf_r, round64_sign. }
    destruct (round64_Qval_le Hy Wy Iy) as [_ B].
    eapply le_trans; [|exact B]. apply round64_mono.
    pose proof (decimal_round_bound Hf Bx). lra.
  - rewrite (is_inf_nonneg Hx Ix) in L. apply le_inf_l in L. subst y. discriminate.
  - assumption.
  - assumption.
  - destruct (is_inf x) eqn:Ix.
    { rewrite (is_inf_nonneg Hx Ix) in L. apply le_inf_l in L. subst y. discriminate. }
    apply leb_Qval in L; auto; try (apply nonneg_not_nan; assumption). exfalso. lra.
  - assumption.
  - assumption.
Qed.

(** *** Math.round and Math.min *)
Lemma Qfloor_half z : Qfloor (inject_Z z + (1 # 2)) = z.
Proof.
  apply Z.le_antisymm.
  - pose proof (Qfloor_le (inject_Z z + (1 # 2))) as A.
    assert (B : inject_Z (Qfloor (inject_Z z + (1 # 2))) < inject_Z (z + 1)).
    { rewrite inject_Z_plus. change (inject_Z 1) with 1. lra. }
    rewrite <- Zlt_Qlt in B. lia.
  - rewrite <- (Qfloor_Z z) at 1. apply Qfloor_resp_le. lra.
Qed.

Lemma Math_round_round x : nonneg x -> wf x -> is_inf x = false ->
  let r := round64 false (inject_Z (Qfloor (Qval x + (1 # 2)))) in
  leb (Math_round x) r = true /\ leb r (Math_round x) = true.
Proof.
  intros H W I r. unfold r. destruct (nonneg_inv H) as [s|p e|]; try discriminate.
  - simpl Math_round. rewrite round64_zero by (simpl; discriminate).
    destruct s; split; reflexivity.
  - unfold Math_round. destruct (Z.leb_spec 0 e) as [He|He].
    + assert (E : Qval (S754_finite false p e) == inject_Z (Z.pos p * 2 ^ e)).
      { rewrite Qval_finite_pos, inject_Z_mult, pow2_Z by assumption. reflexivity. }
      assert (E2 : Qfloor (Qval (S754_finite false p e) + (1 # 2)) = (Z.pos p * 2 ^ e)%Z).
      { rewrite <- (Qfloor_half (Z.pos p * 2 ^ e)). 
        apply Z.le_antisymm; apply Qfloor_resp_le; rewrite E; apply Qle_refl. }
      rewrite E2, <- (round64_comp false E). apply round64_Qval_le; auto.
    + assert (K : (0 <= Qfloor (Qval (S754_finite false p e) + (1 # 2)))%Z).
      { rewrite <- (Qfloor_Z 0). apply Qfloor_resp_le.
        pose proof (dyadic_pos p e). rewrite Qval_finite_pos. change (inject_Z 0) with 0. lra. }
      rewrite Z.abs_eq by assumption.
      split; apply le_refl; apply round64_sign.
Qed.

Lemma Math_round_inf : Math_round (S754_infinity false) = S754_infinity false.
Proof. reflexivity. Qed.

Lemma Math_round_nonneg x : nonneg x -> nonneg (Math_round x).
Proof.
  intros H. destruct (nonneg_inv H) as [s|p e|]; try assumption.
  unfold Math_round. destruct (0 <=? e)%Z; [assumption|apply round64_nonneg].
Qed.

Lemma Math_round_wf x : wf x -> wf (Math_round x).
Proof.
  intros W. destruct x as [s|s| |s p e]; try assumption.
  unfold Math_round. destruct (0 <=? e)%Z; [assumption|apply round64_wf].
Qed.

Lemma Math_round_mono x y : nonneg x -> wf x -> wf y -> leb x y = true ->
  leb (Math_round x) (Math_round y) = true.
Proof.
  intros Hx Wx Wy L.
  assert (Hy : nonneg y) by exact (@nonneg_le x y Hx L).
  destruct (is_inf y) eqn:Iy.
  { rewrite (is_inf_nonneg Hy Iy). apply leb_inf_r, nonneg_not_nan, Math_round_nonneg, Hx. }
  destruct (is_inf x) eqn:Ix.
  { rewrite (is_inf_nonneg Hx Ix) in L. apply le_inf_l in L. subst y. discriminate. }
  destruct (Math_round_round Hx Wx Ix) as [A _].
  destruct (Math_round_round Hy Wy Iy) as [_ B].
  eapply le_trans; [exact A|]. eapply le_trans; [|exact B].
  apply round64_mono. rewrite <- Zle_Qle. apply Qfloor_resp_le.
  apply leb_Qval in L; auto; try (apply nonneg_not_nan; assumption). lra.
Qed.

Lemma compare_antisym x y : compare y x = option_map CompOpp (compare x y).
Proof.
  destruct x as [sx|sx| |sx mx ex], y as [sy|sy| |sy my ey]; simpl; 
  try reflexivity; try (destruct sx; reflexivity); try (destruct sy; reflexivity);
  try (destruct sx, sy; reflexivity);
  try (rewrite <- Qcompare_antisym; reflexivity).
Qed.

Lemma compare_Gt_le x y : compare x y = Some Gt -> leb y x = true.
Proof. intros H. unfold leb. rewrite (compare_antisym x y), H. reflexivity. Qed.

Lemma compare_Eq_le x y : compare x y = Some Eq -> leb x y = true /\ leb y x = true.
Proof. intros H. unfold leb. rewrite (compare_antisym x y), H. split; reflexivity. Qed.

Lemma compare_Lt_le x y : compare x y = Some Lt -> leb x y = true.
Proof. intros H. unfold leb. rewrite H. reflexivity. Qed.

Lemma compare_total x y : is_nan x = false -> is_nan y = false ->
  exists c, compare x y = Some c.
Proof. destruct x, y; try discriminate; simpl; eauto. Qed.

Lemma Math_min_le_l c y : is_nan c = false -> is_nan y = false ->
  leb (Math_min c y) c = true.
Proof.
  intros Hc Hy. unfold Math_min.
  destruct (compare_total c y Hc Hy) as [[] E]; rewrite E.
  - destruct (sign c); [apply le_refl; assumption|]. exact (proj2 (compare_Eq_le c y E)).
  - apply le_refl; assumption.
  - apply compare_Gt_le; assumption.
Qed.

Lemma Math_min_le_r c y : is_nan c = false -> is_nan y = false ->
  leb (Math_min c y) y = true.
Proof.
  intros Hc Hy. unfold Math_min.
  destruct (compare_total c y Hc Hy) as [[] E]; rewrite E.
  - destruct (sign c); [|apply le_refl; assumption]. exact (proj1 (compare_Eq_le c y E)).
  - apply compare_Lt_le; assumption.
  - apply le_refl; assumption.
Qed.

Lemma Math_min_glb c y z : is_nan c = false -> leb z c = true -> leb z y = true ->
  leb z (Math_min c y) = true.
Proof.
  intros Hc L1 L2. unfold Math_min.
  assert (Hy : is_nan y = false).
  { destruct y; try reflexivity. destruct z; discriminate. }
  destruct (compare_total c y Hc Hy) as [[] E]; rewrite E; try assumption.
  destruct (sign c); assumption.
Qed.

Lemma Math_min_mono c y y' : is_nan c = false -> leb y y' = true ->
  leb (Math_min c y) (Math_min c y') = true.
Proof.
  intros Hc L.
  assert (Hy : is_nan y = false).
  { destruct y; try reflexivity. destruct y'; discriminate. }
  apply Math_min_glb; auto.
  - apply Math_min_le_l; assumption.
  - eapply le_trans; [|exact L]. apply Math_min_le_r; assumption.
Qed.

Lemma ltb_true_leb_false x y : ltb x y = true -> leb y x = false.
Proof.
  unfold ltb, leb. rewrite (compare_antisym x y).
  destruct (compare x y) as [[]|]; try discriminate. reflexivity.
Qed.

Lemma leb_true_ltb_false x y : leb x y = true -> ltb y x = false.
Proof.
  unfold ltb, leb. rewrite (compare_antisym x y).
  destruct (compare x y) as [[]|]; try discriminate; reflexivity.
Qed.

Lemma mul_nonneg_const x c : pos_finite c -> nonneg x -> nonneg (mul x c).
Proof. destruct c as [| | |[] p e]; try contradiction. intros _. apply mul_nonneg. Qed.

Lemma mul_mono_const x x' c : pos_finite c -> nonneg x -> leb x x' = true ->
  leb (mul x c) (mul x' c) = true.
Proof. destruct c as [| | |[] p e]; try contradiction. intros _. apply mul_mono_l. Qed.

Lemma add_ge_l x y : nonneg x -> nonneg y -> wf x -> wf y -> leb x (add x y) = true.
Proof.
  intros Hx Hy Wx Wy.
  destruct (is_inf x) eqn:Ix.
  { rewrite (is_inf_nonneg Hx Ix), add_inf_l by assumption. reflexivity. }
  destruct (is_inf y) eqn:Iy.
  { rewrite (is_inf_nonneg Hy Iy), add_inf_r by assumption.
    apply leb_inf_r, nonneg_not_nan, Hx. }
  destruct (round64_Qval_le Hx Wx Ix) as [A _].
  destruct (add_round Hx Hy Wx Wy Ix Iy) as [_ B].
  eapply le_trans; [exact A|]. eapply le_trans; [|exact B].
  apply round64_mono. pose proof (Qval_nonneg Hy). lra.
Qed.

Lemma leb_false_nonneg x : is_nan x = false -> leb x (S754_zero false) = false -> nonneg x.
Proof.
  intros N L. unfold nonneg.
  destruct (compare_total x (S754_zero false) N eq_refl) as [c E].
  unfold leb in L. rewrite E in L. destruct c; try discriminate.
  apply compare_Gt_le. assumption.
Qed.

Lemma gtb_false_le x y : is_nan x = false -> is_nan y = false -> gtb x y = false ->
  leb x y = true.
Proof.
  intros Nx Ny G. unfold gtb, ltb in G.
  destruct (compare_total y x Ny Nx) as [c E]. rewrite E in G.
  destruct c; try discriminate.
  - exact (proj2 (compare_Eq_le y x E)).
  - apply compare_Gt_le. assumption.
Qed.

Lemma round64_finite_below q b : q <= b -> is_inf (round64 false b) = false ->
  is_inf (round64 false q) = false.
Proof.
  intros H I. pose proof (round64_mono H) as L.
  destruct (round64 false q) as [s|[]| |s p e] eqn:E; try reflexivity.
  - pose proof (round64_sign false q) as [S _]. rewrite E in S. discriminate.
  - apply le_inf_l in L. rewrite L in I. discriminate.
Qed.

Lemma fixed_finite d x : (0 <= d)%Z -> nonneg x -> is_inf x = false ->
  is_inf (fixed d x) = false.
Proof.
  intros Hd H I. destruct (fixed_cases d H) as [(_ & B & E)|(_ & E)]; rewrite E; [|exact I].
  apply round64_finite_below with (b := pow10 21); [|reflexivity].
  apply decimal_round_bound; assumption.
Qed.

Lemma fixed_not_nan d x : nonneg x -> is_nan (fixed d x) = false.
Proof. intros H. apply nonneg_not_nan, fixed_nonneg, H. Qed.

Lemma round_exact_nonneg q : 0 <= q -> round_exact q = round64 false q.
Proof.
  intros H. unfold round_exact.
  destruct (Qcompare_spec q 0) as [E|E|E].
  - symmetry. apply round64_zero. rewrite E. apply Qle_refl.
  - exfalso. lra.
  - reflexivity.
Qed.

(** *** The code's rounding and the specification's *)
Lemma Qabs_Qval s p e : Qabs (Qval (S754_finite s p e)) == inject_Z (Z.pos p) * pow2 e.
Proof.
  destruct s.
  - unfold Qval. rewrite Qabs_Qmult.
    rewrite (Qabs_pos (pow2 e)) by apply Qlt_le_weak, pow2_pos.
    reflexivity.
  - apply Qabs_dyadic.
Qed.

Lemma Qval_nonzero s p e : Qeq_bool (Qval (S754_finite s p e)) 0 = false.
Proof.
  destruct (Qeq_bool _ _) eqn:E; [|reflexivity].
  apply Qeq_bool_iff in E. pose proof (Qabs_Qval s p e) as A. rewrite E in A.
  pose proof (dyadic_pos p e). simpl Qabs in A. exfalso. lra.
Qed.

Lemma decimal_round_integer d z : (0 <= d)%Z -> decimal_round d (inject_Z z) == inject_Z z.
Proof.
  intros Hd. unfold decimal_round.
  assert (E : inject_Z z * pow10 d + (1 # 2) == inject_Z (z * 10 ^ d) + (1 # 2)).
  { rewrite inject_Z_mult, pow10_Z by assumption. reflexivity. }
  assert (F : Qfloor (inject_Z z * pow10 d + (1 # 2)) = (z * 10 ^ d)%Z).
  { rewrite <- (Qfloor_half (z * 10 ^ d)).
    apply Z.le_antisymm; apply Qfloor_resp_le; rewrite E; apply Qle_refl. }
  rewrite F, inject_Z_mult, <- pow10_Z by assumption. field.
  pose proof (pow10_pos d). intro Z0. rewrite Z0 in H. discriminate.
Qed.

Lemma decimal_round_comp d X Y : X == Y -> decimal_round d X == decimal_round d Y.
Proof.
  intros E. apply Qle_antisym; apply decimal_round_mono; rewrite E; apply Qle_refl.
Qed.

Lemma pow10_21_gt : pow2 53 < pow10 21.
Proof. reflexivity. Qed.

Lemma big_dyadic_integer p e : canon p e -> pow10 21 <= inject_Z (Z.pos p) * pow2 e ->
  (0 <= e)%Z.
Proof.
  intros (H1 & _) H.
  destruct (Z.leb_spec 0 e) as [A|A]; [assumption|exfalso].
  assert (B : inject_Z (Z.pos p) * pow2 e <= inject_Z (Z.pos p) * pow2 0).
  { apply Qmult_le_l; [reflexivity|]. apply pow2_le. lia. }
  assert (C : inject_Z (Z.pos p) < pow2 53).
  { rewrite pow2_Z by lia. rewrite <- Zlt_Qlt. assumption. }
  pose proof pow10_21_gt. change (pow2 0) with 1 in B. lra.
Qed.

(** [+x.toFixed(d)] is the rounding of [x] to [d] decimals, for every
    binary64 value [x]. *)
Lemma fixed_round_dp d x : (0 <= d)%Z -> wf x -> fixed d x = round_dp d x.
Proof.
  intros Hd W. destruct x as [s|s| |s p e]; try reflexivity.
  - unfold fixed, toFixed, to_number, round_dp.
    simpl Qval. change (Qeq_bool 0 0) with true. rewrite andb_false_r.
    rewrite !round64_zero; [reflexivity| |].
    + unfold decimal_round. simpl Qabs.
      setoid_replace (0 * pow10 d + (1 # 2)) with (1 # 2) by ring.
      change (Qfloor (1 # 2)) with 0%Z. apply Qle_lteq. right.
      unfold Qdiv. ring.
    + apply Qle_lteq. right. unfold Qdiv. ring.
  - unfold fixed, toFixed, round_dp. rewrite Qval_nonzero. simpl sign.
    rewrite andb_true_r.
    destruct (Qle_bool (pow10 21) (Qabs (Qval (S754_finite s p e)))) eqn:E.
    + simpl to_number. apply wf_finite in W.
      apply Qle_bool_iff in E. rewrite Qabs_Qval in E.
      pose proof (big_dyadic_integer W E) as He.
      transitivity (round64 s (inject_Z (Z.pos p) * pow2 e));
        [symmetry; apply round64_id; exact W|]. apply round64_comp.
      assert (Z1 : Qabs (Qval (S754_finite s p e)) == inject_Z (Z.pos p * 2 ^ e)).
      { rewrite Qabs_Qval, inject_Z_mult, pow2_Z by assumption. reflexivity. }
      rewrite (decimal_round_comp d Z1), decimal_round_integer by assumption.
      rewrite inject_Z_mult, pow2_Z by assumption. reflexivity.
    + reflexivity.
Qed.

(** *** Rounding twice to the same decimals *)
Lemma rval_err q : 0 < q ->
  rval q - pow2 (rexp q) * (1 # 2) <= q /\ q <= rval q + pow2 (rexp q) * (1 # 2).
Proof.
  intros Hq. unfold rval, rsig.
  pose proof (pow2_pos (rexp q)) as Hp.
  pose proof (rne_lower (q / pow2 (rexp q))) as L.
  pose proof (rne_upper (q / pow2 (rexp q))) as U.
  set (r := inject_Z (rne (q / pow2 (rexp q)))) in *.
  assert (E : q == q / pow2 (rexp q) * pow2 (rexp q)).
  { field. apply pow2_nonzero. }
  set (x := q / pow2 (rexp q)) in *.
  assert (H1 : (r - (1 # 2)) * pow2 (rexp q) <= x * pow2 (rexp q))
    by (apply Qmult_le_compat_r; lra).
  assert (H2 : x * pow2 (rexp q) <= (r + (1 # 2)) * pow2 (rexp q))
    by (apply Qmult_le_compat_r; lra).
  split; lra.
Qed.

Lemma Qfloor_unique x z : inject_Z z <= x -> x < inject_Z z + 1 -> Qfloor x = z.
Proof.
  intros H1 H2. pose proof (Qfloor_le x) as A. pose proof (Qlt_floor x) as B.
  rewrite inject_Z_plus in B. change (inject_Z 1) with 1 in B.
  assert (C : inject_Z (Qfloor x) < inject_Z (z + 1)).
  { rewrite inject_Z_plus. change (inject_Z 1) with 1. lra. }
  assert (D : inject_Z z < inject_Z (Qfloor x + 1)).
  { rewrite inject_Z_plus. change (inject_Z 1) with 1. lra. }
  rewrite <- Zlt_Qlt in C, D. lia.
Qed.

Lemma rne_near x z : inject_Z z - (1 # 2) < x -> x < inject_Z z + (1 # 2) -> rne x = z.
Proof.
  intros H1 H2. pose proof (rne_lower x) as L. pose proof (rne_upper x) as U.
  assert (C : inject_Z (rne x) < inject_Z (z + 1)).
  { rewrite inject_Z_plus. change (inject_Z 1) with 1. lra. }
  assert (D : inject_Z z < inject_Z (rne x + 1)).
  { rewrite inject_Z_plus. change (inject_Z 1) with 1. lra. }
  rewrite <- Zlt_Qlt in C, D. lia.
Qed.

Lemma decimal_round_err d X : 
  decimal_round d X * pow10 d <= X * pow10 d + (1 # 2) /\
  X * pow10 d - (1 # 2) < decimal_round d X * pow10 d.
Proof.
  unfold decimal_round.
  pose proof (pow10_pos d) as Hp.
  assert (E : inject_Z (Qfloor (X * pow10 d + (1 # 2))) / pow10 d * pow10 d
              == inject_Z (Qfloor (X * pow10 d + (1 # 2)))).
  { field. intro Z0. rewrite Z0 in Hp. discriminate. }
  rewrite E.
  pose proof (Qfloor_le (X * pow10 d + (1 # 2))) as A.
  pose proof (Qlt_floor (X * pow10 d + (1 # 2))) as B.
  rewrite inject_Z_plus in B. change (inject_Z 1) with 1 in B.
  split; lra.
Qed.

Section Idempotence.

(** [t] is the exponent at which the spacing of the doubles crosses the
    spacing [10^-d] of the decimals. *)

Variables (d t : Z).

Hypothesis Hd : (0 <= d)%Z.

Hypothesis Ht : (-1074 <= t)%Z.

Hypothesis Ht' : (0 <= 53 + t)%Z.

Hypothesis Hfine : pow10 d * pow2 t < 1.

Hypothesis Hcoarse : 1 < pow10 d * pow2 (t + 1).

Lemma decimal_fixpoint_fine n : (0 < n)%Z ->
  let q := inject_Z n / pow10 d in
  (rexp q <= t)%Z -> decimal_round d (rval q) == q.
Proof.
  intros Hn q He.
  pose proof (pow10_pos d) as Hp.
  assert (Hq : 0 < q).
  { unfold q. apply Qlt_shift_div_l; [assumption|]. 
    setoid_replace (0 * pow10 d) with 0 by ring.
    change 0 with (inject_Z 0). rewrite <- Zlt_Qlt. assumption. }
  destruct (rval_err Hq) as [L U].
  assert (P : pow2 (rexp q) <= pow2 t) by (apply pow2_le; assumption).
  assert (Eq : q * pow10 d == inject_Z n).
  { unfold q. field. intro Z0. rewrite Z0 in Hp. discriminate. }
  assert (F : Qfloor (rval q * pow10 d + (1 # 2)) = n).
  { pose proof (pow2_pos (rexp q)) as Hpe.
    assert (B1 : (rval q - q) * pow10 d <= pow2 (rexp q) * (1 # 2) * pow10 d).
    { apply Qmult_le_compat_r; lra. }
    assert (B2 : - (pow2 (rexp q) * (1 # 2) * pow10 d) <= (rval q - q) * pow10 d).
    { setoid_replace (- (pow2 (rexp q) * (1 # 2) * pow10 d))
        with ((- (pow2 (rexp q) * (1 # 2))) * pow10 d) by ring.
      apply Qmult_le_compat_r; lra. }
    assert (B3 : pow2 (rexp q) * (1 # 2) * pow10 d < 1 # 2).
    { assert (pow10 d * pow2 (rexp q) <= pow10 d * pow2 t)
        by (apply Qmult_le_l; assumption).
      lra. }
    assert (B4 : (rval q - q) * pow10 d == rval q * pow10 d - inject_Z n).
    { rewrite <- Eq. ring. }
    apply Qfloor_unique; lra. }
  unfold decimal_round. rewrite F. reflexivity.
Qed.

Lemma decimal_fixpoint_coarse q : 0 < q ->
  (t < rexp q)%Z -> (2 ^ 52 < rsig q < 2 ^ 53)%Z ->
  rexp (decimal_round d (rval q)) = rexp q /\
  rsig (decimal_round d (rval q)) = rsig q.
Proof.
  intros Hq He Hm.
  pose proof (pow10_pos d) as Hp.
  set (e := rexp q) in *. set (m := rsig q) in *.
  set (q' := decimal_round d (rval q)).
  destruct (decimal_round_err d (rval q)) as [U L]. fold q' in U, L.
  pose proof (pow2_pos e) as Hpe.
  assert (C : 1 < pow10 d * pow2 e).
  { eapply Qlt_le_trans; [exact Hcoarse|].
    apply Qmult_le_l; [assumption|]. apply pow2_le. lia. }
  assert (Hm1 : inject_Z (2 ^ 52) + 1 <= inject_Z m).
  { change 1 with (inject_Z 1). rewrite <- inject_Z_plus, <- Zle_Qle. lia. }
  assert (Hm2 : inject_Z m + 1 <= inject_Z (2 ^ 53)).
  { change 1 with (inject_Z 1). rewrite <- inject_Z_plus, <- Zle_Qle. lia. }
  assert (V : rval q == inject_Z m * pow2 e) by reflexivity.
  (* |q' - Y| < 2^e / 2 *)
  assert (D1 : (q' - rval q) * pow10 d < pow2 e * (1 # 2) * pow10 d) by lra.
  assert (D2 : (rval q - q') * pow10 d < pow2 e * (1 # 2) * pow10 d) by lra.
  assert (N1 : q' - rval q < pow2 e * (1 # 2)).
  { apply Qmult_lt_r with (z := pow10 d); assumption. }
  assert (N2 : rval q - q' < pow2 e * (1 # 2)).
  { apply Qmult_lt_r with (z := pow10 d); assumption. }
  assert (X1 : inject_Z m - (1 # 2) < q' / pow2 e).
  { apply Qlt_shift_div_l; [assumption|]. lra. }
  assert (X2 : q' / pow2 e < inject_Z m + (1 # 2)).
  { apply Qlt_shift_div_r; [assumption|]. lra. }
  assert (Hq' : 0 < q').
  { assert (0 < inject_Z (2 ^ 52)) by reflexivity.
    assert (0 < (inject_Z m - (1 # 2)) * pow2 e) by (apply Qmult_lt_0_compat; lra).
    lra. }
  assert (Il : ilog2 q' = (52 + e)%Z).
  { apply ilog2_unique.
    - rewrite pow2_add, (pow2_Z (n := 52)) by lia.
      assert (inject_Z (2 ^ 52) * pow2 e <= (inject_Z m - (1 # 2)) * pow2 e)
        by (apply Qmult_le_compat_r; lra).
      lra.
    - replace (52 + e + 1)%Z with (53 + e)%Z by lia.
      rewrite pow2_add, (pow2_Z (n := 53)) by lia.
      assert ((inject_Z m + (1 # 2)) * pow2 e <= inject_Z (2 ^ 53) * pow2 e)
        by (apply Qmult_le_compat_r; lra).
      lra. }
  assert (Re : rexp q' = e).
  { unfold rexp at 1. rewrite Il. unfold e, rexp. unfold e, rexp in He. lia. }
  split; [exact Re|].
  unfold rsig. rewrite Re. apply rne_near; assumption.
Qed.

Lemma round64_decimal_fixpoint n : (0 <= n)%Z ->
  let y := round64 false (inject_Z n / pow10 d) in
  fixed d y = y.
Proof.
  intros Hn y.
  pose proof (pow10_pos d) as Hp.
  assert (Ny : nonneg y) by apply round64_nonneg.
  destruct (fixed_cases d Ny) as [(Iy & By & Ey)|(_ & Ey)]; [|exact Ey].
  rewrite Ey.
  destruct (Z.eq_dec n 0) as [->|Hn0].
  { unfold y. rewrite (round64_zero false (q := inject_Z 0 / pow10 d))
      by (apply Qle_lteq; right; unfold Qdiv; ring).
    rewrite round64_zero; [reflexivity|].
    unfold decimal_round. simpl Qval.
    setoid_replace (0 * pow10 d + (1 # 2)) with (1 # 2) by ring.
    change (Qfloor (1 # 2)) with 0%Z. apply Qle_lteq. right. unfold Qdiv. ring. }
  set (q := inject_Z n / pow10 d) in *.
  assert (Hq : 0 < q).
  { unfold q. apply Qlt_shift_div_l; [assumption|].
    setoid_replace (0 * pow10 d) with 0 by ring.
    change 0 with (inject_Z 0). rewrite <- Zlt_Qlt. lia. }
  pose proof (round64_spec false Hq) as S. fold y in S.
  assert (Vy : Qval y == rval q \/ is_inf y = true).
  { inversion S as [A E|p e C A E|A E]; [left|left|right].
    - simpl. rewrite A. reflexivity.
    - rewrite Qval_finite_pos. exact A.
    - reflexivity. }
  destruct Vy as [Vy|Vy]; [|congruence].
  rewrite (round64_comp false (decimal_round_comp d Vy)).
  destruct (Z_le_gt_dec (rexp q) t) as [He|He].
  - apply round64_comp. apply decimal_fixpoint_fine; [lia|assumption].
  - pose proof (rsig_upper Hq) as Hu.
    assert (Hl : (2 ^ 52 <= rsig q)%Z).
    { apply rsig_lower; [assumption|]. unfold rexp in *. lia. }
    destruct (Z.eq_dec (rsig q) (2 ^ 52)) as [E52|N52];
      [|destruct (Z.eq_dec (rsig q) (2 ^ 53)) as [E53|N53]].
    + assert (I : rval q == inject_Z (2 ^ (52 + rexp q))).
      { unfold rval. rewrite E52, <- !pow2_Z, pow2_add by lia. reflexivity. }
      rewrite (round64_comp false (decimal_round_comp d I)).
      rewrite (round64_comp false (decimal_round_integer (2 ^ (52 + rexp q)) Hd)).
      rewrite <- (round64_comp false I), <- (round64_comp false Vy).
      inversion S as [A E|p e C A E|A E].
      * rewrite round64_zero; [reflexivity|simpl; discriminate].
      * rewrite Qval_finite_pos. apply round64_id. assumption.
      * exfalso. rewrite <- E in Iy. discriminate.
    + assert (I : rval q == inject_Z (2 ^ (53 + rexp q))).
      { unfold rval. rewrite E53, <- !pow2_Z, pow2_add by lia. reflexivity. }
      rewrite (round64_comp false (decimal_round_comp d I)).
      rewrite (round64_comp false (decimal_round_integer (2 ^ (53 + rexp q)) Hd)).
      rewrite <- (round64_comp false I), <- (round64_comp false Vy).
      inversion S as [A E|p e C A E|A E].
      * rewrite round64_zero; [reflexivity|simpl; discriminate].
      * rewrite Qval_finite_pos. apply round64_id. assumption.
      * exfalso. rewrite <- E in Iy. discriminate.
    + assert (Hm : (2 ^ 52 < rsig q < 2 ^ 53)%Z) by lia.
      assert (He' : (t < rexp q)%Z) by lia.
      destruct (decimal_fixpoint_coarse Hq He' Hm) as [Ee Es].
      assert (Hq' : 0 < decimal_round d (rval q)).
      { destruct (Qlt_le_dec 0 (decimal_round d (rval q))) as [P|P]; [exact P|].
        exfalso. unfold rsig in Es at 1. rewrite Ee in Es.
        assert (rne (decimal_round d (rval q) / pow2 (rexp q)) <= 0)%Z.
        { apply rne_le. apply Qle_shift_div_r; [apply pow2_pos|].
          change (inject_Z 0) with 0. lra. }
        lia. }
      unfold y. rewrite (round64_unfold false Hq), (round64_unfold false Hq').
      rewrite Ee, Es. reflexivity.
Qed.

Lemma fixed_idempotent x : nonneg x -> fixed d (fixed d x) = fixed d x.
Proof.
  intros H. destruct (fixed_cases d H) as [(I & B & E)|(_ & E)].
  - rewrite E. unfold decimal_round at 2.
    apply round64_decimal_fixpoint.
    rewrite <- (Qfloor_Z 0). apply Qfloor_resp_le.
    pose proof (Qval_nonneg H). pose proof (pow10_pos d).
    assert (0 <= Qval x * pow10 d) by (apply Qmult_le_0_compat; lra).
    change (inject_Z 0) with 0. lra.
  - rewrite E. exact E.
Qed.

End Idempotence.

Lemma fixed6_idempotent x : nonneg x -> fixed 6 (fixed 6 x) = fixed 6 x.
Proof.
  apply (@fixed_idempotent 6 (-20)); try lia; reflexivity.
Qed.

Lemma fixed3_idempotent x : nonneg x -> fixed 3 (fixed 3 x) = fixed 3 x.
Proof.
  apply (@fixed_idempotent 3 (-10)); try lia; reflexivity.
Qed.

(** *** Agreement with the Standard Library's specification of IEEE 754 *)
Lemma located_exact m : (0 <= m)%Z -> located (inject_Z m) (Build_shr_record m false false).
Proof. intros H. split; [exact H|]. simpl. ring. Qed.

Lemma half_split m : inject_Z m == 2 * inject_Z (Z.div2 m) + inject_Z (if Z.odd m then 1 else 0).
Proof.
  rewrite (Z.div2_odd m) at 1. 
  rewrite inject_Z_plus, inject_Z_mult. 
  destruct (Z.odd m); simpl Z.b2z; reflexivity.
Qed.

Lemma shr_1_m mrs : (0 <= shr_m mrs)%Z ->
  shr_m (shr_1 mrs) = Z.div2 (shr_m mrs)
  /\ shr_r (shr_1 mrs) = Z.odd (shr_m mrs)
  /\ shr_s (shr_1 mrs) = (shr_r mrs || shr_s mrs)%bool.
Proof.
  destruct mrs as [m r s]. simpl. intros H.
  destruct m as [|[p|p|]|p]; try lia; repeat split.
Qed.

Lemma located_shr_1 x mrs : located x mrs -> located (x / 2) (shr_1 mrs).
Proof.
  intros [H0 H]. destruct (shr_1_m mrs H0) as (Em & Er & Es).
  unfold located. rewrite Em, Er, Es.
  pose proof (half_split (shr_m mrs)) as E.
  assert (D0 : (0 <= Z.div2 (shr_m mrs))%Z) by (apply Z.div2_nonneg; exact H0).
  split; [exact D0|].
  set (h := inject_Z (Z.div2 (shr_m mrs))) in *.
  set (m := inject_Z (shr_m mrs)) in *.
  cbv zeta in H.
  assert (X : x / 2 - h == (x - m) * (1 # 2)
                 + inject_Z (if Z.odd (shr_m mrs) then 1 else 0) * (1 # 2)).
  { rewrite E. field. }
  set (y := x / 2) in *.
  destruct (Z.odd (shr_m mrs)); change (inject_Z 1) with 1 in X; change (inject_Z 0) with 0 in X;
  destruct (shr_r mrs), (shr_s mrs); cbn [orb]; cbv zeta; try lra; split; lra.
Qed.

Lemma located_rne x mrs : located x mrs ->
  round_nearest_even (shr_m mrs) (loc_of_shr_record mrs) = rne x.
Proof.
  intros [H0 H]. destruct mrs as [m r s]. cbn [shr_m shr_r shr_s] in *.
  assert (F : Qfloor x = m).
  { apply Qfloor_unique; destruct r, s; lra. }
  unfold rne. rewrite F.
  destruct r, s; simpl loc_of_shr_record; simpl round_nearest_even;
  destruct (Qcompare_spec (x - inject_Z m) (1 # 2)) as [A|A|A]; try reflexivity;
  try (exfalso; lra).
Qed.

Lemma located_comp x y mrs : x == y -> located x mrs -> located y mrs.
Proof.
  intros E [H0 H]. split; [exact H0|]. cbv zeta in *.
  destruct (shr_r mrs), (shr_s mrs); rewrite <- E; exact H.
Qed.

Lemma located_iter p : forall x mrs, located x mrs ->
  located (x / pow2 (Z.pos p)) (iter_pos shr_1 p mrs).
Proof.
  assert (P2 : forall q, pow2 (Z.pos q~0) == pow2 (Z.pos q) * pow2 (Z.pos q)).
  { intros q. rewrite <- pow2_add. replace (Z.pos q~0) with (Z.pos q + Z.pos q)%Z by lia. reflexivity. }
  assert (P1 : forall q, pow2 (Z.pos q~1) == 2 * pow2 (Z.pos q) * pow2 (Z.pos q)).
  { intros q. replace (Z.pos q~1) with (Z.pos q~0 + 1)%Z by lia. rewrite pow2_succ, P2. ring. }
  induction p as [p IH|p IH|]; intros x mrs H; cbn [iter_pos].
  - apply located_shr_1 in H. apply IH in H. apply IH in H.
    revert H. apply located_comp. rewrite P1. field. apply pow2_nonzero.
  - apply IH in H. apply IH in H.
    revert H. apply located_comp. rewrite P2. field. apply pow2_nonzero.
  - apply located_shr_1 in H. revert H. apply located_comp. reflexivity.
Qed.

Lemma fexp64 z : fexp 53 1024 z = Z.max (z - 53) (-1074).
Proof. reflexivity. Qed.

Lemma rexp_dyadic m e :
  rexp (inject_Z (Z.pos m) * pow2 e) = fexp 53 1024 (Z.pos (digits2_pos m) + e).
Proof. unfold rexp. rewrite ilog2_dyadic, fexp64, digits2_log2. lia. Qed.

Lemma shr_located m e n : (0 <= n)%Z ->
  let '(mrs, e') := shr (Build_shr_record (Z.pos m) false false) e n in
  located (inject_Z (Z.pos m) / pow2 n) mrs /\ e' = (e + n)%Z.
Proof.
  intros Hn. destruct n as [|p|p]; try lia; cbn [shr].
  - split; [|lia].
    apply (@located_comp (inject_Z (Z.pos m)) (inject_Z (Z.pos m) / pow2 0)).
    + change (pow2 0) with 1. unfold Qdiv, Qeq. simpl. lia.
    + apply located_exact. lia.
  - split; [|reflexivity]. apply located_iter, located_exact. lia.
Qed.

Lemma Zdigits2_bound m : (0 < m < 2 ^ 53)%Z -> (Zdigits2 m <= 53)%Z.
Proof.
  intros H. destruct m as [|p|p]; try lia. cbn [Zdigits2]. rewrite digits2_log2.
  assert (Z.log2 (Z.pos p) < 53)%Z by (apply Z.log2_lt_pow2; lia). lia.
Qed.

Lemma shr_nonpos mrs e n : (n <= 0)%Z -> shr mrs e n = (mrs, e).
Proof. destruct n; try lia; reflexivity. Qed.

(** The rounding of the Standard Library's specification of IEEE 754
    arithmetic is [round64]. *)
Lemma binary_round_aux_round64 s m e :
  (e <= fexp 53 1024 (Z.pos (digits2_pos m) + e))%Z ->
  binary_round_aux 53 1024 s (Z.pos m) e loc_Exact
  = round64 s (inject_Z (Z.pos m) * pow2 e).
Proof.
  intros He.
  set (q := inject_Z (Z.pos m) * pow2 e).
  assert (Hq : 0 < q) by apply dyadic_pos.
  rewrite (round64_unfold s Hq).
  pose proof (rexp_dyadic m e) as Er. fold q in Er.
  unfold binary_round_aux, shr_fexp. cbn [Zdigits2 shr_record_of_loc].
  rewrite <- Er.
  assert (Hn : (0 <= rexp q - e)%Z) by lia.
  pose proof (shr_located m e Hn) as S1.
  destruct (shr (Build_shr_record (Z.pos m) false false) e (rexp q - e)) as [mrs e'].
  destruct S1 as [L1 E1]. replace (e + (rexp q - e))%Z with (rexp q) in E1 by lia. subst e'.
  rewrite (located_rne L1).
  assert (Es : rne (inject_Z (Z.pos m) / pow2 (rexp q - e)) = rsig q).
  { assert (P : pow2 (rexp q) == pow2 (rexp q - e) * pow2 e).
    { rewrite <- pow2_add. replace (rexp q - e + e)%Z with (rexp q) by lia. reflexivity. }
    unfold rsig. apply rne_comp. rewrite P.
    generalize (pow2_nonzero (rexp q - e)) (pow2_nonzero e).
    generalize (pow2 (rexp q - e)). unfold q. generalize (pow2 e).
    intros b a Ha Hb. field. split; assumption. }
  rewrite Es.
  pose proof (rsig_upper Hq) as Hu. pose proof (rsig_nonneg Hq) as Hl.
  assert (Hmin : (-1074 <= rexp q)%Z) by (unfold rexp; lia).
  destruct (Z.eqb_spec (rsig q) (2 ^ 53)) as [E53|N53].
  - rewrite E53. change (Zdigits2 (2 ^ 53)) with 54%Z. rewrite fexp64.
    replace (Z.max (54 + rexp q - 53) (-1074) - rexp q)%Z with 1%Z by lia.
    cbn [shr iter_pos shr_1 shr_m]. 
    change (2 ^ 53)%Z with (Z.pos (2 ^ 53)%positive). cbn [shr_1 shr_m].
    reflexivity.
  - destruct (rsig q) as [|p|p] eqn:Eq; try lia.
    + cbn [Zdigits2]. rewrite shr_nonpos by (rewrite fexp64; lia). reflexivity.
    + rewrite shr_nonpos.
      * reflexivity.
      * assert (Zdigits2 (Z.pos p) <= 53)%Z by (apply Zdigits2_bound; lia).
        rewrite fexp64. lia.
Qed.

Lemma iter_xO m d : Z.pos (Pos.iter xO m d) = (Z.pos m * 2 ^ Z.pos d)%Z.
Proof.
  induction d as [|d IH] using Pos.peano_ind.
  - cbn [Pos.iter]. lia.
  - rewrite Pos.iter_succ, Pos2Z.inj_xO, IH, Pos2Z.inj_succ, Z.pow_succ_r by lia. ring.
Qed.

Lemma shl_align_spec m e e' :
  let '(m', e'') := shl_align m e e' in
  e'' = Z.min e e' /\ Z.pos m' = (Z.pos m * 2 ^ (e - e''))%Z.
Proof.
  unfold shl_align. destruct (e' - e)%Z as [|d|d] eqn:E.
  - split; [lia|]. rewrite Z.sub_diag. simpl. lia.
  - split; [lia|]. rewrite Z.sub_diag. simpl. lia.
  - split; [lia|]. rewrite iter_xO. f_equal. f_equal. lia.
Qed.

Lemma dyadic_shift m e k : (0 <= k)%Z ->
  inject_Z (Z.pos m * 2 ^ k) * pow2 (e - k) == inject_Z (Z.pos m) * pow2 e.
Proof.
  intros Hk. rewrite inject_Z_mult, <- pow2_Z by assumption.
  rewrite <- Qmult_assoc, <- pow2_add. replace (k + (e - k))%Z with e by lia. reflexivity.
Qed.

Lemma digits_shift m k m' : (0 <= k)%Z -> Z.pos m' = (Z.pos m * 2 ^ k)%Z ->
  Z.pos (digits2_pos m') = (Z.pos (digits2_pos m) + k)%Z.
Proof.
  intros Hk E. rewrite !digits2_log2, E, Z.log2_mul_pow2 by lia. lia.
Qed.

Lemma binary_round_round64 s m e :
  binary_round 53 1024 s m e = round64 s (inject_Z (Z.pos m) * pow2 e).
Proof.
  unfold binary_round.
  pose proof (shl_align_spec m e (fexp 53 1024 (Z.pos (digits2_pos m) + e))) as S.
  destruct (shl_align m e (fexp 53 1024 (Z.pos (digits2_pos m) + e))) as [m' e'].
  destruct S as [Ee Em].
  assert (Hk : (0 <= e - e')%Z) by lia.
  pose proof (digits_shift m Hk Em) as D.
  rewrite binary_round_aux_round64.
  - apply round64_comp. rewrite Em.
    rewrite <- (dyadic_shift m e Hk). replace (e - (e - e'))%Z with e' by lia. reflexivity.
  - rewrite D. replace (Z.pos (digits2_pos m) + (e - e') + e')%Z
      with (Z.pos (digits2_pos m) + e)%Z by lia. lia.
Qed.

Lemma binary_normalize_round_exact M e :
  binary_normalize 53 1024 M e false = round_exact (inject_Z M * pow2 e).
Proof.
  pose proof (pow2_pos e) as Hp.
  unfold binary_normalize, round_exact. destruct M as [|m|m].
  - destruct (Qcompare_spec (inject_Z 0 * pow2 e) 0) as [A|A|A]; [reflexivity|exfalso..];
    change (inject_Z 0) with 0 in A; lra.
  - pose proof (dyadic_pos m e).
    destruct (Qcompare_spec (inject_Z (Z.pos m) * pow2 e) 0) as [A|A|A]; try (exfalso; lra).
    apply binary_round_round64.
  - pose proof (dyadic_pos m e) as D.
    assert (N : inject_Z (Z.neg m) * pow2 e == - (inject_Z (Z.pos m) * pow2 e)).
    { change (Z.neg m) with (- Z.pos m)%Z. rewrite inject_Z_opp. ring. }
    destruct (Qcompare_spec (inject_Z (Z.neg m) * pow2 e) 0) as [A|A|A]; try (exfalso; lra).
    rewrite binary_round_round64. apply round64_comp. rewrite N. ring.
Qed.

Lemma aligned_value s m e ez : (ez <= e)%Z ->
  inject_Z (cond_Zopp s (Z.pos (fst (shl_align m e ez)))) * pow2 ez
  == Qval (S754_finite s m e).
Proof.
  intros H. pose proof (shl_align_spec m e ez) as S.
  destruct (shl_align m e ez) as [m' e']. destruct S as [Ee Em]. cbn [fst].
  assert (E' : e' = ez) by lia. clear Ee. subst e'.
  assert (Hk : (0 <= e - ez)%Z) by lia.
  pose proof (dyadic_shift m e Hk) as D. replace (e - (e - ez))%Z with ez in D by lia.
  unfold Qval. destruct s; unfold cond_Zopp.
  - rewrite Em. change (Z.neg m) with (- Z.pos m)%Z. rewrite !inject_Z_opp. lra.
  - rewrite Em. exact D.
Qed.

(** Addition, subtraction and, on binary64 values, multiplication are the
    operations of the Standard Library's specification of IEEE 754. *)
Theorem add_SFadd x y : add x y = SFadd 53 1024 x y.
Proof.
  destruct x as [sx|sx| |sx mx ex], y as [sy|sy| |sy my ey]; try reflexivity;
  try (destruct sx, sy; reflexivity).
  unfold add, SFadd. rewrite binary_normalize_round_exact.
  unfold round_exact.
  assert (E : inject_Z
                (cond_Zopp sx (Z.pos (fst (shl_align mx ex (Z.min ex ey))))
                 + cond_Zopp sy (Z.pos (fst (shl_align my ey (Z.min ex ey)))))
              * pow2 (Z.min ex ey)
              == Qval (S754_finite sx mx ex) + Qval (S754_finite sy my ey)).
  { rewrite inject_Z_plus, Qmult_plus_distr_l, !aligned_value by lia. reflexivity. }
  rewrite (Qcompare_comp _ _ E 0 0) by reflexivity.
  destruct (Qcompare _ 0); try reflexivity; apply round64_comp; rewrite E; reflexivity.
Qed.

Theorem sub_SFsub x y : sub x y = SFsub 53 1024 x y.
Proof.
  destruct x as [sx|sx| |sx mx ex], y as [sy|sy| |sy my ey]; try reflexivity;
  try (destruct sx, sy; reflexivity).
  unfold sub, SFsub. rewrite binary_normalize_round_exact.
  unfold round_exact.
  assert (E : inject_Z
                (cond_Zopp sx (Z.pos (fst (shl_align mx ex (Z.min ex ey))))
                 - cond_Zopp sy (Z.pos (fst (shl_align my ey (Z.min ex ey)))))
              * pow2 (Z.min ex ey)
              == Qval (S754_finite sx mx ex) - Qval (S754_finite sy my ey)).
  { unfold Z.sub. rewrite inject_Z_plus, inject_Z_opp, Qmult_plus_distr_l.
    setoid_replace (- inject_Z (cond_Zopp sy (Z.pos (fst (shl_align my ey (Z.min ex ey)))))
                    * pow2 (Z.min ex ey))
      with (- (inject_Z (cond_Zopp sy (Z.pos (fst (shl_align my ey (Z.min ex ey)))))
               * pow2 (Z.min ex ey))) by ring.
    rewrite !aligned_value by lia. reflexivity. }
  rewrite (Qcompare_comp _ _ E 0 0) by reflexivity.
  destruct (Qcompare _ 0); try reflexivity; apply round64_comp; rewrite E; reflexivity.
Qed.

Lemma canon_digits p e : canon p e ->
  (Z.pos (digits2_pos p) <= 53)%Z
  /\ (e = -1074 \/ Z.pos (digits2_pos p) = 53)%Z.
Proof.
  intros (H1 & H2 & H3). rewrite digits2_log2.
  assert (Z.log2 (Z.pos p) < 53)%Z by (apply Z.log2_lt_pow2; lia).
  split; [lia|]. destruct H3 as [H3|H3]; [right|left; exact H3].
  assert (52 <= Z.log2 (Z.pos p))%Z by (apply Z.log2_le_pow2; lia). lia.
Qed.

Theorem mul_SFmul x y : wf x -> wf y -> mul x y = SFmul 53 1024 x y.
Proof.
  intros Wx Wy.
  destruct x as [sx|sx| |sx mx ex], y as [sy|sy| |sy my ey]; try reflexivity.
  apply wf_finite in Wx, Wy.
  rewrite mul_finite. unfold SFmul. rewrite binary_round_aux_round64.
  - apply round64_comp. rewrite !Qabs_Qval, Pos2Z.inj_mul, inject_Z_mult, pow2_add. ring.
  - destruct (canon_digits Wx) as [Dx Nx]. destruct (canon_digits Wy) as [Dy Ny].
    destruct Wx as (_ & Ex & _), Wy as (_ & Ey & _).
    rewrite fexp64, digits2_log2, Pos2Z.inj_mul.
    pose proof (Z.log2_mul_below (Z.pos mx) (Z.pos my) ltac:(lia) ltac:(lia)) as L.
    rewrite !digits2_log2 in *.
    pose proof (Z.log2_nonneg (Z.pos mx)). pose proof (Z.log2_nonneg (Z.pos my)).
    lia.
Qed.

Lemma Qcompare_dyadic m1 e1 m2 e2 : canon m1 e1 -> canon m2 e2 ->
  Qcompare (inject_Z (Z.pos m1) * pow2 e1) (inject_Z (Z.pos m2) * pow2 e2)
  = match Z.compare e1 e2 with
    | Lt => Lt
    | Gt => Gt
    | Eq => Pos.compare m1 m2
    end.
Proof.
  intros C1 C2.
  assert (Less : forall a ea b eb, canon a ea -> canon b eb -> (ea < eb)%Z ->
            inject_Z (Z.pos a) * pow2 ea < inject_Z (Z.pos b) * pow2 eb).
  { intros a ea b eb (A1 & A2 & A3) (B1 & B2 & B3) L.
    apply Qlt_le_trans with (pow2 53 * pow2 ea).
    - apply Qmult_lt_compat_r; [apply pow2_pos|].
      rewrite pow2_Z by lia. rewrite <- Zlt_Qlt. exact A1.
    - apply Qle_trans with (pow2 52 * pow2 eb).
      + rewrite <- !pow2_add. apply pow2_le. lia.
      + apply Qmult_le_compat_r; [|apply Qlt_le_weak, pow2_pos].
        rewrite pow2_Z by lia. rewrite <- Zle_Qle. lia. }
  destruct (Z.compare_spec e1 e2) as [E|L|L].
  - subst e2. pose proof (pow2_pos e1) as Hp.
    destruct (Pos.compare_spec m1 m2) as [E|L|L].
    + subst m2. apply (proj1 (Qeq_alt _ _)). reflexivity.
    + apply (proj1 (Qlt_alt _ _)). apply Qmult_lt_compat_r; [exact Hp|]. rewrite <- Zlt_Qlt. lia.
    + apply (proj1 (Qgt_alt _ _)). apply Qmult_lt_compat_r; [exact Hp|]. rewrite <- Zlt_Qlt. lia.
  - apply (proj1 (Qlt_alt _ _)). apply Less; assumption.
  - apply (proj1 (Qgt_alt _ _)). apply Less; assumption.
Qed.

Theorem compare_SFcompare x y : wf x -> wf y -> compare x y = SFcompare x y.
Proof.
  intros Wx Wy.
  destruct x as [sx|sx| |sx mx ex], y as [sy|sy| |sy my ey]; try reflexivity;
  try (destruct sx, sy; reflexivity).
  - (* zero, finite *)
    unfold compare, SFcompare. f_equal. destruct sy.
    + apply (proj1 (Qgt_alt _ _)). exact (Qval_neg_lt my ey).
    + apply (proj1 (Qlt_alt _ _)). exact (dyadic_pos my ey).
  - (* finite, zero *)
    unfold compare, SFcompare. f_equal. destruct sx.
    + apply (proj1 (Qlt_alt _ _)). exact (Qval_neg_lt mx ex).
    + apply (proj1 (Qgt_alt _ _)). exact (dyadic_pos mx ex).
  - (* finite, finite *)
    apply wf_finite in Wx, Wy.
    unfold compare, SFcompare. f_equal.
    pose proof (dyadic_pos mx ex) as Px. pose proof (dyadic_pos my ey) as Py.
    pose proof (Qval_neg_lt mx ex) as Nx. pose proof (Qval_neg_lt my ey) as Ny.
    destruct sx, sy.
    + assert (E : Qcompare (Qval (S754_finite true mx ex)) (Qval (S754_finite true my ey))
                  = CompOpp (Qcompare (inject_Z (Z.pos mx) * pow2 ex)
                                      (inject_Z (Z.pos my) * pow2 ey))).
      { rewrite Qcompare_antisym.
        assert (V : forall m e, Qval (S754_finite true m e) == - (inject_Z (Z.pos m) * pow2 e)).
        { intros m e. simpl Qval. change (Z.neg m) with (- Z.pos m)%Z.
          rewrite inject_Z_opp. ring. }
        destruct (Qcompare_spec (inject_Z (Z.pos my) * pow2 ey) (inject_Z (Z.pos mx) * pow2 ex))
          as [A|A|A].
        - apply (proj1 (Qeq_alt _ _)). rewrite !V, A. reflexivity.
        - apply (proj1 (Qlt_alt _ _)). rewrite !V. lra.
        - apply (proj1 (Qgt_alt _ _)). rewrite !V. lra. }
      rewrite E, (Qcompare_dyadic Wx Wy).
      destruct (Z.compare ex ey); reflexivity.
    + apply (proj1 (Qlt_alt _ _)). rewrite Qval_finite_pos. lra.
    + apply (proj1 (Qgt_alt _ _)). rewrite Qval_finite_pos. lra.
    + rewrite !Qval_finite_pos, (Qcompare_dyadic Wx Wy).
      destruct (Z.compare ex ey); reflexivity.
Qed.

(** The literals of the program, a sum and a product, against their
    binary64 encodings. *)
Example literal_0_001 : lit 1 3 = S754_finite false 4611686018427388 (-62).
Proof. vm_compute. reflexivity. Qed.

Example literal_0_8 : lit 8 1 = S754_finite false 7205759403792794 (-53).
Proof. vm_compute. reflexivity. Qed.

Example literal_0_99 : lit 99 2 = S754_finite false 8917127262193582 (-53).
Proof. vm_compute. reflexivity. Qed.

Example sum_0_1_0_2 :
  add (lit 1 1) (lit 2 1) = S754_finite false 5404319552844596 (-54)
  /\ add (lit 1 1) (lit 2 1) <> lit 3 1
  /\ fixed 6 (add (lit 1 1) (lit 2 1)) = lit 3 1.
Proof. vm_compute. repeat split. discriminate. Qed.

Example product_0_5_0_99 :
  mul (lit 5 1) (lit 99 2) = S754_finite false 8917127262193582 (-54)
  /\ fixed 2 (mul (lit 5 1) (lit 99 2)) = lit 49 2
  /\ fixed 2 (add (lit 1000 0) (mul (lit 5 1) (lit 99 2))) = lit 10005 1.
Proof. vm_compute. repeat split. Qed.

Example Math_round_halves :
  Math_round (lit 25 1) = lit 3 0
  /\ Math_round (lit 35 1) = lit 4 0
  /\ Math_round (S754_finite true 5 (-1)) = S754_finite true 4503599627370496 (-51).
Proof. vm_compute. repeat split. Qed.

(** *** Sums and differences of decimal amounts *)

(** Closed goals are computed. *)
Ltac calc := vm_compute; reflexivity.

Lemma ltb_leb x y : ltb x y = true -> leb x y = true.
Proof.
  unfold ltb, leb. destruct (compare x y) as [[]|]; intros H;
    first [reflexivity|discriminate H].
Qed.

Lemma ltb_Qval x y : is_nan x = false -> is_inf x = false ->
  is_nan y = false -> is_inf y = false ->
  ltb x y = true <-> Qval x < Qval y.
Proof.
  intros Nx Ix Ny Iy. unfold ltb.
  assert (E : compare x y = Some (Qcompare (Qval x) (Qval y))).
  { destruct x, y; try discriminate; reflexivity. }
  rewrite E. rewrite Qlt_alt.
  destruct (Qcompare (Qval x) (Qval y)); split; intros H;
    first [reflexivity|discriminate H].
Qed.

Lemma same_number_eq x y : same_number x y = true -> x = y.
Proof.
  destruct x as [a|a| |a m e]; destruct y as [b|b| |b n f]; simpl;
    try discriminate; intros H.
  - apply eqb_prop in H. congruence.
  - apply eqb_prop in H. congruence.
  - reflexivity.
  - apply andb_true_iff in H. destruct H as [H H3].
    apply andb_true_iff in H. destruct H as [H1 H2].
    apply eqb_prop in H1. apply Pos.eqb_eq in H2. apply Z.eqb_eq in H3.
    congruence.
Qed.

Lemma Qmult_le_nonneg_l z x y : 0 <= z -> x <= y -> z * x <= z * y.
Proof.
  intros Hz H. rewrite (Qmult_comm z x), (Qmult_comm z y).
  apply Qmult_le_compat_r; assumption.
Qed.

Lemma ilog2_pow2 k : ilog2 (pow2 k) = k.
Proof.
  apply ilog2_unique; [apply Qle_refl|]. apply pow2_lt. lia.
Qed.

Lemma pow2_m51 : pow2 (-51) == 1 # 2251799813685248.
Proof. reflexivity. Qed.

Lemma pow2_m52 : pow2 (-52) == 1 # 4503599627370496.
Proof. reflexivity. Qed.

Lemma pow2_61 : pow2 61 == 2305843009213693952.
Proof. reflexivity. Qed.

Lemma pow2_53 : pow2 53 == 9007199254740992.
Proof. reflexivity. Qed.

(** The relative error of rounding to binary64 in the normal range is at
    most 2^-53. *)
Lemma round64_err q :
  0 <= q -> q <= 1152921504606846976 ->
  q == 0 \/ (1 # 2251799813685248) <= q ->
  let v := Qval (round64 false q) in
  is_inf (round64 false q) = false
  /\ v - q <= q * (1 # 9007199254740992)
  /\ q - v <= q * (1 # 9007199254740992).
Proof.
  intros H0 Hu Hl v.
  destruct (Qlt_le_dec 0 q) as [Hq|Hq].
  2:{ unfold v. rewrite round64_zero by exact Hq.
      assert (E : q == 0) by lra. simpl Qval. split; [reflexivity|]. lra. }
  assert (Hl' : (1 # 2251799813685248) <= q) by (destruct Hl; lra).
  assert (Il : (-51 <= ilog2 q)%Z).
  { rewrite <- (ilog2_pow2 (-51)). apply ilog2_mono; [apply pow2_pos|].
    rewrite pow2_m51. exact Hl'. }
  assert (Re : rexp q = (ilog2 q - 52)%Z) by (unfold rexp; lia).
  destruct (rval_err Hq) as [L U].
  destruct (ilog2_spec Hq) as [P1 _].
  assert (Pe : pow2 (rexp q) == pow2 (ilog2 q) * (1 # 4503599627370496)).
  { rewrite Re. replace (ilog2 q - 52)%Z with (ilog2 q + (-52))%Z by lia.
    rewrite pow2_add, pow2_m52. reflexivity. }
  rewrite Pe in L, U.
  assert (B1 : rval q - q <= q * (1 # 9007199254740992)) by lra.
  assert (B2 : q - rval q <= q * (1 # 9007199254740992)) by lra.
  pose proof (round64_spec false Hq) as S.
  assert (Vy : v == rval q /\ is_inf (round64 false q) = false).
  { unfold v. inversion S as [A E|p e C A E|A E].
    - split; [|reflexivity]. simpl. rewrite A. reflexivity.
    - split; [|reflexivity]. rewrite Qval_finite_pos. exact A.
    - exfalso. assert (pow2 61 < pow2 1024) by (apply pow2_lt; lia).
      rewrite pow2_61 in H. lra. }
  destruct Vy as [Vy Iy]. split; [exact Iy|]. rewrite Vy. split; assumption.
Qed.

(** The same for a difference [x - y] of non-negative numbers, [y <= x]. *)
Lemma sub_value x y :
  wf x -> wf y -> nonneg x -> nonneg y -> is_inf x = false -> is_inf y = false ->
  Qval y <= Qval x ->
  Qval x - Qval y <= 1152921504606846976 ->
  Qval x - Qval y == 0 \/ (1 # 2251799813685248) <= Qval x - Qval y ->
  let v := Qval (sub x y) in
  nonneg (sub x y) /\ is_inf (sub x y) = false
  /\ v - (Qval x - Qval y) <= (Qval x - Qval y) * (1 # 9007199254740992)
  /\ (Qval x - Qval y) - v <= (Qval x - Qval y) * (1 # 9007199254740992).
Proof.
  intros Wx Wy Nx Ny Ix Iy L Du Dl v.
  assert (Ns : nonneg (sub x y)).
  { apply sub_nonneg; try assumption.
    apply leb_Qval; try assumption; apply nonneg_not_nan; assumption. }
  split; [exact Ns|]. unfold v. clear v.
  pose proof (nonneg_inv Nx) as Sx. pose proof (nonneg_inv Ny) as Sy.
  inversion Sx as [sx Ex|px ex Ex|Ex]; subst x;
  inversion Sy as [sy Ey|py ey Ey|Ey]; subst y; try discriminate.
  - destruct sx, sy; simpl; (split; [reflexivity|]); lra.
  - exfalso. pose proof (dyadic_pos py ey) as Hp.
    rewrite Qval_finite_pos in L. simpl in L. lra.
  - cbn [sub]. split; [reflexivity|]. simpl (Qval (S754_zero sy)).
    rewrite Qval_finite_pos in *. pose proof (dyadic_pos px ex). lra.
  - cbn [sub]. rewrite round_exact_nonneg by lra.
    apply round64_err; [lra|assumption..].
Qed.

Lemma finite_of_le x r :
  nonneg x -> leb x r = true -> is_inf r = false -> is_inf x = false.
Proof.
  intros N L I. destruct (is_inf x) eqn:E; [|reflexivity].
  rewrite (is_inf_nonneg N E) in L. apply le_inf_l in L. rewrite L in I.
  discriminate I.
Qed.

Section DecimalSums.

(** Balances kept with [d] decimals, [10^d <= 2^50]. *)
Variable d : Z.
Hypothesis Hd : (0 <= d)%Z.
Hypothesis Hsmall : pow10 d <= 1125899906842624.

Let P := pow10 d.

Lemma pow10_ge_1 : 1 <= P.
Proof.
  unfold P. rewrite pow10_Z by exact Hd.
  change 1 with (inject_Z 1). rewrite <- Zle_Qle.
  assert (0 < 10 ^ d)%Z by (apply Z.pow_pos_nonneg; lia). lia.
Qed.

(** The literal [n / 10^d] as a double lies within a relative error of
    2^-53 of [n / 10^d]. *)
Lemma lit_value n : (0 <= n < 2 ^ 50)%Z ->
  let x := lit n d in
  wf x /\ nonneg x /\ is_inf x = false /\ 0 <= Qval x
  /\ Qval x * P - inject_Z n <= inject_Z n * (1 # 9007199254740992)
  /\ inject_Z n - Qval x * P <= inject_Z n * (1 # 9007199254740992).
Proof.
  intros Hn x. pose proof pow10_ge_1 as P1.
  assert (Pp : 0 < P) by lra.
  set (q := inject_Z n / P).
  assert (Eq : q * P == inject_Z n).
  { unfold q. field. intro Z0. rewrite Z0 in Pp. discriminate. }
  assert (N0 : 0 <= inject_Z n).
  { change 0 with (inject_Z 0). rewrite <- Zle_Qle. lia. }
  assert (N1 : inject_Z n < 1125899906842624).
  { change 1125899906842624 with (inject_Z (2 ^ 50)). rewrite <- Zlt_Qlt. lia. }
  assert (Q0 : 0 <= q).
  { unfold q. apply Qle_shift_div_l; [exact Pp|]. lra. }
  assert (Qu : q <= inject_Z n).
  { unfold q. apply Qle_shift_div_r; [exact Pp|].
    assert (inject_Z n * 1 <= inject_Z n * P) by (apply Qmult_le_nonneg_l; lra).
    lra. }
  assert (Ql : q == 0 \/ (1 # 2251799813685248) <= q).
  { destruct (Z.eq_dec n 0) as [->|Hn0].
    - left. unfold q, Qdiv. ring.
    - right. unfold q. apply Qle_shift_div_l; [exact Pp|].
      assert (1 <= inject_Z n).
      { change 1 with (inject_Z 1). rewrite <- Zle_Qle. lia. }
      assert ((1 # 2251799813685248) * P <= (1 # 2251799813685248) * 1125899906842624)
        by (apply Qmult_le_nonneg_l; [lra|exact Hsmall]).
      lra. }
  assert (Qb : q <= 1152921504606846976) by lra.
  destruct (@round64_err q Q0 Qb Ql) as (I & B1 & B2).
  change (round64 false q) with x in I, B1, B2.
  split; [apply round64_wf|]. split; [apply round64_nonneg|].
  split; [exact I|].
  assert (X0 : 0 <= Qval x) by (apply Qval_nonneg, round64_nonneg).
  split; [exact X0|].
  assert (S1 : (Qval x - q) * P <= q * (1 # 9007199254740992) * P)
    by (apply Qmult_le_compat_r; lra).
  assert (S2 : (q - Qval x) * P <= q * (1 # 9007199254740992) * P)
    by (apply Qmult_le_compat_r; lra).
  assert (E1 : (Qval x - q) * P == Qval x * P - inject_Z n) by (rewrite <- Eq; ring).
  assert (E2 : (q - Qval x) * P == inject_Z n - Qval x * P) by (rewrite <- Eq; ring).
  assert (E3 : q * (1 # 9007199254740992) * P == inject_Z n * (1 # 9007199254740992))
    by (rewrite <- Eq; ring).
  split; lra.
Qed.


(** A number within half a unit of the [d]-th decimal of [n / 10^d] is
    rounded to [n / 10^d] by [toFixed(d)]. *)
Lemma fixed_of_value x n :
  wf x -> nonneg x -> is_inf x = false -> (0 <= n < 2 ^ 51)%Z ->
  Qval x * P - inject_Z n < 1 # 2 -> inject_Z n - Qval x * P <= 1 # 2 ->
  fixed d x = lit n d.
Proof.
  intros W N I Hn B1 B2. pose proof pow10_ge_1 as P1.
  assert (X0 : 0 <= Qval x) by (apply Qval_nonneg, N).
  assert (N1 : inject_Z n < 2251799813685248).
  { change 2251799813685248 with (inject_Z (2 ^ 51)). rewrite <- Zlt_Qlt. lia. }
  assert (Xp : Qval x * 1 <= Qval x * P) by (apply Qmult_le_nonneg_l; lra).
  rewrite fixed_small; [|exact N|exact I|].
  - unfold decimal_round, lit. fold P.
    rewrite (@Qfloor_unique (Qval x * P + (1 # 2)) n); [reflexivity|lra|lra].
  - pose proof pow10_21_gt as G. rewrite pow2_53 in G. lra.
Qed.

(** The sum and the difference of two amounts with [d] decimals, rounded
    to [d] decimals, are the amounts of the exact sum and difference. *)
Lemma fixed_add_lit a b :
  (0 <= a)%Z -> (0 <= b)%Z -> (a + b < 2 ^ 50)%Z ->
  fixed d (add (lit a d) (lit b d)) = lit (a + b) d.
Proof.
  intros Ha Hb Hab. pose proof pow10_ge_1 as P1.
  destruct (@lit_value a ltac:(lia)) as (Wx & Nx & Ix & X0 & Ax1 & Ax2).
  destruct (@lit_value b ltac:(lia)) as (Wy & Ny & Iy & Y0 & Ay1 & Ay2).
  set (x := lit a d) in *. set (y := lit b d) in *.
  assert (A0 : 0 <= inject_Z a).
  { change 0 with (inject_Z 0). rewrite <- Zle_Qle. lia. }
  assert (B0 : 0 <= inject_Z b).
  { change 0 with (inject_Z 0). rewrite <- Zle_Qle. lia. }
  assert (AB : inject_Z a + inject_Z b < 1125899906842624).
  { rewrite <- inject_Z_plus.
    change 1125899906842624 with (inject_Z (2 ^ 50)). rewrite <- Zlt_Qlt. lia. }
  assert (Xp : Qval x * 1 <= Qval x * P) by (apply Qmult_le_nonneg_l; lra).
  assert (Yp : Qval y * 1 <= Qval y * P) by (apply Qmult_le_nonneg_l; lra).
  set (S := Qval x + Qval y).
  assert (S0 : 0 <= S) by (unfold S; lra).
  assert (Sl : S == 0 \/ (1 # 2251799813685248) <= S).
  { destruct (Z.eq_dec (a + b) 0) as [E|E].
    - left. assert (a = 0)%Z by lia. assert (b = 0)%Z by lia. subst a b.
      change (inject_Z 0) with 0 in *. unfold S. lra.
    - right.
      assert (1 <= inject_Z a + inject_Z b).
      { rewrite <- inject_Z_plus. change 1 with (inject_Z 1).
        rewrite <- Zle_Qle. lia. }
      assert (S * P <= S * 1125899906842624)
        by (apply Qmult_le_nonneg_l; [exact S0|exact Hsmall]).
      assert (S * P == Qval x * P + Qval y * P) by (unfold S; ring).
      lra. }
  assert (Su : S <= 1152921504606846976) by (unfold S; lra).
  destruct (@round64_err S S0 Su Sl) as (Ir & R1 & R2).
  destruct (@add_round x y Nx Ny Wx Wy Ix Iy) as [L1 L2]. fold S in L1, L2.
  set (r := round64 false S) in *.
  assert (Ns : nonneg (add x y)) by (apply add_nonneg; assumption).
  assert (Ws : wf (add x y)) by (apply add_wf; assumption).
  assert (Is : is_inf (add x y) = false) by (eapply finite_of_le; eassumption).
  assert (V : Qval (add x y) == Qval r).
  { apply Qle_antisym; apply leb_Qval; try assumption;
      try (apply nonneg_not_nan; assumption);
      apply nonneg_not_nan, round64_nonneg. }
  set (v := Qval (add x y)) in *.
  assert (T1 : (Qval r - S) * P <= S * (1 # 9007199254740992) * P)
    by (apply Qmult_le_compat_r; lra).
  assert (T2 : (S - Qval r) * P <= S * (1 # 9007199254740992) * P)
    by (apply Qmult_le_compat_r; lra).
  assert (E1 : (Qval r - S) * P == v * P - (Qval x * P + Qval y * P))
    by (rewrite V; unfold S; ring).
  assert (E2 : (S - Qval r) * P == (Qval x * P + Qval y * P) - v * P)
    by (rewrite V; unfold S; ring).
  assert (E3 : S * (1 # 9007199254740992) * P
               == (Qval x * P + Qval y * P) * (1 # 9007199254740992))
    by (unfold S; ring).
  apply fixed_of_value; try assumption; try lia.
  - rewrite inject_Z_plus. fold v. lra.
  - rewrite inject_Z_plus. fold v. lra.
Qed.


Lemma fixed_sub_lit a b :
  (0 <= b <= a)%Z -> (a < 2 ^ 50)%Z ->
  fixed d (sub (lit a d) (lit b d)) = lit (a - b) d.
Proof.
  intros Hb Ha. pose proof pow10_ge_1 as P1.
  destruct (@lit_value a ltac:(lia)) as (Wx & Nx & Ix & X0 & Ax1 & Ax2).
  destruct (@lit_value b ltac:(lia)) as (Wy & Ny & Iy & Y0 & Ay1 & Ay2).
  assert (A0 : 0 <= inject_Z a).
  { change 0 with (inject_Z 0). rewrite <- Zle_Qle. lia. }
  assert (B0 : 0 <= inject_Z b).
  { change 0 with (inject_Z 0). rewrite <- Zle_Qle. lia. }
  assert (A1 : inject_Z a < 1125899906842624).
  { change 1125899906842624 with (inject_Z (2 ^ 50)). rewrite <- Zlt_Qlt. lia. }
  assert (BA : inject_Z b <= inject_Z a) by (rewrite <- Zle_Qle; lia).
  destruct (Z.eq_dec a b) as [->|Hne].
  { (* equal amounts: the difference is an exact zero *)
    replace (b - b)%Z with 0%Z by lia.
    assert (H1 : Qval (lit b d) <= Qval (lit b d)) by lra.
    assert (H2 : Qval (lit b d) - Qval (lit b d) <= 1152921504606846976) by lra.
    assert (H3 : Qval (lit b d) - Qval (lit b d) == 0
                 \/ (1 # 2251799813685248) <= Qval (lit b d) - Qval (lit b d))
      by (left; lra).
    destruct (@sub_value (lit b d) (lit b d) Wx Wx Nx Nx Ix Ix H1 H2 H3)
      as (Ns & Is & V1 & V2).
    apply fixed_of_value; try assumption; try lia.
    - apply sub_wf; assumption.
    - change (inject_Z 0) with 0.
      assert (Qval (sub (lit b d) (lit b d)) <= 0) by lra.
      assert (Qval (sub (lit b d) (lit b d)) * P <= 0 * P)
        by (apply Qmult_le_compat_r; lra).
      lra.
    - change (inject_Z 0) with 0.
      assert (0 <= Qval (sub (lit b d) (lit b d))) by (apply Qval_nonneg, Ns).
      assert (0 * P <= Qval (sub (lit b d) (lit b d)) * P)
        by (apply Qmult_le_compat_r; lra).
      lra. }
  set (x := lit a d) in *. set (y := lit b d) in *.
  assert (AB1 : 1 <= inject_Z a - inject_Z b).
  { unfold Qminus. rewrite <- inject_Z_opp, <- inject_Z_plus.
    change 1 with (inject_Z 1). rewrite <- Zle_Qle. lia. }
  set (D := Qval x - Qval y).
  assert (DP : D * P == Qval x * P - Qval y * P) by (unfold D; ring).
  assert (Dpos : 0 < D).
  { destruct (Qlt_le_dec 0 D) as [H|H]; [exact H|exfalso].
    assert (D * P <= 0 * P) by (apply Qmult_le_compat_r; lra). lra. }
  assert (Dp : D * 1 <= D * P) by (apply Qmult_le_nonneg_l; lra).
  assert (Dq : D * P <= D * 1125899906842624)
    by (apply Qmult_le_nonneg_l; [lra|exact Hsmall]).
  assert (H1 : Qval y <= Qval x) by (unfold D in Dpos; lra).
  assert (H2 : Qval x - Qval y <= 1152921504606846976) by (fold D; lra).
  assert (H3 : Qval x - Qval y == 0 \/ (1 # 2251799813685248) <= Qval x - Qval y)
    by (right; fold D; lra).
  destruct (@sub_value x y Wx Wy Nx Ny Ix Iy H1 H2 H3) as (Ns & Is & V1 & V2).
  fold D in V1, V2.
  set (v := Qval (sub x y)) in *.
  assert (T1 : (v - D) * P <= D * (1 # 9007199254740992) * P)
    by (apply Qmult_le_compat_r; lra).
  assert (T2 : (D - v) * P <= D * (1 # 9007199254740992) * P)
    by (apply Qmult_le_compat_r; lra).
  assert (E1 : (v - D) * P == v * P - D * P) by ring.
  assert (E2 : (D - v) * P == D * P - v * P) by ring.
  assert (E3 : D * (1 # 9007199254740992) * P == D * P * (1 # 9007199254740992))
    by ring.
  apply fixed_of_value; try assumption; try lia.
  - apply sub_wf; assumption.
  - unfold Zminus. rewrite inject_Z_plus, inject_Z_opp. fold v. lra.
  - unfold Zminus. rewrite inject_Z_plus, inject_Z_opp. fold v. lra.
Qed.

End DecimalSums.

Lemma fixed3_add_lit a b : (0 <= a)%Z -> (0 <= b)%Z -> (a + b < 2 ^ 50)%Z ->
  fixed 3 (add (lit a 3) (lit b 3)) = lit (a + b) 3.
Proof. apply fixed_add_lit; [lia|vm_compute; discriminate]. Qed.

Lemma fixed6_add_lit a b : (0 <= a)%Z -> (0 <= b)%Z -> (a + b < 2 ^ 50)%Z ->
  fixed 6 (add (lit a 6) (lit b 6)) = lit (a + b) 6.
Proof. apply fixed_add_lit; [lia|vm_compute; discriminate]. Qed.

Lemma fixed6_sub_lit a b : (0 <= b <= a)%Z -> (a < 2 ^ 50)%Z ->
  fixed 6 (sub (lit a 6) (lit b 6)) = lit (a - b) 6.
Proof. apply fixed_sub_lit; [lia|vm_compute; discriminate]. Qed.

Lemma lit_mono d a b : (0 <= d)%Z -> (a <= b)%Z -> leb (lit a d) (lit b d) = true.
Proof.
  intros Hd H. unfold lit. apply round64_mono.
  unfold Qdiv. apply Qmult_le_compat_r.
  - rewrite <- Zle_Qle. exact H.
  - apply Qlt_le_weak, Qinv_lt_0_compat, pow10_pos.
Qed.

Lemma fixed6_lit n : (0 <= n)%Z -> fixed 6 (lit n 6) = lit n 6.
Proof.
  intros Hn. apply (@round64_decimal_fixpoint 6 (-20)); try lia; reflexivity.
Qed.

(** The integers up to 1001 are binary64 values. *)
Lemma int_table :
  forallb (fun k => Qeq_bool (Qval (round64 false (inject_Z k))) (inject_Z k))
    (map Z.of_nat (seq 0 1002)) = true.
Proof. vm_compute. reflexivity. Qed.

Lemma round64_small_int k : (0 <= k <= 1001)%Z ->
  Qval (round64 false (inject_Z k)) == inject_Z k.
Proof.
  intros Hk. pose proof int_table as T. rewrite forallb_forall in T.
  apply Qeq_bool_eq. apply T. apply in_map_iff. exists (Z.to_nat k).
  split; [lia|]. apply in_seq. lia.
Qed.

End NumFacts.

(** ** Facts about texts *)

Module TextFacts.

Import GreenPe.
Local Open Scope string_scope.

Lemma chars_step c l :
  chars (c :: l)
  = match chars l with
    | (d, ch) :: rest =>
        if is_continuation d then (c, d :: ch) :: rest
        else (c, []) :: (d, ch) :: rest
    | [] => [(c, [])]
    end.
Proof. reflexivity. Qed.

Lemma chars_head c l : exists ch rest, chars (c :: l) = (c, ch) :: rest.
Proof.
  rewrite chars_step. destruct (chars l) as [|[d ch] rest];
    [eexists; eexists; reflexivity|].
  destruct (is_continuation d); eexists; eexists; reflexivity.
Qed.

Lemma chars_cons c l : starts_char l -> chars (c :: l) = (c, []) :: chars l.
Proof.
  destruct l as [|d l]; [reflexivity|]. intros H.
  destruct (chars_head d l) as (ch & rest & E).
  rewrite chars_step, E. simpl in H. rewrite H. reflexivity.
Qed.

Lemma chars_chunk r : forall c l,
  forallb is_continuation r = true -> starts_char l ->
  chars (c :: r ++ l) = (c, r) :: chars l.
Proof.
  induction r as [|d r IH]; intros c l Hr Hl.
  - apply chars_cons. exact Hl.
  - simpl in Hr. apply andb_prop in Hr. destruct Hr as [Hd Hr].
    change (c :: (d :: r) ++ l)%list with (c :: d :: r ++ l)%list.
    rewrite chars_step, (IH d l Hr Hl), Hd. reflexivity.
Qed.

Lemma chars_app p : forall l, starts_char l -> chars (p ++ l) = (chars p ++ chars l)%list.
Proof.
  induction p as [|a p IH]; intros l Hl; [reflexivity|].
  change ((a :: p) ++ l)%list with (a :: p ++ l)%list.
  rewrite chars_step, (IH l Hl).
  destruct p as [|b p].
  - simpl. destruct l as [|d l]; [reflexivity|].
    destruct (chars_head d l) as (ch & rest & E). rewrite E.
    simpl in Hl. rewrite Hl. reflexivity.
  - destruct (chars_head b p) as (ch & rest & E).
    rewrite (chars_step a (b :: p)), E. simpl.
    destruct (is_continuation b); reflexivity.
Qed.

Lemma bytes_of_chars l : flat_map bytes_of (chars l) = l.
Proof.
  induction l as [|c l IH]; [reflexivity|]. rewrite chars_step.
  destruct (chars l) as [|[d ch] rest]; [simpl in *; rewrite <- IH; reflexivity|].
  destruct (is_continuation d); simpl in *; rewrite <- IH; reflexivity.
Qed.

Definition proper (cs : list character) : Prop :=
  Forall (fun ch => forallb is_continuation (snd ch) = true) cs
  /\ Forall (fun ch => is_continuation (fst ch) = false) (tl cs).

Lemma proper_tail ch cs : proper (ch :: cs) -> proper cs.
Proof.
  intros [A B]. split; [inversion A; assumption|].
  simpl in B. destruct cs as [|x cs]; [constructor|]. inversion B; assumption.
Qed.

Lemma chars_proper l : proper (chars l).
Proof.
  induction l as [|c l IH]; [split; constructor|]. rewrite chars_step.
  destruct (chars l) as [|[d ch] rest]; [split; repeat constructor|].
  destruct IH as [A B]. inversion A as [|x y A1 A2]; subst. simpl in A1, B.
  destruct (is_continuation d) eqn:E.
  - split; [constructor; [simpl; rewrite E; exact A1|exact A2]|exact B].
  - split; [constructor; [reflexivity|exact A]|].
    simpl. constructor; [exact E|exact B].
Qed.

Lemma chars_of_proper cs : proper cs -> chars (flat_map bytes_of cs) = cs.
Proof.
  induction cs as [|[c r] cs IH]; intros P; [reflexivity|].
  change (flat_map bytes_of ((c, r) :: cs)) with (c :: r ++ flat_map bytes_of cs)%list.
  rewrite chars_chunk.
  - rewrite (IH (proper_tail P)). reflexivity.
  - destruct P as [A _]. inversion A; assumption.
  - destruct P as [_ B]. simpl in B. destruct cs as [|[d r'] cs]; [exact I|].
    inversion B; subst. assumption.
Qed.

Lemma units_of_pos ch : (1 <= units_of ch)%nat.
Proof. unfold units_of. destruct (240 <=? _)%nat; lia. Qed.

Lemma units_of_le ch : (units_of ch <= 2)%nat.
Proof. unfold units_of. destruct (240 <=? _)%nat; lia. Qed.

Lemma count_units_cons ch cs : count_units (ch :: cs) = (units_of ch + count_units cs)%nat.
Proof. reflexivity. Qed.

Lemma count_units_app a b : count_units (a ++ b) = (count_units a + count_units b)%nat.
Proof. unfold count_units. rewrite map_app, list_sum_app. reflexivity. Qed.

Lemma low_surrogate_proper ch :
  forallb is_continuation (snd ch) = true ->
  forallb is_continuation (snd (low_surrogate ch)) = true
  /\ is_continuation (fst (low_surrogate ch)) = false
  /\ units_of (low_surrogate ch) = 1%nat.
Proof.
  intros H. unfold low_surrogate.
  destruct (snd ch) as [|b1 [|b2 [|b3 [|b4 r]]]]; try (repeat split; reflexivity).
  simpl in H. apply andb_prop in H. destruct H as [_ H].
  apply andb_prop in H. destruct H as [_ H]. apply andb_prop in H. destruct H as [H _].
  split; [|split; reflexivity].
  cbn [snd forallb]. rewrite H, andb_true_r.
  destruct b2 as [[] [] [] [] [] [] [] []]; reflexivity.
Qed.

Lemma drop_units_zero cs : drop_units 0 cs = cs.
Proof. destruct cs; reflexivity. Qed.

Lemma drop_units_cons d ch rest :
  drop_units d (ch :: rest)
  = if (d =? 0)%nat then ch :: rest
    else if (units_of ch <=? d)%nat then drop_units (d - units_of ch) rest
         else low_surrogate ch :: rest.
Proof. reflexivity. Qed.

Lemma drop_units_proper cs : forall d, proper cs -> proper (drop_units d cs).
Proof.
  induction cs as [|ch cs IH]; intros d P; [exact P|]. rewrite drop_units_cons.
  destruct (d =? 0)%nat; [exact P|].
  destruct (units_of ch <=? d)%nat; [apply IH, (proper_tail P)|].
  destruct P as [A B]. inversion A as [|x y A1 A2]; subst.
  destruct (low_surrogate_proper ch A1) as (L1 & _ & _).
  split; [constructor; assumption|exact B].
Qed.

Lemma drop_units_count cs : forall d,
  proper cs -> count_units (drop_units d cs) = (count_units cs - d)%nat.
Proof.
  induction cs as [|ch cs IH]; intros d P; [reflexivity|]. rewrite drop_units_cons.
  destruct (Nat.eqb_spec d 0) as [->|D]; [rewrite Nat.sub_0_r; reflexivity|].
  rewrite count_units_cons.
  destruct (Nat.leb_spec (units_of ch) d) as [L|L].
  - rewrite (IH _ (proper_tail P)). lia.
  - destruct P as [A _]. inversion A as [|x y A1 A2]; subst.
    destruct (low_surrogate_proper ch A1) as (_ & _ & U).
    rewrite count_units_cons, U. pose proof (units_of_le ch). lia.
Qed.

Lemma drop_units_prefix cp : forall ct,
  drop_units (count_units cp) (cp ++ ct) = ct.
Proof.
  induction cp as [|ch cp IH]; intros ct; [apply drop_units_zero|].
  rewrite count_units_cons, <- app_comm_cons, drop_units_cons.
  pose proof (units_of_pos ch) as U.
  destruct (Nat.eqb_spec (units_of ch + count_units cp) 0) as [E|_]; [lia|].
  destruct (Nat.leb_spec (units_of ch) (units_of ch + count_units cp)) as [_|L]; [|lia].
  replace (units_of ch + count_units cp - units_of ch)%nat with (count_units cp) by lia.
  apply IH.
Qed.

Lemma drop_units_split cp : forall ch ct, units_of ch = 2%nat ->
  drop_units (S (count_units cp)) (cp ++ ch :: ct) = low_surrogate ch :: ct.
Proof.
  induction cp as [|c cp IH]; intros ch ct H.
  - simpl. rewrite H. reflexivity.
  - rewrite count_units_cons, <- app_comm_cons, drop_units_cons.
    change (S (units_of c + count_units cp) =? 0)%nat with false. cbv iota.
    destruct (Nat.leb_spec (units_of c) (S (units_of c + count_units cp))) as [_|L]; [|lia].
    replace (S (units_of c + count_units cp) - units_of c)%nat
      with (S (count_units cp)) by lia.
    apply IH. exact H.
Qed.

Lemma list_ascii_app a b :
  list_ascii_of_string (a ++ b) = (list_ascii_of_string a ++ list_ascii_of_string b)%list.
Proof. induction a as [|c a IH]; [reflexivity|]. simpl. rewrite IH. reflexivity. Qed.

Lemma units_last4 t : units (last4 t) = Nat.min (units t) 4.
Proof.
  unfold units, last4. rewrite list_ascii_of_string_of_list_ascii.
  set (cs := chars (list_ascii_of_string t)).
  assert (P : proper cs) by apply chars_proper.
  rewrite (@chars_of_proper _ (@drop_units_proper cs (count_units cs - 4) P)).
  rewrite (@drop_units_count cs _ P). lia.
Qed.

Lemma last4_short t : (units t <= 4)%nat -> last4 t = t.
Proof.
  unfold units, last4. intros H.
  replace (count_units (chars (list_ascii_of_string t)) - 4)%nat with 0%nat by lia.
  rewrite drop_units_zero, bytes_of_chars. apply string_of_list_ascii_of_string.
Qed.

Lemma last4_suffix p t : starts_character t -> units t = 4%nat -> last4 (p ++ t) = t.
Proof.
  unfold units, last4. intros Hs H.
  rewrite list_ascii_app, (@chars_app _ _ Hs).
  rewrite count_units_app, H.
  replace (count_units (chars (list_ascii_of_string p)) + 4 - 4)%nat
    with (count_units (chars (list_ascii_of_string p))) by lia.
  rewrite drop_units_prefix, bytes_of_chars. apply string_of_list_ascii_of_string.
Qed.

Lemma last4_split p l b1 b2 b3 t :
  (240 <= Ascii.nat_of_ascii l)%nat ->
  is_continuation b1 = true -> is_continuation b2 = true -> is_continuation b3 = true ->
  starts_character t -> units t = 3%nat ->
  last4 (p ++ String l (String b1 (String b2 (String b3 t))))
  = String (Ascii.ascii_of_nat 237)
      (String (Ascii.ascii_of_nat (176 + Ascii.nat_of_ascii b2 mod 16)) (String b3 t)).
Proof.
  intros Hl H1 H2 H3 Hs H. unfold units in H. unfold last4.
  assert (Nl : is_continuation l = false).
  { unfold is_continuation. apply andb_false_iff. right. apply Nat.ltb_ge. lia. }
  rewrite list_ascii_app,
    (@chars_app _ (list_ascii_of_string (String l (String b1 (String b2 (String b3 t))))) Nl).
  change (list_ascii_of_string (String l (String b1 (String b2 (String b3 t)))))
    with (l :: [b1; b2; b3] ++ list_ascii_of_string t)%list.
  rewrite (@chars_chunk [b1; b2; b3] l (list_ascii_of_string t)).
  2:{ simpl. rewrite H1, H2, H3. reflexivity. }
  2:{ exact Hs. }
  rewrite count_units_app, count_units_cons, H.
  assert (U : units_of (l, [b1; b2; b3]) = 2%nat).
  { unfold units_of. cbn [fst]. destruct (Nat.leb_spec 240 (Ascii.nat_of_ascii l)); [reflexivity|lia]. }
  rewrite U.
  replace (count_units (chars (list_ascii_of_string p)) + (2 + 3) - 4)%nat
    with (S (count_units (chars (list_ascii_of_string p)))) by lia.
  rewrite (@drop_units_split _ _ _ U).
  change (flat_map bytes_of (low_surrogate (l, [b1; b2; b3]) :: chars (list_ascii_of_string t)))
    with (Ascii.ascii_of_nat 237 :: Ascii.ascii_of_nat (176 + Ascii.nat_of_ascii b2 mod 16) :: b3
          :: flat_map bytes_of (chars (list_ascii_of_string t)))%list.
  rewrite bytes_of_chars. cbn [string_of_list_ascii].
  rewrite string_of_list_ascii_of_string. reflexivity.
Qed.

Lemma units_ascii t :
  Forall (fun c => (Ascii.nat_of_ascii c < 128)%nat) (list_ascii_of_string t) ->
  units t = String.length t.
Proof.
  unfold units. induction t as [|c t IH]; intros H; [reflexivity|].
  inversion H as [|x y Hc Ht]; subst. simpl list_ascii_of_string.
  rewrite chars_cons.
  - rewrite count_units_cons, (IH Ht). unfold units_of. cbn [fst].
    destruct (Nat.leb_spec 240 (Ascii.nat_of_ascii c)); [lia|reflexivity].
  - destruct t as [|d t]; [exact I|]. inversion Ht; subst. simpl.
    unfold is_continuation. apply andb_false_iff. left. apply Nat.leb_gt. assumption.
Qed.

End TextFacts.

(** ** Facts about the handlers *)

Module GreenPeFacts.

Import Num NumFacts GreenPe.
Local Open Scope string_scope.
Local Open Scope Q_scope.

Lemma filter_other_ids (o : Order) (l : list Order) x :
  In x (filter (fun y => negb (String.eqb (id y) (id o))) l) -> id x <> id o.
Proof.
  intros H. apply filter_In in H. destruct H as [_ H].
  apply negb_true_iff in H. apply String.eqb_neq. exact H.
Qed.

Lemma is_amount_zero3 : is_amount 3 zero.
Proof. repeat split. Qed.

Lemma is_amount_zero6 : is_amount 6 zero.
Proof. repeat split. Qed.

Lemma is_amount_fixed3 x : wf x -> nonneg x -> is_amount 3 (fixed 3 x).
Proof.
  intros W H. split; [apply fixed_wf, W|]. split; [apply fixed_nonneg, H|].
  rewrite <- fixed_round_dp by (try lia; apply fixed_wf, W).
  apply fixed3_idempotent, H.
Qed.

Lemma is_amount_fixed6 x : wf x -> nonneg x -> is_amount 6 (fixed 6 x).
Proof.
  intros W H. split; [apply fixed_wf, W|]. split; [apply fixed_nonneg, H|].
  rewrite <- fixed_round_dp by (try lia; apply fixed_wf, W).
  apply fixed6_idempotent, H.
Qed.

Lemma is_amount_fixed d x : (0 <= d)%Z -> is_amount d x -> fixed d x = x.
Proof. intros Hd (W & _ & E). rewrite fixed_round_dp by assumption. exact E. Qed.

Lemma pos_n_0_001 : pos_finite n_0_001. Proof. exact I. Qed.

Lemma pos_n_0_8 : pos_finite n_0_8. Proof. exact I. Qed.

Lemma pos_n_1_1 : pos_finite n_1_1. Proof. exact I. Qed.

Lemma pos_n_200 : pos_finite n_200. Proof. exact I. Qed.

Lemma pos_n_50 : pos_finite n_50. Proof. exact I. Qed.

Lemma tick_ok u : nonneg u -> wf (tick_of u) /\ nonneg (tick_of u).
Proof.
  intros H. unfold tick_of. split.
  - apply fixed_wf, add_wf; [apply mul_wf|reflexivity].
  - apply fixed_nonneg, add_nonneg; [|reflexivity].
    apply mul_nonneg_const; [exact pos_n_1_1|exact H].
Qed.

Lemma mint_rec_ok kwh r : nonneg kwh -> is_amount 6 r ->
  is_amount 6 (fixed 6 (add r (fixed 6 (mul kwh n_0_001)))).
Proof.
  intros Hk (W & H & _). apply is_amount_fixed6.
  - apply add_wf; [exact W|]. apply fixed_wf, mul_wf.
  - apply add_nonneg; [exact H|]. apply fixed_nonneg.
    apply mul_nonneg_const; [exact pos_n_0_001|exact Hk].
Qed.

Lemma mint_carbon_ok kwh c : nonneg kwh -> is_amount 3 c ->
  is_amount 3 (fixed 3 (add c (fixed 3 (mul kwh n_0_8)))).
Proof.
  intros Hk (W & H & _). apply is_amount_fixed3.
  - apply add_wf; [exact W|]. apply fixed_wf, mul_wf.
  - apply add_nonneg; [exact H|]. apply fixed_nonneg.
    apply mul_nonneg_const; [exact pos_n_0_8|exact Hk].
Qed.

Lemma grow_ge d x y : (0 <= d)%Z -> is_amount d x -> wf y -> nonneg y ->
  leb x (fixed d (add x y)) = true.
Proof.
  intros Hd A Wy Hy. pose proof (is_amount_fixed Hd A) as E.
  destruct A as (W & H & _).
  rewrite <- E at 1. apply fixed_mono; try assumption.
  - apply add_wf; assumption.
  - apply add_ge_l; assumption.
Qed.

(** The debit of a successful placeSellOrder *)
Lemma debit_le_balance p r : is_amount 6 r -> input_cell_ok p ->
  leb p zero = false -> gtb p r = false ->
  nonneg p /\ leb (fixed 6 p) r = true /\ is_amount 6 (fixed 6 (sub r (fixed 6 p))).
Proof.
  intros A (Wp & Np & Ip) L G.
  pose proof (is_amount_fixed (d := 6) ltac:(lia) A) as E.
  destruct A as (W & H & _).
  assert (Hp : nonneg p) by (apply leb_false_nonneg; assumption).
  assert (Lpr : leb p r = true).
  { apply gtb_false_le; try assumption. apply nonneg_not_nan, H. }
  assert (Lf : leb (fixed 6 p) r = true).
  { rewrite <- E. apply fixed_mono; try assumption. lia. }
  split; [exact Hp|]. split; [exact Lf|].
  apply is_amount_fixed6.
  - apply sub_wf; [exact W|apply fixed_wf, Wp].
  - apply sub_nonneg; try assumption.
    + apply fixed_nonneg, Hp.
    + apply fixed_finite; [lia|exact Hp|exact Ip].
Qed.

Lemma Forall_remove_nth {A} (P : A -> Prop) k l : Forall P l -> Forall P (remove_nth k l).
Proof.
  intros H. unfold remove_nth. apply Forall_app. split.
  - apply Forall_forall. intros x Hx. rewrite Forall_forall in H. apply H.
    rewrite <- (firstn_skipn k l). apply in_or_app. left. exact Hx.
  - apply Forall_forall. intros x Hx. rewrite Forall_forall in H. apply H.
    rewrite <- (firstn_skipn (S k) l). apply in_or_app. right. exact Hx.
Qed.

Ltac proj :=
  cbn [step run with_app app timers fst snd scheduled flat_map List.app
       kwhTotal carbonKg recBalance placeRECs orders tradeHistory inrBalance
       user gics greenScore placePrice lastReading isMeterRunning showOnboard
       setUser setShowOnboard setKwhTotal setLastReading setIsMeterRunning
       setRecBalance setCarbonKg setInrBalance setOrders setTradeHistory
       setPlacePrice setPlaceRECs setGics setGreenScore
       handleOnboard resetMeter meterTick mintTokensForKwh simulateSubsidy
       generateGIC buyOrder settle s_order rec].

Ltac same := repeat first [assumption | split].

Lemma ledger_ok_mounted now : ledger_ok (mounted now).
Proof.
  unfold ledger_ok, mounted, seedOrders, initial. proj.
  split; [exact is_amount_zero3|]. split; [exact is_amount_zero3|].
  split; [exact is_amount_zero6|]. split; [repeat split|].
  split; [|constructor].
  repeat constructor.
Qed.

Lemma ledger_ok_step ev sys : ledger_ok sys -> input_ok ev -> ledger_ok (step ev sys).
Proof.
  intros (Hk & Hc & Hr & Hp & Ho & Ht) Hin.
  destruct ev as [a b c|b| | | | |u|v|v|now|now k|k|now| | ].
  - (* onboard *)
    unfold ledger_ok. proj. rewrite app_nil_r. same.
  - unfold ledger_ok. proj. same.
  - unfold ledger_ok. proj. same.
  - unfold ledger_ok. proj. same.
  - unfold ledger_ok. proj. same.
  - (* reset *)
    unfold ledger_ok. proj.
    split; [exact is_amount_zero3|]. split; [exact is_amount_zero3|].
    split; [exact is_amount_zero6|]. same.
  - (* tick *)
    destruct Hin as (Wu & Hu & _).
    unfold step. destruct (isMeterRunning (app sys));
      [|unfold ledger_ok; same].
    destruct (tick_ok Hu) as [Wt Nt]. unfold tick_of in Wt, Nt.
    unfold ledger_ok. proj.
    split; [|split; [|split; [|split; [|split]]]]; try assumption.
    + destruct Hk as (W & H & _). apply is_amount_fixed3.
      * apply add_wf; assumption.
      * apply add_nonneg; assumption.
    + apply mint_carbon_ok; assumption.
    + apply mint_rec_ok; assumption.
  - (* the REC amount input *)
    unfold ledger_ok. proj. same; apply Hin.
  - unfold ledger_ok. proj. same.
  - (* place sell order *)
    unfold step, placeSellOrder.
    destruct (user (app sys)) as [u|];
      [|unfold ledger_ok; proj; rewrite app_nil_r; same].
    destruct (leb (placeRECs (app sys)) zero) eqn:L; cbn [orb];
      [unfold ledger_ok; proj; rewrite app_nil_r; same|].
    destruct (gtb (placeRECs (app sys)) (recBalance (app sys))) eqn:G;
      [unfold ledger_ok; proj; rewrite app_nil_r; same|].
    destruct (debit_le_balance Hr Hp L G) as (Np & _ & A).
    unfold ledger_ok. proj. rewrite app_nil_r.
    split; [|split; [|split; [|split; [|split]]]]; try assumption.
    constructor; [|assumption]. split; cbn [rec].
    + apply fixed_wf, Hp.
    + apply fixed_nonneg, Np.
  - (* buy *)
    unfold step. destruct (nth_error (orders (app sys)) k) as [o|] eqn:E;
      [|unfold ledger_ok; same].
    unfold ledger_ok. proj.
    split; [|split; [|split; [|split; [|split]]]]; try assumption.
    + apply Forall_forall. intros x Hx. apply filter_In in Hx.
      rewrite Forall_forall in Ho. apply Ho, Hx.
    + apply Forall_app. split; [assumption|]. constructor; [|constructor].
      cbn [s_order]. rewrite Forall_forall in Ho. apply Ho.
      eapply nth_error_In. exact E.
  - (* settlement *)
    unfold step. destruct (nth_error (timers sys) k) as [cb|] eqn:E;
      [|unfold ledger_ok; same].
    assert (Hcb : order_ok (s_order cb)).
    { rewrite Forall_forall in Ht. apply Ht. eapply nth_error_In. exact E. }
    unfold ledger_ok, settle. cbn [app timers fst].
    destruct (is_user (seller (s_order cb)) (s_user cb));
    destruct (is_user (s_buyer cb) (s_user cb)); proj;
    (split; [|split; [|split; [|split; [|split]]]]); try assumption;
    try (apply Forall_remove_nth; assumption);
    destruct Hr as (W & H & _); destruct Hcb as (Wo & No);
    (apply is_amount_fixed6; [apply add_wf|apply add_nonneg]; assumption).
  - (* certificate *)
    unfold step, generateGIC. destruct (user (app sys)) as [u|];
    unfold ledger_ok; proj; rewrite app_nil_r; same.
  - unfold ledger_ok. proj. same.
  - unfold ledger_ok. proj. rewrite app_nil_r. same.
Qed.

Lemma ledger_ok_steps evs : forall sys,
  ledger_ok sys -> Forall input_ok evs -> ledger_ok (steps evs sys).
Proof.
  induction evs as [|ev evs IH]; intros sys H Hin; [exact H|].
  inversion Hin as [|? ? H1 H2]; subst. cbn [steps].
  apply IH; [|assumption]. apply ledger_ok_step; assumption.
Qed.

(** The coarse logarithm meets what the score properties ask of
    [Math.log]. *)
Lemma coarse_log_one : nonneg (coarse_log n_1).
Proof. reflexivity. Qed.

Lemma Qval_n_1 : Qval n_1 == 1.
Proof. vm_compute. reflexivity. Qed.

Lemma at_least_one x : leb n_1 x = true ->
  x = S754_infinity false \/ exists p e, x = S754_finite false p e /\ 1 <= Qval x.
Proof.
  intros L.
  assert (N : nonneg x) by (apply (@nonneg_le n_1); [reflexivity|exact L]).
  destruct (nonneg_inv N) as [s|p e|]; [exfalso|right|left; reflexivity].
  - apply leb_Qval in L; try reflexivity. rewrite Qval_n_1 in L.
    simpl Qval in L. lra.
  - exists p, e. split; [reflexivity|].
    apply leb_Qval in L; try reflexivity. rewrite Qval_n_1 in L. exact L.
Qed.

Lemma coarse_log_value p e : 1 <= Qval (S754_finite false p e) ->
  0 <= inject_Z (ilog2 (Qval (S754_finite false p e))) * (6931 # 10000)
  /\ coarse_log (S754_finite false p e)
     = round64 false (inject_Z (ilog2 (Qval (S754_finite false p e))) * (6931 # 10000)).
Proof.
  intros H.
  assert (I : (0 <= ilog2 (Qval (S754_finite false p e)))%Z).
  { change 0%Z with (ilog2 1). apply ilog2_mono; [reflexivity|exact H]. }
  assert (Q : 0 <= inject_Z (ilog2 (Qval (S754_finite false p e))) * (6931 # 10000)).
  { apply Qmult_le_0_compat; [|discriminate].
    change 0 with (inject_Z 0). rewrite <- Zle_Qle. exact I. }
  split; [exact Q|]. unfold coarse_log. apply round_exact_nonneg. exact Q.
Qed.

Lemma coarse_log_mono x y : wf x -> wf y -> leb n_1 x = true -> leb x y = true ->
  leb (coarse_log x) (coarse_log y) = true.
Proof.
  intros _ _ L1 L.
  assert (L2 : leb n_1 y = true) by exact (@le_trans n_1 x y L1 L).
  destruct (@at_least_one x L1) as [->|(p & e & -> & Hx)].
  { apply le_inf_l in L. subst y. reflexivity. }
  destruct (@at_least_one y L2) as [->|(p' & e' & -> & Hy)].
  - destruct (@coarse_log_value p e Hx) as [_ ->]. apply leb_inf_r, round64_sign.
  - destruct (@coarse_log_value p e Hx) as [_ ->]. destruct (@coarse_log_value p' e' Hy) as [_ ->].
    apply round64_mono. apply Qmult_le_compat_r; [|discriminate].
    rewrite <- Zle_Qle. apply ilog2_mono.
    + lra.
    + apply leb_Qval in L; try reflexivity. exact L.
Qed.

(** *** Energy ids and identity hashes *)
Lemma to_lower_alnum c : is_alnum c = true -> is_lower_alnum (to_lower c) = true.
Proof.
  destruct c as [[] [] [] [] [] [] [] []]; vm_compute; intros H;
    first [reflexivity | discriminate H].
Qed.

Lemma to_lower_fixed c : is_lower_alnum c = true ->
  is_alnum c = true /\ to_lower c = c.
Proof.
  destruct c as [[] [] [] [] [] [] [] []]; vm_compute; intros H;
    first [split; reflexivity | discriminate H].
Qed.

Lemma to_lower_is_alnum c : is_alnum (to_lower c) = is_alnum c.
Proof. destruct c as [[] [] [] [] [] [] [] []]; reflexivity. Qed.

Lemma to_lower_idem c : to_lower (to_lower c) = to_lower c.
Proof. destruct c as [[] [] [] [] [] [] [] []]; reflexivity. Qed.

Lemma strip_lower_app a b : strip_lower (a ++ b) = strip_lower a ++ strip_lower b.
Proof.
  induction a as [|c a IH]; [reflexivity|]. simpl.
  destruct (is_alnum c); [simpl; rewrite IH; reflexivity|exact IH].
Qed.

Lemma strip_lower_chars nm :
  Forall (fun c => is_lower_alnum c = true) (list_ascii_of_string (strip_lower nm)).
Proof.
  induction nm as [|c r IH]; [constructor|]. simpl.
  destruct (is_alnum c) eqn:E; [|exact IH].
  simpl. constructor; [apply to_lower_alnum; exact E|exact IH].
Qed.

Lemma strip_lower_length nm : (String.length (strip_lower nm) <= String.length nm)%nat.
Proof.
  induction nm as [|c r IH]; [apply le_n|]. simpl.
  destruct (is_alnum c); simpl; lia.
Qed.

Lemma strip_lower_fixed p :
  Forall (fun c => is_lower_alnum c = true) (list_ascii_of_string p) ->
  strip_lower p = p.
Proof.
  induction p as [|c r IH]; [reflexivity|]. simpl. intros H.
  inversion H as [|c' l Hc Hr]; subst.
  destruct (@to_lower_fixed c Hc) as [A L]. rewrite A, L, (IH Hr). reflexivity.
Qed.

Lemma length_append a b : String.length (a ++ b) = (String.length a + String.length b)%nat.
Proof. induction a as [|x a IH]; simpl; [reflexivity|]. rewrite IH. reflexivity. Qed.

(** *** The trade history and the pending settlements *)
Lemma history_step ev sys :
  exists l, tradeHistory (app (step ev sys)) = (l ++ tradeHistory (app sys))%list
            /\ (List.length l <= 1)%nat.
Proof.
  destruct ev as [a b c|b| | | | |u|v|v|now|now k|k|now| | ];
    try (exists []; split; [reflexivity|simpl; lia]).
  - unfold step. destruct (isMeterRunning (app sys));
      exists []; split; try reflexivity; simpl; lia.
  - unfold step, placeSellOrder. destruct (user (app sys));
      [destruct (_ || _)|]; exists []; split; try reflexivity; simpl; lia.
  - unfold step. destruct (nth_error _ _) as [o|];
      [|exists []; split; [reflexivity|simpl; lia]].
    eexists [_]. split; [reflexivity|simpl; lia].
  - unfold step. destruct (nth_error _ _) as [cb|];
      [|exists []; split; [reflexivity|simpl; lia]].
    unfold settle. destruct (is_user _ _); destruct (is_user _ _);
      exists []; split; try reflexivity; simpl; lia.
  - unfold step, generateGIC. destruct (user (app sys));
      exists []; split; try reflexivity; simpl; lia.
Qed.

Lemma history_steps evs : forall sys,
  exists l, tradeHistory (app (steps evs sys)) = (l ++ tradeHistory (app sys))%list.
Proof.
  induction evs as [|ev evs IH]; intros sys; [exists []; reflexivity|].
  cbn [steps]. destruct (IH (step ev sys)) as [l1 E1].
  destruct (history_step ev sys) as [l2 [E2 _]].
  exists (l1 ++ l2)%list. rewrite E1, E2. apply app_assoc.
Qed.

Lemma timers_step ev sys :
  (exists o now, ev = EvBuy now o
     /\ exists x, nth_error (orders (app sys)) o = Some x
        /\ timers (step ev sys)
           = (timers sys ++ scheduled (snd (buyOrder now x (app sys))))%list)
  \/ (exists k, ev = EvSettle k /\ timers (step ev sys) = remove_nth k (timers sys))
  \/ timers (step ev sys) = timers sys.
Proof.
  destruct ev as [a b c|b| | | | |u|v|v|now|now k|k|now| | ];
    try (right; right; unfold step; proj; try rewrite app_nil_r; reflexivity).
  - right; right. unfold step. destruct (isMeterRunning (app sys)); reflexivity.
  - right; right. unfold step, placeSellOrder. destruct (user (app sys));
      [destruct (_ || _)|]; proj; apply app_nil_r.
  - unfold step. destruct (nth_error (orders (app sys)) k) as [o|] eqn:E.
    + left. exists k, now. split; [reflexivity|]. exists o. split; [exact E|].
      reflexivity.
    + right; right. reflexivity.
  - right; left. exists k. split; [reflexivity|]. unfold step.
    destruct (nth_error (timers sys) k) as [cb|] eqn:E; [reflexivity|].
    unfold remove_nth. apply nth_error_None in E.
    rewrite firstn_all2, skipn_all2 by lia. symmetry. apply app_nil_r.
  - right; right. unfold step, generateGIC. destruct (user (app sys)); proj;
      apply app_nil_r.
Qed.

Lemma settlements_recorded_step ev sys :
  settlements_recorded sys -> settlements_recorded (step ev sys).
Proof.
  intros [H L].
  destruct (history_step ev sys) as (l & El & Ll).
  destruct (timers_step ev sys) as [(k & now & -> & o & Eo & Et)|[(k & -> & Et)|Et]].
  - unfold step in *. rewrite Eo in *. split.
    + rewrite Et. apply Forall_app. split.
      * apply Forall_forall. intros cb Hcb. rewrite Forall_forall in H.
        destruct (H cb Hcb) as (t & Ht & R). exists t. split; [|exact R].
        proj. right. exact Ht.
      * constructor; [|constructor]. eexists. split; [left; reflexivity|].
        repeat split.
    + rewrite Et. proj. rewrite length_app. simpl. lia.
  - split.
    + rewrite Et. apply Forall_remove_nth.
      apply Forall_forall. intros cb Hcb. rewrite Forall_forall in H.
      destruct (H cb Hcb) as (t & Ht & R). exists t. split; [|exact R].
      rewrite El. apply in_or_app. right. exact Ht.
    + rewrite Et, El, length_app. unfold remove_nth.
      rewrite length_app, length_firstn, length_skipn. lia.
  - split.
    + rewrite Et. apply Forall_forall. intros cb Hcb. rewrite Forall_forall in H.
      destruct (H cb Hcb) as (t & Ht & R). exists t. split; [|exact R].
      rewrite El. apply in_or_app. right. exact Ht.
    + rewrite Et, El, length_app. lia.
Qed.

Lemma settlements_recorded_steps evs : forall sys,
  settlements_recorded sys -> settlements_recorded (steps evs sys).
Proof.
  induction evs as [|ev evs IH]; intros sys H; [exact H|].
  cbn [steps]. apply IH, settlements_recorded_step, H.
Qed.

(** *** Order ids *)
Lemma digits_inj a b : digits a = digits b -> a = b.
Proof.
  unfold digits. intros H.
  assert (Na : forall n, N.to_uint n <> Decimal.Nil).
  { intros [|p]; [discriminate|]. apply DecimalPos.Unsigned.to_uint_nonnil. }
  apply (f_equal NilZero.uint_of_string) in H.
  rewrite !NilZero.usu in H by apply Na.
  injection H as H. apply DecimalN.Unsigned.to_uint_inj. exact H.
Qed.

Lemma order_id_inj a b : "ORD-" ++ digits a = "ORD-" ++ digits b -> a = b.
Proof. simpl. intros H. injection H as H. apply digits_inj, H. Qed.

Lemma orders_step ev sys :
  (exists now o, ev = EvPlaceSell now
     /\ orders (app (step ev sys)) = o :: orders (app sys)
     /\ id o = "ORD-" ++ digits now)
  \/ (exists now k o, ev = EvBuy now k
      /\ nth_error (orders (app sys)) k = Some o
      /\ orders (app (step ev sys))
         = filter (fun x => negb (String.eqb (id x) (id o))) (orders (app sys)))
  \/ orders (app (step ev sys)) = orders (app sys).
Proof.
  destruct ev as [a b c|b| | | | |u|v|v|now|now k|k|now| | ];
    try (right; right; reflexivity).
  - right; right. unfold step. destruct (isMeterRunning (app sys)); reflexivity.
  - unfold step, placeSellOrder. destruct (user (app sys));
      [destruct (_ || _)|]; try (right; right; reflexivity).
    left. eexists now, _. split; [reflexivity|]. split; reflexivity.
  - unfold step. destruct (nth_error (orders (app sys)) k) as [o|] eqn:E;
      [|right; right; reflexivity].
    right; left. exists now, k, o. split; [reflexivity|]. split; [exact E|].
    reflexivity.
  - right; right. unfold step. destruct (nth_error _ _) as [cb|]; [|reflexivity].
    unfold settle. destruct (is_user _ _); destruct (is_user _ _); reflexivity.
  - right; right. unfold step, generateGIC. destruct (user (app sys));
      reflexivity.
Qed.

Lemma NoDup_map_filter {A B} (f : A -> B) (p : A -> bool) l :
  NoDup (map f l) -> NoDup (map f (filter p l)).
Proof.
  induction l as [|x l IH]; simpl; intros H; [constructor|].
  inversion H as [|? ? Hx Hl]; subst.
  destruct (p x); [|apply IH; exact Hl].
  simpl. constructor; [|apply IH; exact Hl].
  intros Hin. apply Hx. apply in_map_iff in Hin.
  destruct Hin as (y & E & Hy). apply filter_In in Hy.
  apply in_map_iff. exists y. split; [exact E|apply Hy].
Qed.

Lemma filter_id_remove_nth l : forall k o,
  NoDup (map id l) -> nth_error l k = Some o ->
  filter (fun x => negb (String.eqb (id x) (id o))) l = remove_nth k l.
Proof.
  induction l as [|x l IH]; intros k o H E; [destruct k; discriminate E|].
  inversion H as [|? ? Hx Hl]; subst. destruct k as [|k].
  - injection E as ->. simpl. rewrite String.eqb_refl. simpl.
    unfold remove_nth. simpl.
    apply forallb_filter_id. apply forallb_forall. intros y Hy.
    apply negb_true_iff, String.eqb_neq. intros Ey. apply Hx.
    rewrite <- Ey. apply in_map. exact Hy.
  - simpl in E. simpl.
    assert (Ne : id x <> id o).
    { intros Ey. apply Hx. rewrite Ey. apply in_map.
      eapply nth_error_In. exact E. }
    apply String.eqb_neq in Ne. rewrite Ne. simpl.
    unfold remove_nth in *. simpl. f_equal. apply IH; assumption.
Qed.

Lemma order_ids_step ev sys used :
  NoDup (map id (orders (app sys))) -> ids_from used sys ->
  (forall t, In t used -> ~ In t (place_times [ev])) ->
  NoDup (map id (orders (app (step ev sys))))
  /\ ids_from (place_times [ev] ++ used)%list (step ev sys).
Proof.
  intros H I D.
  destruct (orders_step ev sys)
    as [(now & o & -> & Eo & Ei)|[(now & k & o & -> & En & Eo)|Eo]].
  - split.
    + rewrite Eo. simpl. constructor; [|exact H].
      intros Hin. apply in_map_iff in Hin. destruct Hin as (y & Ey & Hy).
      destruct (I y Hy) as (t & Ht & Et).
      rewrite Ei, Et in Ey. apply order_id_inj in Ey. subst t.
      apply (D now Ht). left. reflexivity.
    + intros x Hx. rewrite Eo in Hx. destruct Hx as [<-|Hx].
      * exists now. split; [left; reflexivity|exact Ei].
      * destruct (I x Hx) as (t & Ht & Et). exists t. split; [right; exact Ht|exact Et].
  - split.
    + rewrite Eo. apply NoDup_map_filter, H.
    + intros x Hx. rewrite Eo in Hx. apply filter_In in Hx.
      destruct (I x (proj1 Hx)) as (t & Ht & Et). exists t. split; assumption.
  - split; [rewrite Eo; exact H|].
    intros x Hx. rewrite Eo in Hx. destruct (I x Hx) as (t & Ht & Et).
    exists t. split; [|exact Et]. apply in_or_app. right. exact Ht.
Qed.

Lemma place_times_cons ev evs :
  place_times (ev :: evs) = (place_times [ev] ++ place_times evs)%list.
Proof. destruct ev; reflexivity. Qed.

Lemma order_ids_steps evs : forall sys used,
  NoDup (map id (orders (app sys))) -> ids_from used sys ->
  NoDup (place_times evs) ->
  (forall t, In t used -> ~ In t (place_times evs)) ->
  NoDup (map id (orders (app (steps evs sys)))).
Proof.
  induction evs as [|ev evs IH]; intros sys used H I N D; [exact H|].
  cbn [steps]. rewrite place_times_cons in N, D.
  assert (D1 : forall t, In t used -> ~ In t (place_times [ev])).
  { intros t Ht Hin. apply (D t Ht). apply in_or_app. left. exact Hin. }
  destruct (order_ids_step ev H I D1) as [H' I'].
  apply (IH (step ev sys) (place_times [ev] ++ used)%list H' I').
  - apply NoDup_app_remove_l in N. exact N.
  - intros t Ht Hin. apply in_app_or in Ht. destruct Ht as [Ht|Ht].
    + revert N Ht Hin. clear. intros N Ht Hin.
      induction (place_times [ev]) as [|a l IHl]; [contradiction|].
      simpl in N. inversion N as [|? ? Na Nl]; subst.
      destruct Ht as [->|Ht]; [apply Na, in_or_app; right; exact Hin|].
      apply IHl; assumption.
    + apply (D t Ht). apply in_or_app. right. exact Hin.
Qed.

(** *** The cash balance *)
Lemma mul_finite_nonneg x y : finite_nonneg x -> finite_nonneg y ->
  wf (mul x y) /\ nonneg (mul x y).
Proof.
  intros (Wx & Nx & Ix) (Wy & Ny & Iy). split; [apply mul_wf|].
  apply nonneg_inv in Nx. apply nonneg_inv in Ny.
  inversion Nx as [sx Ex|px ex Ex|Ex]; subst x;
  inversion Ny as [sy Ey|py ey Ey|Ey]; subst y; try discriminate.
  - destruct sx, sy; reflexivity.
  - destruct sx; reflexivity.
  - destruct sy; reflexivity.
  - rewrite mul_finite. apply round64_nonneg.
Qed.

Lemma cash_ok_mounted now : cash_ok (mounted now).
Proof.
  unfold cash_ok, mounted, seedOrders, initial. proj.
  repeat split; repeat constructor.
Qed.

Lemma cash_ok_step ev sys :
  cash_ok sys -> input_ok ev -> price_input_ok ev -> cash_ok (step ev sys).
Proof.
  intros (Wb & Nb & Hp & Hq & Ho & Ht) Hin Hpr.
  destruct ev as [a b c|b| | | | |u|v|v|now|now k|k|now| | ].
  - unfold cash_ok. proj. rewrite app_nil_r. same.
  - unfold cash_ok. proj. same.
  - unfold cash_ok. proj. same.
  - unfold cash_ok. proj. same.
  - unfold cash_ok. proj. same.
  - unfold cash_ok. proj. same.
  - unfold step. destruct (isMeterRunning (app sys)); unfold cash_ok; proj; same.
  - unfold cash_ok. proj. same; apply Hin.
  - unfold cash_ok. proj. destruct Hin as (W & _ & I). simpl in Hpr. same.
  - (* place sell order *)
    unfold step, placeSellOrder.
    destruct (user (app sys)) as [u|];
      [|unfold cash_ok; proj; rewrite app_nil_r; same].
    destruct (leb (placeRECs (app sys)) zero) eqn:L; cbn [orb];
      [unfold cash_ok; proj; rewrite app_nil_r; same|].
    destruct (gtb (placeRECs (app sys)) (recBalance (app sys))) eqn:G;
      [unfold cash_ok; proj; rewrite app_nil_r; same|].
    destruct Hp as (Wp & Np & Ip).
    assert (Hn : nonneg (placeRECs (app sys))) by (apply leb_false_nonneg; assumption).
    unfold cash_ok. proj. rewrite app_nil_r.
    split; [|split; [|split; [|split; [|split]]]]; try assumption.
    + repeat split; assumption.
    + constructor; [|assumption]. split; [|exact Hq]. cbn [rec].
      split; [apply fixed_wf, Wp|]. split; [apply fixed_nonneg, Hn|].
      apply fixed_finite; [lia|exact Hn|exact Ip].
  - (* buy *)
    unfold step. destruct (nth_error (orders (app sys)) k) as [o|] eqn:E;
      [|unfold cash_ok; same].
    unfold cash_ok. proj.
    split; [|split; [|split; [|split; [|split]]]]; try assumption.
    + apply Forall_forall. intros x Hx. apply filter_In in Hx.
      rewrite Forall_forall in Ho. apply Ho, Hx.
    + apply Forall_app. split; [assumption|]. constructor; [|constructor].
      cbn [s_total].
      assert (Hoo : priced_ok o).
      { rewrite Forall_forall in Ho. apply Ho. eapply nth_error_In. exact E. }
      destruct Hoo as [Hr Hpp].
      destruct (mul_finite_nonneg Hr Hpp) as [Wm Nm].
      split; [apply fixed_wf, Wm|apply fixed_nonneg, Nm].
  - (* settlement *)
    unfold step. destruct (nth_error (timers sys) k) as [cb|] eqn:E;
      [|unfold cash_ok; same].
    assert (Hcb : wf (s_total cb) /\ nonneg (s_total cb)).
    { rewrite Forall_forall in Ht. apply Ht. eapply nth_error_In. exact E. }
    destruct Hcb as [Wt Nt].
    unfold cash_ok, settle. cbn [app timers fst].
    destruct (is_user (seller (s_order cb)) (s_user cb));
    destruct (is_user (s_buyer cb) (s_user cb)); proj;
    (split; [|split; [|split; [|split; [|split]]]]); try assumption;
    try (apply Forall_remove_nth; assumption).
    + apply fixed_wf, add_wf; [assumption|apply mul_wf].
    + apply fixed_nonneg, add_nonneg; [assumption|].
      apply mul_nonneg_const; [exact I|assumption].
    + apply fixed_wf, add_wf; [assumption|apply mul_wf].
    + apply fixed_nonneg, add_nonneg; [assumption|].
      apply mul_nonneg_const; [exact I|assumption].
  - unfold step, generateGIC. destruct (user (app sys)) as [u|];
    unfold cash_ok; proj; rewrite app_nil_r; same.
  - unfold cash_ok. proj. same.
  - (* subsidy *)
    unfold cash_ok. proj. rewrite app_nil_r.
    split; [|split; [|split; [|split; [|split]]]]; try assumption.
    + apply add_wf; [assumption|reflexivity].
    + apply add_nonneg; [assumption|reflexivity].
Qed.

Lemma cash_ok_steps evs : forall sys,
  cash_ok sys -> Forall input_ok evs -> Forall price_input_ok evs ->
  cash_ok (steps evs sys).
Proof.
  induction evs as [|ev evs IH]; intros sys H Hin Hpr; [exact H|].
  inversion Hin as [|? ? H1 H2]; subst. inversion Hpr as [|? ? H3 H4]; subst.
  cbn [steps]. apply IH; try assumption. apply cash_ok_step; assumption.
Qed.

(** *** Meter readings in thousandths *)
Lemma lit_zero d : lit 0 d = zero.
Proof.
  unfold lit. apply round64_zero. unfold Qdiv. 
  setoid_replace (inject_Z 0 * / pow10 d)%Q with 0%Q by ring. apply Qle_refl.
Qed.

Lemma lit6_pos n : (0 < n < 2 ^ 50)%Z -> ltb zero (lit n 6) = true.
Proof.
  intros Hn.
  assert (Hs : pow10 6 <= 1125899906842624) by (vm_compute; discriminate).
  destruct (@lit_value 6 ltac:(lia) Hs n ltac:(lia)) as (W & N & I & X0 & A1 & A2).
  assert (N1 : 1 <= inject_Z n).
  { change 1 with (inject_Z 1). rewrite <- Zle_Qle. lia. }
  assert (Xp : 0 < Qval (lit n 6)).
  { destruct (Qlt_le_dec 0 (Qval (lit n 6))) as [H|H]; [exact H|exfalso].
    assert (Qval (lit n 6) * pow10 6 <= 0 * pow10 6).
    { apply Qmult_le_compat_r; [exact H|]. apply Qlt_le_weak, pow10_pos. }
    lra. }
  pose proof (nonneg_inv N) as S.
  inversion S as [s E|p e E|E]; rewrite <- E in *; try discriminate.
  unfold ltb, zero. cbn [compare].
  apply (proj1 (Qlt_alt _ _)) in Xp. simpl (Qval (S754_zero false)).
  rewrite Xp. reflexivity.
Qed.

Lemma lit6_lt a b : (0 <= a < b)%Z -> (b < 2 ^ 50)%Z ->
  ltb (lit a 6) (lit b 6) = true.
Proof.
  intros Ha Hb.
  assert (Hs : pow10 6 <= 1125899906842624) by (vm_compute; discriminate).
  destruct (@lit_value 6 ltac:(lia) Hs a ltac:(lia)) as (Wa & Na & Ia & A0 & A1 & A2).
  destruct (@lit_value 6 ltac:(lia) Hs b ltac:(lia)) as (Wb & Nb & Ib & B0 & B1 & B2).
  apply ltb_Qval; try assumption; try (apply nonneg_not_nan; assumption).
  assert (a0 : 0 <= inject_Z a).
  { change 0 with (inject_Z 0). rewrite <- Zle_Qle. lia. }
  assert (ab : inject_Z a + 1 <= inject_Z b).
  { change 1 with (inject_Z 1). rewrite <- inject_Z_plus, <- Zle_Qle. lia. }
  assert (bu : inject_Z b < 1125899906842624).
  { change 1125899906842624 with (inject_Z (2 ^ 50)). rewrite <- Zlt_Qlt. lia. }
  apply Qmult_lt_r with (z := pow10 6); [apply pow10_pos|]. lra.
Qed.

(** Every reading of 0.100 to 1.200 kWh mints as many millionths of a
    credit as it has thousandths of a kWh, and 0.8 kg a kWh to the nearest
    gram: checked reading by reading. *)
Lemma mint_table : forallb mint_check (map Z.of_nat (seq 100 1101)) = true.
Proof. vm_compute. reflexivity. Qed.

Lemma mint_exact n : (100 <= n <= 1200)%Z ->
  fixed 6 (mul (lit n 3) n_0_001) = lit n 6
  /\ fixed 3 (mul (lit n 3) n_0_8) = lit ((8 * n + 5) / 10) 3.
Proof.
  intros Hn. pose proof mint_table as T. rewrite forallb_forall in T.
  assert (Hin : In n (map Z.of_nat (seq 100 1101))).
  { apply in_map_iff. exists (Z.to_nat n). split; [lia|]. apply in_seq. lia. }
  specialize (T n Hin). unfold mint_check in T.
  apply andb_true_iff in T. destruct T as [T1 T2].
  split; apply same_number_eq; assumption.
Qed.

(** A meter reading is a number of thousandths between 100 and 1200. *)
Lemma tick_reading u : wf u -> nonneg u -> ltb u n_1 = true ->
  exists n, (100 <= n <= 1200)%Z /\ tick_of u = lit n 3.
Proof.
  intros Wu Nu Lu.
  set (m := mul u n_1_1). set (w := add m n_0_1).
  set (top := add (mul n_1 n_1_1) n_0_1).
  assert (Wm : wf m) by apply mul_wf.
  assert (Nm : nonneg m) by (apply mul_nonneg_const; [exact pos_n_1_1|exact Nu]).
  assert (Ww : wf w) by (apply add_wf; [exact Wm|calc]).
  assert (Nw : nonneg w) by (apply add_nonneg; [exact Nm|calc]).
  assert (Lo : leb n_0_1 w = true).
  { apply (@le_trans _ (add n_0_1 m)).
    - apply add_ge_l; [calc|exact Nm|calc|exact Wm].
    - apply add_comm_le; [calc|exact Nm|calc|exact Wm]. }
  assert (Le1 : leb u n_1 = true) by (apply ltb_leb, Lu).
  assert (Up : leb w top = true).
  { apply add_mono_l; [exact Nm|calc|exact Wm|apply mul_wf|calc|].
    apply mul_mono_const; [exact pos_n_1_1|exact Nu|exact Le1]. }
  assert (Iw : is_inf w = false).
  { apply (@finite_of_le w top Nw Up). calc. }
  assert (Q1 : Qval n_0_1 <= Qval w).
  { apply leb_Qval; [calc|calc|apply nonneg_not_nan, Nw|exact Iw|exact Lo]. }
  assert (Q2 : Qval w <= Qval top).
  { apply leb_Qval; [apply nonneg_not_nan, Nw|exact Iw|calc|calc|exact Up]. }
  assert (C1 : 1 # 10 <= Qval n_0_1) by (vm_compute; discriminate).
  assert (C2 : Qval top <= 12001 # 10000) by (vm_compute; discriminate).
  assert (E : tick_of u = lit (Qfloor (Qval w * pow10 3 + (1 # 2))) 3).
  { unfold tick_of. fold m. fold w. rewrite fixed_small; [reflexivity|exact Nw|exact Iw|].
    assert (12001 # 10000 < pow10 21) by (vm_compute; reflexivity).
    lra. }
  exists (Qfloor (Qval w * pow10 3 + (1 # 2))). split; [|exact E].
  pose proof (Qfloor_le (Qval w * pow10 3 + (1 # 2))) as F1.
  pose proof (Qlt_floor (Qval w * pow10 3 + (1 # 2))) as F2.
  set (n := Qfloor (Qval w * pow10 3 + (1 # 2))) in *.
  assert (P3 : pow10 3 == 1000) by reflexivity.
  rewrite P3 in F1, F2. rewrite inject_Z_plus in F2.
  change (inject_Z 1) with 1 in F2.
  clear E. set (c := Qval n_0_1) in *. set (W := Qval w) in *.
  set (T := Qval top) in *. clearbody c W T n.
  assert (A : inject_Z 100 < inject_Z (n + 1)).
  { rewrite inject_Z_plus. change (inject_Z 100) with 100.
    change (inject_Z 1) with 1. lra. }
  assert (B : inject_Z n < inject_Z 1201).
  { change (inject_Z 1201) with 1201. lra. }
  rewrite <- Zlt_Qlt in A, B. lia.
Qed.

Lemma tokenized_le i j sys : (i <= j)%Z -> tokenized i sys -> tokenized j sys.
Proof.
  intros H (K & C & HK & HC & H8 & E1 & E2 & E3).
  exists K, C. repeat split; try assumption; lia.
Qed.

Lemma tokenized_step ev sys i :
  (0 <= i < 2 ^ 38)%Z -> tokenized i sys -> input_ok ev -> meter_event ev ->
  tokenized (i + 1) (step ev sys).
Proof.
  intros Hi T Hin Hm.
  assert (T' : tokenized (i + 1) sys) by (apply (@tokenized_le i); [lia|exact T]).
  destruct ev as [a b c|b| | | | |u|v|v|now|now k|k|now| | ];
    try contradiction; try exact T'.
  - (* reset *)
    exists 0%Z, 0%Z. unfold step. proj. rewrite !lit_zero.
    repeat split; lia.
  - (* tick *)
    unfold step. destruct (isMeterRunning (app sys)); [|exact T'].
    destruct T as (K & C & HK & HC & H8 & E1 & E2 & E3).
    destruct Hin as (Wu & Nu & Lu).
    destruct (tick_reading Wu Nu Lu) as (n & Hn & En). unfold tick_of in En.
    destruct (mint_exact Hn) as [M6 M3].
    assert (Hc : (8 * n - 5 < 10 * ((8 * n + 5) / 10) <= 8 * n + 5)%Z).
    { pose proof (Z.mul_div_le (8 * n + 5) 10 ltac:(lia)).
      pose proof (Z.mul_succ_div_gt (8 * n + 5) 10 ltac:(lia)). lia. }
    exists (K + n)%Z, (C + (8 * n + 5) / 10)%Z.
    cbn [with_app app]. unfold meterTick. rewrite En. proj.
    rewrite E1, E2, E3, M6, M3.
    split; [lia|]. split; [lia|]. split; [lia|].
    split; [|split].
    + apply fixed3_add_lit; lia.
    + apply fixed6_add_lit; lia.
    + apply fixed3_add_lit; lia.
  - (* buy *)
    unfold step. destruct (nth_error _ _); exact T'.
  - (* certificate *)
    unfold step, generateGIC. destruct (user (app sys)); exact T'.
Qed.

Lemma tokenized_steps evs : forall sys i,
  (0 <= i)%Z -> (i + Z.of_nat (List.length evs) <= 2 ^ 38)%Z ->
  tokenized i sys -> Forall input_ok evs -> Forall meter_event evs ->
  tokenized (i + Z.of_nat (List.length evs)) (steps evs sys).
Proof.
  induction evs as [|ev evs IH]; intros sys i Hi Hb T Hin Hm.
  - simpl. rewrite Z.add_0_r. exact T.
  - inversion Hin as [|? ? H1 H2]; subst. inversion Hm as [|? ? H3 H4]; subst.
    cbn [steps]. cbn [List.length] in *. rewrite Nat2Z.inj_succ in *.
    replace (i + Z.succ (Z.of_nat (List.length evs)))%Z
      with ((i + 1) + Z.of_nat (List.length evs))%Z by lia.
    apply IH; try assumption; try lia.
    apply tokenized_step; try assumption. lia.
Qed.

(** *** Sell orders for amounts with 6 decimals *)
Lemma placeSellOrder_lit t s u R A :
  user s = Some u -> recBalance s = lit R 6 -> placeRECs s = lit A 6 ->
  (0 < A <= R)%Z -> (R < 2 ^ 50)%Z ->
  placeSellOrder t s
  = (setRecBalance (fun _ => lit (R - A) 6)
       (setOrders (fun l => {| id := "ORD-" ++ digits t; seller := energyId u;
                               rec := lit A 6; pricePerREC := placePrice s;
                               createdAt := t |} :: l) s), []).
Proof.
  intros Hu ER EA HA HR.
  assert (L : leb (placeRECs s) zero = false).
  { rewrite EA. apply ltb_true_leb_false, lit6_pos. lia. }
  assert (G : gtb (placeRECs s) (recBalance s) = false).
  { rewrite EA, ER. apply leb_true_ltb_false, lit_mono; lia. }
  unfold placeSellOrder. rewrite Hu, L, G. cbn [orb].
  rewrite EA, fixed6_lit by lia.
  unfold setRecBalance, setOrders. cbn [recBalance rec].
  rewrite ER, fixed6_sub_lit by lia. reflexivity.
Qed.

Lemma placeSellOrder_over t s u R B :
  user s = Some u -> recBalance s = lit R 6 -> placeRECs s = lit B 6 ->
  (0 <= R < B)%Z -> (B < 2 ^ 50)%Z ->
  placeSellOrder t s = (s, [Alert InvalidRecAmount]).
Proof.
  intros Hu ER EB HR HB.
  assert (G : gtb (placeRECs s) (recBalance s) = true).
  { rewrite EB, ER. apply lit6_lt; lia. }
  unfold placeSellOrder. rewrite Hu, G, orb_true_r. reflexivity.
Qed.

(** The settlement scheduled last. *)
Lemma nth_error_last {A} (l : list A) x : nth_error (l ++ [x]) (List.length l) = Some x.
Proof. induction l as [|y l IH]; [reflexivity|exact IH]. Qed.

Lemma remove_nth_last {A} (l : list A) x : remove_nth (List.length l) (l ++ [x]) = l.
Proof.
  unfold remove_nth. induction l as [|y l IH]; [reflexivity|].
  simpl. f_equal. exact IH.
Qed.

Lemma settle_buyer cb s :
  is_user (s_buyer cb) (s_user cb) = true ->
  recBalance (fst (settle cb s)) = fixed 6 (add (recBalance s) (rec (s_order cb)))
  /\ orders (fst (settle cb s)) = orders s.
Proof.
  intros H. unfold settle. rewrite H.
  destruct (is_user (seller (s_order cb)) (s_user cb)); split; reflexivity.
Qed.

(** *** Credits in play *)
Lemma micro_lit n : (0 <= n < 2 ^ 50)%Z -> micro (lit n 6) = n.
Proof.
  intros Hn.
  assert (Hs : pow10 6 <= 1125899906842624) by (vm_compute; discriminate).
  destruct (@lit_value 6 ltac:(lia) Hs n Hn) as (W & N & I & X0 & A1 & A2).
  assert (n0 : 0 <= inject_Z n).
  { change 0 with (inject_Z 0). rewrite <- Zle_Qle. lia. }
  assert (nu : inject_Z n < 1125899906842624).
  { change 1125899906842624 with (inject_Z (2 ^ 50)). rewrite <- Zlt_Qlt. lia. }
  unfold micro. apply Qfloor_unique; lra.
Qed.

Lemma exact6_lit n : (0 <= n < 2 ^ 50)%Z -> exact6 (lit n 6).
Proof. intros Hn. unfold exact6. rewrite micro_lit by exact Hn. split; [reflexivity|lia]. Qed.

Lemma fixed6_micro v : nonneg v -> is_inf v = false -> Qval v < pow10 21 ->
  fixed 6 v = lit (micro v) 6 /\ (0 <= micro v)%Z.
Proof.
  intros N I B. split.
  - rewrite fixed_small by assumption. reflexivity.
  - unfold micro. rewrite <- (Qfloor_Z 0). apply Qfloor_resp_le.
    pose proof (Qval_nonneg N) as V. pose proof (pow10_pos 6) as P.
    assert (0 <= Qval v * pow10 6) by (apply Qmult_le_0_compat; lra).
    change (inject_Z 0) with 0. lra.
Qed.

(** An amount that passes the guard of [placeSellOrder] has at most as many
    millionths as the balance. *)
Lemma micro_le_balance v R :
  (0 <= R < 2 ^ 50)%Z -> nonneg v -> is_inf v = false ->
  leb v (lit R 6) = true ->
  Qval v < pow10 21 /\ (micro v <= R)%Z.
Proof.
  intros HR N I L.
  assert (Hs : pow10 6 <= 1125899906842624) by (vm_compute; discriminate).
  destruct (@lit_value 6 ltac:(lia) Hs R HR) as (W & Nr & Ir & X0 & A1 & A2).
  assert (Q : Qval v <= Qval (lit R 6)).
  { apply leb_Qval; try assumption; apply nonneg_not_nan; assumption. }
  assert (r0 : 0 <= inject_Z R).
  { change 0 with (inject_Z 0). rewrite <- Zle_Qle. lia. }
  assert (ru : inject_Z R < 1125899906842624).
  { change 1125899906842624 with (inject_Z (2 ^ 50)). rewrite <- Zlt_Qlt. lia. }
  pose proof (pow10_pos 6) as P.
  assert (QP : Qval v * pow10 6 <= Qval (lit R 6) * pow10 6)
    by (apply Qmult_le_compat_r; lra).
  assert (P1 : 1 <= pow10 6) by (vm_compute; discriminate).
  pose proof (Qval_nonneg N) as V0.
  assert (VP : Qval v * 1 <= Qval v * pow10 6) by (apply Qmult_le_nonneg_l; lra).
  split.
  - pose proof pow10_21_gt as G. rewrite pow2_53 in G. lra.
  - unfold micro.
    pose proof (Qfloor_le (Qval v * pow10 6 + (1 # 2))) as F.
    assert (C : inject_Z (Qfloor (Qval v * pow10 6 + (1 # 2))) < inject_Z (R + 1)).
    { rewrite inject_Z_plus. change (inject_Z 1) with 1. lra. }
    rewrite <- Zlt_Qlt in C. lia.
Qed.

Lemma listed_filter (p : Order -> bool) l :
  Forall (fun o => exact6 (rec o)) l ->
  (listed (filter p l) <= listed l)%Z
  /\ forall o, In o l -> p o = false ->
       (listed (filter p l) + micro (rec o) <= listed l)%Z.
Proof.
  induction l as [|x l IH]; intros H.
  - split; [simpl; lia|]. intros o [].
  - inversion H as [|? ? Hx Hl]; subst. destruct (IH Hl) as [I1 I2].
    destruct Hx as [_ Hx]. simpl. destruct (p x) eqn:E.
    + split; [simpl; lia|]. intros o [->|Ho] Hp; [congruence|].
      specialize (I2 o Ho Hp). simpl. lia.
    + split; [lia|]. intros o [<-|Ho] Hp; [lia|].
      specialize (I2 o Ho Hp). lia.
Qed.

Lemma awaited_app l1 l2 : awaited (l1 ++ l2)%list = (awaited l1 + awaited l2)%Z.
Proof. induction l1 as [|x l IH]; simpl; [reflexivity|]. rewrite IH. lia. Qed.

Lemma remove_nth_cons {A} k (x : A) l :
  remove_nth (S k) (x :: l) = x :: remove_nth k l.
Proof. reflexivity. Qed.

Lemma awaited_remove_nth k : forall l cb,
  nth_error l k = Some cb ->
  (awaited (remove_nth k l)
   + (if is_user (s_buyer cb) (s_user cb) then micro (rec (s_order cb)) else 0)
   = awaited l)%Z.
Proof.
  induction k as [|k IH]; intros [|x l] cb E; try discriminate E.
  - injection E as ->. unfold remove_nth, awaited.
    cbn [firstn skipn List.app fold_right]. lia.
  - cbn [nth_error] in E. specialize (IH l cb E). rewrite remove_nth_cons.
    unfold awaited in *. cbn [fold_right]. lia.
Qed.

Lemma listed_nonneg l : Forall (fun o => exact6 (rec o)) l -> (0 <= listed l)%Z.
Proof.
  intros O. induction O as [|x l Hx Hl IH]; simpl; [lia|].
  destruct Hx as [_ Hx]. lia.
Qed.

Lemma awaited_nonneg l :
  Forall (fun cb => exact6 (rec (s_order cb))) l -> (0 <= awaited l)%Z.
Proof.
  intros T. induction T as [|x l Hx Hl IH]; simpl; [lia|].
  destruct Hx as [_ Hx]. destruct (is_user _ _); lia.
Qed.

Lemma conserved_le B B' sys : (B <= B')%Z -> conserved B sys -> conserved B' sys.
Proof.
  intros H (A & O & T & P & L).
  split; [exact A|]. split; [exact O|]. split; [exact T|]. split; [exact P|lia].
Qed.

Lemma conserved_step ev sys B :
  (0 <= B)%Z -> (B + 1200 < 2 ^ 49)%Z ->
  conserved B sys -> input_ok ev ->
  conserved (B + 1200 * ticks [ev]) (step ev sys).
Proof.
  intros HB0 HB (A & O & T & P & L) Hin.
  assert (Same : conserved (B + 1200 * ticks [ev]) sys).
  { apply (@conserved_le B); [destruct ev; cbn [ticks]; lia|].
    split; [exact A|]. split; [exact O|]. split; [exact T|]. split; [exact P|exact L]. }
  pose proof (listed_nonneg O) as HL. pose proof (awaited_nonneg T) as HT.
  destruct A as [EA A0]. unfold credits_in_play in L.
  set (R := micro (recBalance (app sys))) in *.
  destruct ev as [a b c|b| | | | |u|v|v|now|now k|k|now| | ];
    try (cbn [ticks]; rewrite ?Z.add_0_r; fail).
  - unfold conserved, credits_in_play in *. proj. rewrite app_nil_r. exact Same.
  - exact Same.
  - exact Same.
  - exact Same.
  - exact Same.
  - (* reset *)
    cbn [ticks]. unfold conserved, credits_in_play. proj.
    assert (Z0 : micro zero = 0%Z) by reflexivity.
    split; [split; [rewrite Z0; reflexivity|rewrite Z0; lia]|].
    split; [exact O|]. split; [exact T|]. split; [exact P|].
    rewrite Z0. lia.
  - (* tick *)
    unfold step. destruct (isMeterRunning (app sys)); [|exact Same].
    destruct Hin as (Wu & Nu & Lu).
    destruct (tick_reading Wu Nu Lu) as (n & Hn & En). unfold tick_of in En.
    destruct (mint_exact Hn) as [M6 _].
    assert (E : recBalance (app (with_app (meterTick u) sys)) = lit (R + n) 6).
    { cbn [with_app app]. unfold meterTick. rewrite En. proj. rewrite M6, EA.
      apply fixed6_add_lit; lia. }
    unfold conserved, credits_in_play. rewrite E. cbn [ticks].
    split; [apply exact6_lit; lia|].
    split; [exact O|]. split; [exact T|]. split; [exact P|].
    rewrite micro_lit by lia.
    cbn [with_app app timers]. unfold meterTick. proj. lia.
  - (* the amount typed into the form *)
    unfold conserved, credits_in_play. proj. cbn [ticks].
    split; [split; assumption|]. split; [exact O|]. split; [exact T|].
    split; [exact Hin|lia].
  - exact Same.
  - (* place sell order *)
    unfold step, placeSellOrder.
    destruct (user (app sys)) as [usr|];
      [|unfold conserved, credits_in_play in *; proj; rewrite app_nil_r; exact Same].
    destruct (leb (placeRECs (app sys)) zero) eqn:Lz; cbn [orb];
      [unfold conserved, credits_in_play in *; proj; rewrite app_nil_r; exact Same|].
    destruct (gtb (placeRECs (app sys)) (recBalance (app sys))) eqn:G;
      [unfold conserved, credits_in_play in *; proj; rewrite app_nil_r; exact Same|].
    destruct P as (Wp & Np & Ip).
    set (v := placeRECs (app sys)) in *.
    assert (Nv : nonneg v) by (apply leb_false_nonneg; assumption).
    assert (Ob : exact6 (recBalance (app sys))) by (split; assumption).
    assert (Lv : leb v (lit R 6) = true).
    { rewrite <- EA. apply gtb_false_le; try assumption.
      rewrite EA. apply nonneg_not_nan, round64_nonneg. }
    destruct (@micro_le_balance v R ltac:(lia) Nv Ip Lv) as [Bv Mv].
    destruct (fixed6_micro Nv Ip Bv) as [Ef M0].
    unfold conserved, credits_in_play. proj. rewrite app_nil_r, Ef.
    set (Am := micro v) in *.
    assert (Er : fixed 6 (sub (recBalance (app sys)) (lit Am 6)) = lit (R - Am) 6).
    { rewrite EA. apply fixed6_sub_lit; lia. }
    rewrite Er. cbn [ticks].
    split; [apply exact6_lit; lia|].
    split; [constructor; [apply exact6_lit; lia|exact O]|].
    split; [exact T|]. split; [repeat split; assumption|].
    cbn [listed fold_right rec]. rewrite !micro_lit by lia.
    fold (listed (orders (app sys))). lia.
  - (* buy *)
    unfold step. destruct (nth_error (orders (app sys)) k) as [o|] eqn:E;
      [|exact Same].
    assert (Ho : In o (orders (app sys))) by (eapply nth_error_In; exact E).
    assert (Eo : exact6 (rec o)) by (rewrite Forall_forall in O; apply O, Ho).
    destruct (@listed_filter (fun x => negb (String.eqb (id x) (id o)))
                (orders (app sys)) O) as [_ F].
    specialize (F o Ho). rewrite String.eqb_refl in F. specialize (F eq_refl).
    unfold conserved, credits_in_play. proj. cbn [ticks].
    split; [split; assumption|].
    split.
    { apply Forall_forall. intros x Hx. apply filter_In in Hx.
      rewrite Forall_forall in O. apply O, Hx. }
    split.
    { apply Forall_app. split; [exact T|]. constructor; [exact Eo|constructor]. }
    split; [exact P|].
    rewrite awaited_app. cbn [awaited fold_right s_buyer s_user s_order].
    fold R. destruct Eo as [_ Eo].
    destruct (is_user _ _); lia.
  - (* settlement *)
    unfold step. destruct (nth_error (timers sys) k) as [cb|] eqn:E;
      [|exact Same].
    assert (Hcb : exact6 (rec (s_order cb))).
    { rewrite Forall_forall in T. apply T. eapply nth_error_In. exact E. }
    pose proof (awaited_remove_nth k (timers sys) E) as Aw.
    pose proof (awaited_nonneg (Forall_remove_nth k T)) as HT'.
    unfold conserved, credits_in_play, settle. cbn [app timers fst ticks].
    destruct Hcb as [Ecb Mcb].
    destruct (is_user (s_buyer cb) (s_user cb)) eqn:Eb.
    + assert (Er : fixed 6 (add (recBalance (app sys)) (rec (s_order cb)))
                   = lit (R + micro (rec (s_order cb))) 6).
      { rewrite EA, Ecb at 1. apply fixed6_add_lit; lia. }
      destruct (is_user (seller (s_order cb)) (s_user cb)); proj;
        rewrite Er;
        (split; [apply exact6_lit; lia|]);
        (split; [exact O|]);
        (split; [apply Forall_remove_nth; exact T|]);
        (split; [exact P|rewrite micro_lit by lia; lia]).
    + destruct (is_user (seller (s_order cb)) (s_user cb)); proj;
        (split; [split; assumption|]);
        (split; [exact O|]);
        (split; [apply Forall_remove_nth; exact T|]);
        (split; [exact P|fold R; lia]).
  - (* certificate *)
    unfold step, generateGIC. destruct (user (app sys));
      unfold conserved, credits_in_play in *; proj; rewrite app_nil_r; exact Same.
  - exact Same.
  - unfold conserved, credits_in_play in *. proj. rewrite app_nil_r. exact Same.
Qed.

Lemma ticks_cons ev evs : ticks (ev :: evs) = (ticks [ev] + ticks evs)%Z.
Proof. destruct ev; cbn [ticks]; lia. Qed.

Lemma ticks_nonneg evs : (0 <= ticks evs)%Z.
Proof.
  induction evs as [|ev evs IH]; [simpl; lia|]. rewrite ticks_cons.
  destruct ev; cbn [ticks]; lia.
Qed.

Lemma conserved_steps evs : forall sys B,
  (0 <= B)%Z -> (B + 1200 * (ticks evs + 1) < 2 ^ 49)%Z ->
  conserved B sys -> Forall input_ok evs ->
  conserved (B + 1200 * ticks evs) (steps evs sys).
Proof.
  induction evs as [|ev evs IH]; intros sys B HB0 HB C Hin.
  - simpl. rewrite Z.add_0_r. exact C.
  - inversion Hin as [|? ? H1 H2]; subst. cbn [steps].
    rewrite ticks_cons in *.
    pose proof (ticks_nonneg evs) as N1. pose proof (ticks_nonneg [ev]) as N2.
    replace (B + 1200 * (ticks [ev] + ticks evs))%Z
      with ((B + 1200 * ticks [ev]) + 1200 * ticks evs)%Z by lia.
    apply IH; try assumption; try lia.
    apply conserved_step; try assumption. lia.
Qed.

Lemma conserved_mounted now : conserved 700000 (mounted now).
Proof.
  unfold conserved, credits_in_play, mounted, seedOrders, initial. proj.
  assert (Z0 : micro zero = 0%Z) by reflexivity.
  assert (Z5 : micro n_0_5 = 500000%Z) by (vm_compute; reflexivity).
  assert (Z2 : micro n_0_2 = 200000%Z) by (vm_compute; reflexivity).
  assert (E5 : n_0_5 = lit 500000 6) by (vm_compute; reflexivity).
  assert (E2 : n_0_2 = lit 200000 6) by (vm_compute; reflexivity).
  split; [split; [rewrite Z0; reflexivity|rewrite Z0; lia]|].
  split.
  { constructor; [|constructor; [|constructor]]; cbn [rec]; unfold exact6.
    - rewrite Z5. split; [exact E5|lia].
    - rewrite Z2. split; [exact E2|lia]. }
  split; [constructor|]. split; [repeat split|].
  cbn [listed fold_right rec awaited]. rewrite Z0, Z5, Z2. lia.
Qed.

(** *** The score: the rounded sum, cut at 1000 *)
Lemma capped_round_inf w : nonneg w -> is_inf w = true ->
  Math_min n_1000 (Math_round w) = n_1000.
Proof. intros N I. rewrite (@is_inf_nonneg w N I). reflexivity. Qed.

Lemma capped_round_value w : wf w -> nonneg w -> is_inf w = false ->
  is_nan (Math_min n_1000 (Math_round w)) = false
  /\ is_inf (Math_min n_1000 (Math_round w)) = false
  /\ Qval (Math_min n_1000 (Math_round w)) == inject_Z (capped_round (Qval w)).
Proof.
  intros Ww Nw Iw. unfold capped_round.
  assert (Nr : nonneg (Math_round w)) by (apply Math_round_nonneg, Nw).
  assert (E1000 : Qval n_1000 == 1000) by (vm_compute; reflexivity).
  destruct (@Math_round_round w Nw Ww Iw) as [R1 R2].
  set (k0 := Qfloor (Qval w + (1 # 2))) in *.
  set (z := round64 false (inject_Z k0)) in *.
  assert (Nz : nonneg z) by apply round64_nonneg.
  assert (K0 : (0 <= k0)%Z).
  { unfold k0. rewrite <- (Qfloor_Z 0). apply Qfloor_resp_le.
    pose proof (@Qval_nonneg w Nw). change (inject_Z 0) with 0. lra. }
  destruct (Z_le_gt_dec k0 1000) as [K|K].
  - (* the rounded sum is at most 1000: it is the score *)
    rewrite Z.min_r by exact K.
    assert (Iz : is_inf z = false).
    { apply (@finite_of_le z (round64 false (inject_Z 1001)) Nz); [|calc].
      apply round64_mono. rewrite <- Zle_Qle. lia. }
    assert (I : is_inf (Math_round w) = false) by (apply (@finite_of_le _ _ Nr R1 Iz)).
    assert (Q1 : Qval (Math_round w) <= Qval z).
    { apply leb_Qval; [apply nonneg_not_nan, Nr|exact I|apply nonneg_not_nan, Nz
                      |exact Iz|exact R1]. }
    assert (Q2 : Qval z <= Qval (Math_round w)).
    { apply leb_Qval; [apply nonneg_not_nan, Nz|exact Iz|apply nonneg_not_nan, Nr
                      |exact I|exact R2]. }
    assert (Ez : Qval z == inject_Z k0) by (apply round64_small_int; lia).
    assert (Er : Qval (Math_round w) == inject_Z k0) by lra.
    assert (Kq : inject_Z k0 <= 1000).
    { change 1000 with (inject_Z 1000). rewrite <- Zle_Qle. exact K. }
    unfold Math_min.
    destruct (compare n_1000 (Math_round w)) as [[]|] eqn:Ec.
    + change (sign n_1000) with false. cbv iota.
      split; [apply nonneg_not_nan, Nr|]. split; [exact I|exact Er].
    + split; [calc|]. split; [calc|].
      pose proof (@compare_Lt_le _ _ Ec) as L.
      assert (Qval n_1000 <= Qval (Math_round w)).
      { apply leb_Qval; [calc|calc|apply nonneg_not_nan, Nr|exact I|exact L]. }
      lra.
    + split; [apply nonneg_not_nan, Nr|]. split; [exact I|exact Er].
    + exfalso. destruct (@compare_total n_1000 (Math_round w)) as [c Hc];
        [calc|apply nonneg_not_nan, Nr|]. congruence.
  - (* the rounded sum is above 1000: the score is 1000 *)
    rewrite Z.min_l by lia.
    assert (L1 : leb (round64 false (inject_Z 1001)) (Math_round w) = true).
    { apply (@le_trans _ z); [|exact R2].
      apply round64_mono. rewrite <- Zle_Qle. lia. }
    assert (Ec : compare n_1000 (Math_round w) = Some Lt).
    { destruct (is_inf (Math_round w)) eqn:I.
      - rewrite (@is_inf_nonneg _ Nr I). reflexivity.
      - assert (Q3 : Qval (round64 false (inject_Z 1001)) <= Qval (Math_round w)).
        { apply leb_Qval; [calc|calc|apply nonneg_not_nan, Nr|exact I|exact L1]. }
        rewrite round64_small_int in Q3 by lia.
        change (inject_Z 1001) with 1001 in Q3.
        assert (T : ltb n_1000 (Math_round w) = true).
        { apply ltb_Qval; [calc|calc|apply nonneg_not_nan, Nr|exact I|lra]. }
        unfold ltb in T.
        destruct (compare n_1000 (Math_round w)) as [[]|]; try discriminate T.
        reflexivity. }
    unfold Math_min. rewrite Ec.
    split; [calc|]. split; [calc|exact E1000].
Qed.

End GreenPeFacts.

(** ** The properties of the specification *)

Import Num NumFacts GreenPe TextFacts GreenPeFacts.
Local Open Scope string_scope.

(** *** Marketplace: purchase *)

(** C1.  For every order [o] of the order book, when the synchronous part
    of [buyOrder] has run, and before the settlement, which is only handed
    to a timer of 3000 ms: [o] is absent from the order book, and so is
    every order with its id, so that no second purchase can match it; the
    other orders are still listed; a trade with [orderId = o.id] and
    [total = round(o.rec * o.pricePerREC, 2)] is at the head of the trade
    history; the balances are untouched. *)
Theorem buyOrder_removes_order_and_records_trade :
  forall (now : N) (o : Order) (s : State),
    In o (orders s) ->
    let r := buyOrder now o s in
    ~ In o (orders (fst r))
    /\ (forall x, In x (orders (fst r)) -> id x <> id o)
    /\ (forall x, In x (orders s) -> id x <> id o -> In x (orders (fst r)))
    /\ (exists t, tradeHistory (fst r) = t :: tradeHistory s
          /\ orderId t = id o
          /\ total t = round_dp 2 (mul (rec o) (pricePerREC o)))
    /\ (exists cb, snd r = [SetTimeout cb 3000] /\ s_order cb = o)
    /\ recBalance (fst r) = recBalance s
    /\ inrBalance (fst r) = inrBalance s.
Proof.
  intros now o s Hin r.
  assert (Ho : orders (fst r)
               = filter (fun x => negb (String.eqb (id x) (id o))) (orders s))
    by reflexivity.
  split; [|split; [|split; [|split; [|split; [|split]]]]].
  - rewrite Ho. intro H. apply filter_other_ids in H. congruence.
  - intros x H. rewrite Ho in H. eapply filter_other_ids; eassumption.
  - intros x H Hne. rewrite Ho. apply filter_In. split; [assumption|].
    apply negb_true_iff, String.eqb_neq. assumption.
  - eexists. split; [reflexivity|]. split; [reflexivity|].
    simpl total. apply fixed_round_dp; [lia|apply mul_wf].
  - eexists. split; reflexivity.
  - reflexivity.
  - reflexivity.
Qed.

Lemma buyOrder_removes_order_and_records_trade_witness :
  let s := setOrders (fun l => order_mine :: l) (seedOrders 0 initial) in
  let r := buyOrder 9 order_mine s in
  ~ In order_mine (orders (fst r))
  /\ List.length (orders (fst r)) = 2%nat
  /\ option_map total (hd_error (tradeHistory (fst r))) = Some (lit 1500 0).
Proof.
  intros s r.
  pose proof (@buyOrder_removes_order_and_records_trade 9 order_mine s
                (or_introl eq_refl)) as H.
  destruct H as (H1 & _).
  split; [exact H1|]. split; vm_compute; reflexivity.
Defined.

(** C10.  When no account is onboarded, [buyOrder] still goes through: the
    trade, with buyer ["anonymous@greenpe"] and the order's id, seller,
    amount, price and rounded total, is put at the head of the trade
    history; the order is removed from the order book; the balances stay;
    and the settlement handed to the timer, whenever it runs, leaves the
    whole state as it finds it and only shows its notice: both identity
    checks compare with the account of the render the purchase was made in,
    which is none. *)
Theorem buyOrder_without_account :
  forall (now : N) (o : Order) (s : State),
    user s = None ->
    In o (orders s) ->
    let r := buyOrder now o s in
    exists t cb,
      tradeHistory (fst r) = t :: tradeHistory s
      /\ buyer t = "anonymous@greenpe"
      /\ orderId t = id o
      /\ trade_seller t = seller o
      /\ trade_rec t = rec o
      /\ trade_pricePerREC t = pricePerREC o
      /\ total t = round_dp 2 (mul (rec o) (pricePerREC o))
      /\ orders (fst r)
         = filter (fun x => negb (String.eqb (id x) (id o))) (orders s)
      /\ ~ In o (orders (fst r))
      /\ user (fst r) = None
      /\ recBalance (fst r) = recBalance s
      /\ inrBalance (fst r) = inrBalance s
      /\ snd r = [SetTimeout cb 3000]
      /\ s_order cb = o
      /\ s_user cb = None
      /\ s_buyer cb = "anonymous@greenpe"
      /\ s_total cb = total t
      /\ forall s2 : State,
           fst (settle cb s2) = s2
           /\ snd (settle cb s2)
              = [Alert (PaymentSettled (s_paymentId cb) (s_total cb))].
Proof.
  intros now o s Hu Hin r. unfold r, buyOrder. rewrite Hu. cbn [fst snd].
  eexists. eexists.
  split; [reflexivity|]. split; [reflexivity|]. split; [reflexivity|].
  split; [reflexivity|]. split; [reflexivity|]. split; [reflexivity|].
  split; [simpl total; apply fixed_round_dp; [lia|apply mul_wf]|].
  split; [reflexivity|].
  split; [simpl; intro H; apply filter_other_ids in H; congruence|].
  split; [exact Hu|]. split; [reflexivity|]. split; [reflexivity|].
  split; [reflexivity|]. split; [reflexivity|]. split; [reflexivity|].
  split; [reflexivity|]. split; [reflexivity|].
  intros s2. split; reflexivity.
Qed.

Lemma buyOrder_without_account_witness :
  let s := seedOrders 0 initial in
  exists t cb o,
    nth_error (orders s) 0 = Some o
    /\ tradeHistory (fst (buyOrder 5 o s)) = [t]
    /\ buyer t = "anonymous@greenpe"
    /\ snd (buyOrder 5 o s) = [SetTimeout cb 3000]
    /\ fst (settle cb (fst (buyOrder 5 o s))) = fst (buyOrder 5 o s).
Proof.
  intros s.
  destruct (nth_error (orders s) 0) as [o|] eqn:E; [|discriminate E].
  assert (Hin : In o (orders s)) by (eapply nth_error_In; exact E).
  destruct (@buyOrder_without_account 5 o s eq_refl Hin)
    as (t & cb & H1 & H2 & _ & _ & _ & _ & _ & _ & _ & _ & _ & _ & H13 & _ & _
        & _ & _ & H18).
  exists t, cb, o. split; [reflexivity|]. split; [exact H1|].
  split; [exact H2|]. split; [exact H13|]. apply H18.
Defined.

(** *** Marketplace: settlement *)

(** C2, as stated, fails.  After the script, the account is the seller of
    its own order, the cash balance is 1000 and the trade total 0.5;
    [round(0.5 * 0.99, 2)] is 0.49 (the double 0.5 * 0.99 lies below
    0.495), but the settlement leaves a cash balance of 1000.5: it rounds
    the sum [1000 + 0.5 * 0.99], which lies above 1000.495. *)
Lemma settlement_cash_credit_counterexample :
  let before := steps self_trade_script (mounted 0) in
  let after := step (EvSettle 0) before in
  match nth_error (timers before) 0 with
  | Some cb =>
      is_user (seller (s_order cb)) (s_user cb) = true
      /\ inrBalance (app before) = lit 1000 0
      /\ round_dp 2 (mul (s_total cb) n_0_99) = lit 49 2
      /\ inrBalance (app after) = lit 10005 1
      /\ inrBalance (app after)
         <> add (inrBalance (app before))
              (round_dp 2 (mul (s_total cb) n_0_99))
      /\ sub (inrBalance (app after)) (inrBalance (app before))
         <> round_dp 2 (mul (s_total cb) n_0_99)
  | None => False
  end.
Proof.
  vm_compute. repeat split; try discriminate.
Qed.

(** C2, amended.  When the settlement of a trade made by [buyOrder] runs
    in a state [s2]: if the account active at the purchase is the order's
    seller, the cash balance becomes [round(cash + total * 0.99, 2)]; if an
    account was active at the purchase, it is the buyer and the credit
    balance becomes [round(credits + o.rec, 6)]; in a self-trade both
    happen in the same settlement; nothing else of the ledger changes. *)
Theorem settlement_credits_rounded_totals :
  forall (now : N) (o : Order) (s s2 : State),
    wf (inrBalance s2) -> wf (recBalance s2) -> wf (rec o) ->
    let totalPrice := round_dp 2 (mul (rec o) (pricePerREC o)) in
    exists cb,
      snd (buyOrder now o s) = [SetTimeout cb 3000]
      /\ inrBalance (fst (settle cb s2))
         = (if is_user (seller o) (user s)
            then round_dp 2 (add (inrBalance s2) (mul totalPrice n_0_99))
            else inrBalance s2)
      /\ recBalance (fst (settle cb s2))
         = (match user s with
            | Some _ => round_dp 6 (add (recBalance s2) (rec o))
            | None => recBalance s2
            end)
      /\ kwhTotal (fst (settle cb s2)) = kwhTotal s2
      /\ carbonKg (fst (settle cb s2)) = carbonKg s2
      /\ orders (fst (settle cb s2)) = orders s2
      /\ tradeHistory (fst (settle cb s2)) = tradeHistory s2.
Proof.
  intros now o s s2 Wi Wr Wo totalPrice.
  eexists. split; [reflexivity|].
  unfold settle. cbn [s_order s_user s_buyer s_total].
  assert (Et : fixed 2 (mul (rec o) (pricePerREC o)) = totalPrice).
  { apply fixed_round_dp; [lia|apply mul_wf]. }
  rewrite Et.
  assert (Eb : is_user
                 match user s with
                 | Some u => energyId u
                 | None => "anonymous@greenpe"
                 end (user s)
               = match user s with Some _ => true | None => false end).
  { destruct (user s) as [u|]; [|reflexivity]. apply String.eqb_refl. }
  rewrite Eb.
  destruct (is_user (seller o) (user s)); destruct (user s) as [u|]; proj;
  repeat split;
  try (apply fixed_round_dp; [lia|apply add_wf; [assumption|]]);
  try apply mul_wf; try assumption.
Qed.

Lemma settlement_credits_rounded_totals_witness :
  let o := {| id := "ORD-100"; seller := "asha@greenpe"; rec := lit 3 1;
              pricePerREC := n_5000; createdAt := 100 |} in
  let s := with_balances (lit 2 1) zero asha initial in
  exists cb,
    snd (buyOrder 200 o s) = [SetTimeout cb 3000]
    /\ inrBalance (fst (settle cb s)) = lit 1485 0
    /\ recBalance (fst (settle cb s)) = lit 5 1.
Proof.
  intros o s.
  destruct (@settlement_credits_rounded_totals 200 o s s eq_refl eq_refl eq_refl)
    as (cb & H1 & H2 & H3 & _).
  exists cb. split; [exact H1|]. split.
  - rewrite H2. vm_compute. reflexivity.
  - rewrite H3. vm_compute. reflexivity.
Defined.

(** *** Marketplace: placing a sell order *)

(** C3.  [placeSellOrder] is refused exactly when no account is onboarded,
    or the amount is [<= 0], or it exceeds the credit balance; a refusal
    leaves the whole state unchanged, and an accepted order raises no
    notice. *)
Theorem placeSellOrder_rejection :
  forall (now : N) (s : State),
    let r := placeSellOrder now s in
    (rejected r <->
       user s = None
       \/ leb (placeRECs s) zero = true
       \/ gtb (placeRECs s) (recBalance s) = true)
    /\ (rejected r -> fst r = s)
    /\ (~ rejected r -> snd r = []).
Proof.
  intros now s r. unfold r, rejected, placeSellOrder.
  destruct (user s) as [u|].
  - destruct (leb (placeRECs s) zero) eqn:E1; simpl orb.
    + split; [|split]; simpl.
      * split; auto.
      * reflexivity.
      * intros H. exfalso. apply H. auto.
    + destruct (gtb (placeRECs s) (recBalance s)) eqn:E2.
      * split; [|split]; simpl.
        -- split; auto.
        -- reflexivity.
        -- intros H. exfalso. apply H. auto.
      * split; [|split]; simpl.
        -- split; [intros [H|H]; discriminate|].
           intros [H|[H|H]]; discriminate.
        -- intros [H|H]; discriminate.
        -- reflexivity.
  - split; [|split]; simpl.
    + split; auto.
    + reflexivity.
    + intros H. exfalso. apply H. auto.
Qed.

(** C4, as stated, fails.  With a credit balance of 0.5 and the amount
    0.1234567, which is positive and below the balance, the order is
    accepted; the order at the head of the book is for 0.123457 credits,
    not for the amount, and the balance becomes 0.376543, which is not the
    balance less the amount. *)
Lemma placeSellOrder_rounds_amount_counterexample :
  let before := steps fractional_order_script (mounted 0) in
  let amt := placeRECs (app before) in
  let after := step (EvPlaceSell 300) before in
  amt = lit 1234567 7
  /\ recBalance (app before) = n_0_5
  /\ gtb amt zero = true
  /\ leb amt (recBalance (app before)) = true
  /\ snd (placeSellOrder 300 (app before)) = []
  /\ recBalance (app after) = lit 376543 6
  /\ recBalance (app after) <> sub (recBalance (app before)) amt
  /\ option_map rec (hd_error (orders (app after))) = Some (lit 123457 6)
  /\ lit 123457 6 <> amt.
Proof.
  vm_compute. repeat split; try discriminate.
Qed.

(** An amount below half a millionth of a credit passes the guards of
    [placeSellOrder] and is listed as an order for 0 credits: with a credit
    balance of 0.00065 and the amount 0.0000004 the order is accepted, the
    balance stays 0.00065 and the order at the head of the book holds 0. *)
Example placeSellOrder_tiny_amount :
  let before := steps tiny_order_script (mounted 0) in
  let amt := placeRECs (app before) in
  let after := step (EvPlaceSell 300) before in
  amt = lit 4 7
  /\ gtb amt zero = true
  /\ leb amt (recBalance (app before)) = true
  /\ snd (placeSellOrder 300 (app before)) = []
  /\ recBalance (app after) = recBalance (app before)
  /\ option_map rec (hd_error (orders (app after))) = Some zero.
Proof.
  vm_compute. repeat split; try discriminate.
Qed.

(** C4, amended.  For an onboarded account and [0 < amt <= credits], the
    order is accepted, the credit balance becomes
    [round(credits - round(amt, 6), 6)], and a new order for
    [round(amt, 6)] credits at the price of the form, in the seller's name,
    is at the head of the book; when [amt] has at most 6 decimals this is
    an order for [amt] and the balance is [round(credits - amt, 6)]. *)
Theorem placeSellOrder_reserves_rounded_amount :
  forall (now : N) (s : State) (u : User),
    user s = Some u ->
    wf (placeRECs s) -> wf (recBalance s) ->
    gtb (placeRECs s) zero = true ->
    leb (placeRECs s) (recBalance s) = true ->
    let amt6 := round_dp 6 (placeRECs s) in
    let r := placeSellOrder now s in
    snd r = []
    /\ recBalance (fst r) = round_dp 6 (sub (recBalance s) amt6)
    /\ (exists o,
          orders (fst r) = o :: orders s
          /\ rec o = amt6
          /\ pricePerREC o = placePrice s
          /\ seller o = energyId u)
    /\ (round_dp 6 (placeRECs s) = placeRECs s ->
        option_map rec (hd_error (orders (fst r))) = Some (placeRECs s)
        /\ recBalance (fst r)
           = round_dp 6 (sub (recBalance s) (placeRECs s))).
Proof.
  intros now s u Hu Wp Wr Hpos Hle amt6 r.
  assert (E6 : fixed 6 (placeRECs s) = amt6) by (apply fixed_round_dp; [lia|assumption]).
  assert (L : leb (placeRECs s) zero = false) by (apply ltb_true_leb_false; exact Hpos).
  assert (G : gtb (placeRECs s) (recBalance s) = false)
    by (apply leb_true_ltb_false; exact Hle).
  assert (Er : r = (setRecBalance (fun b => fixed 6 (sub b amt6))
                      (setOrders (fun l =>
                         {| id := "ORD-" ++ digits now; seller := energyId u;
                            rec := amt6; pricePerREC := placePrice s;
                            createdAt := now |} :: l) s), [])).
  { unfold r, placeSellOrder. rewrite Hu, L, G, E6. reflexivity. }
  assert (Eb : recBalance (fst r) = round_dp 6 (sub (recBalance s) amt6)).
  { rewrite Er. proj. apply fixed_round_dp; [lia|].
    apply sub_wf; [assumption|]. rewrite <- E6. apply fixed_wf. assumption. }
  split; [rewrite Er; reflexivity|]. split; [exact Eb|]. split.
  - rewrite Er. eexists. split; [reflexivity|]. repeat split.
  - intros Hfix. split.
    + rewrite Er. proj. cbn [hd_error option_map rec]. unfold amt6. rewrite Hfix. reflexivity.
    + rewrite Eb. unfold amt6. rewrite Hfix. reflexivity.
Qed.

Lemma placeSellOrder_reserves_rounded_amount_witness :
  let s := setPlaceRECs (lit 3 1) (with_balances (lit 5 1) zero asha initial) in
  snd (placeSellOrder 7 s) = []
  /\ recBalance (fst (placeSellOrder 7 s)) = lit 2 1
  /\ option_map rec (hd_error (orders (fst (placeSellOrder 7 s)))) = Some (lit 3 1).
Proof.
  intros s.
  destruct (@placeSellOrder_reserves_rounded_amount 7 s asha
              eq_refl eq_refl eq_refl eq_refl eq_refl) as (H1 & H2 & _ & H4).
  split; [exact H1|]. split.
  - rewrite H2. vm_compute. reflexivity.
  - apply H4. vm_compute. reflexivity.
Defined.

(** *** Tokenization *)

(** C5.  For every [kwh >= 0], with [creditDelta = round(kwh * 0.001, 6)]
    and [carbonDelta = round(kwh * 0.8, 3)], minting sets the credit
    balance to [round(credits + creditDelta, 6)] and the carbon offset to
    [round(carbon + carbonDelta, 3)], and nothing else. *)
Theorem mint_deltas_and_accumulation :
  forall (kwh : number) (s : State),
    nonneg kwh ->
    wf (recBalance s) -> wf (carbonKg s) ->
    let creditDelta := round_dp 6 (mul kwh n_0_001) in
    let carbonDelta := round_dp 3 (mul kwh n_0_8) in
    let s' := mintTokensForKwh kwh s in
    recBalance s' = round_dp 6 (add (recBalance s) creditDelta)
    /\ carbonKg s' = round_dp 3 (add (carbonKg s) carbonDelta)
    /\ s' = setCarbonKg (fun _ => carbonKg s')
              (setRecBalance (fun _ => recBalance s') s).
Proof.
  intros kwh s Hk Wr Wc creditDelta carbonDelta s'.
  unfold s', mintTokensForKwh, creditDelta, carbonDelta.
  rewrite <- (@fixed_round_dp 6 (mul kwh n_0_001)) by (try lia; apply mul_wf).
  rewrite <- (@fixed_round_dp 3 (mul kwh n_0_8)) by (try lia; apply mul_wf).
  split; [|split].
  - simpl recBalance. apply fixed_round_dp; [lia|].
    apply add_wf; [assumption|]. apply fixed_wf, mul_wf.
  - simpl carbonKg. apply fixed_round_dp; [lia|].
    apply add_wf; [assumption|]. apply fixed_wf, mul_wf.
  - reflexivity.
Qed.

Lemma mint_deltas_and_accumulation_witness :
  let s' := mintTokensForKwh (lit 650 3) initial in
  recBalance s' = lit 65 5 /\ carbonKg s' = lit 52 2.
Proof.
  intros s'.
  destruct (@mint_deltas_and_accumulation (lit 650 3) initial
              eq_refl eq_refl eq_refl) as (H1 & H2 & _).
  split.
  - transitivity (round_dp 6 (add (recBalance initial)
                    (round_dp 6 (mul (lit 650 3) n_0_001)))).
    + exact H1.
    + vm_compute. reflexivity.
  - transitivity (round_dp 3 (add (carbonKg initial)
                    (round_dp 3 (mul (lit 650 3) n_0_8)))).
    + exact H2.
    + vm_compute. reflexivity.
Defined.

(** *** Score *)

Section ScoreProperties.

Variable Math_log : number -> number.
Hypothesis Math_log_one : nonneg (Math_log n_1).
Hypothesis Math_log_mono :
  forall x y, wf x -> wf y -> leb n_1 x = true -> leb x y = true ->
    leb (Math_log x) (Math_log y) = true.

Let weighted (kwh recs : number) : number :=
  add (mul (Math_log (add n_1 kwh)) n_200) (mul recs n_50).

Lemma one_plus_ok kwh : wf kwh -> nonneg kwh ->
  wf (add n_1 kwh) /\ leb n_1 (add n_1 kwh) = true.
Proof.
  intros W H. split.
  - apply add_wf; [reflexivity|exact W].
  - apply add_ge_l; try assumption; reflexivity.
Qed.

Lemma log_term_ok kwh : wf kwh -> nonneg kwh ->
  wf (mul (Math_log (add n_1 kwh)) n_200)
  /\ nonneg (mul (Math_log (add n_1 kwh)) n_200).
Proof.
  intros W H. destruct (one_plus_ok W H) as [W1 L1]. split; [apply mul_wf|].
  apply mul_nonneg_const; [exact pos_n_200|].
  apply (@nonneg_le (Math_log n_1)); [exact Math_log_one|].
  apply Math_log_mono; try assumption; reflexivity.
Qed.

Lemma credit_term_ok recs : nonneg recs ->
  wf (mul recs n_50) /\ nonneg (mul recs n_50).
Proof.
  intros H. split; [apply mul_wf|].
  apply mul_nonneg_const; [exact pos_n_50|exact H].
Qed.

Lemma weighted_ok kwh recs : wf kwh -> nonneg kwh -> nonneg recs ->
  wf (weighted kwh recs) /\ nonneg (weighted kwh recs).
Proof.
  intros W H Hr. destruct (log_term_ok W H) as [W1 N1].
  destruct (credit_term_ok Hr) as [W2 N2]. unfold weighted. split.
  - apply add_wf; assumption.
  - apply add_nonneg; assumption.
Qed.

Lemma weighted_mono_kwh kwh kwh' recs :
  wf kwh -> wf kwh' -> nonneg kwh -> nonneg recs -> leb kwh kwh' = true ->
  leb (weighted kwh recs) (weighted kwh' recs) = true.
Proof.
  intros W W' H Hr L.
  assert (H' : nonneg kwh') by exact (@nonneg_le kwh kwh' H L).
  destruct (one_plus_ok W H) as [W1 L1]. destruct (one_plus_ok W' H') as [W1' L1'].
  destruct (log_term_ok W H) as [Wa Na]. destruct (log_term_ok W' H') as [Wa' Na'].
  destruct (credit_term_ok Hr) as [Wc Nc].
  unfold weighted. apply add_mono_l; try assumption.
  apply mul_mono_const; [exact pos_n_200| |].
  - apply (@nonneg_le (Math_log n_1)); [exact Math_log_one|].
    apply Math_log_mono; try assumption; reflexivity.
  - apply Math_log_mono; try assumption.
    apply add_mono_r; try assumption; reflexivity.
Qed.

Lemma weighted_mono_recs kwh recs recs' :
  wf kwh -> nonneg kwh -> nonneg recs -> leb recs recs' = true ->
  leb (weighted kwh recs) (weighted kwh recs') = true.
Proof.
  intros W H Hr L.
  assert (Hr' : nonneg recs') by exact (@nonneg_le recs recs' Hr L).
  destruct (log_term_ok W H) as [Wa Na].
  destruct (credit_term_ok Hr) as [Wc Nc]. destruct (credit_term_ok Hr') as [Wc' Nc'].
  unfold weighted. apply add_mono_r; try assumption.
  apply mul_mono_const; [exact pos_n_50|assumption..].
Qed.

(** C6.  The score is [min(1000, Math.round(ln(1 + kwh) * 200 + recs * 50))]:
    with [w] the sum as the doubles give it, the score is the whole number
    nearest to [w], a half going up, and 1000 when that is more (or when
    [w] is infinite).  For non-negative inputs it does not decrease when
    [kwh] grows, nor when [recs] grows, and it never exceeds 1000.
    [Math.log] is left to the implementation by ECMAScript: the property is
    proved for every [Math_log] that is non-negative at 1 and monotone from
    1 on, as the natural logarithm is. *)
Theorem score_monotone_and_capped :
  forall kwh kwh' recs recs',
    wf kwh -> wf kwh' -> nonneg kwh -> nonneg recs ->
    let w := add (mul (Math_log (add n_1 kwh)) n_200) (mul recs n_50) in
    (is_inf w = false ->
       is_nan (score Math_log kwh recs) = false
       /\ is_inf (score Math_log kwh recs) = false
       /\ (Qval (score Math_log kwh recs) == inject_Z (capped_round (Qval w)))%Q)
    /\ (is_inf w = true -> score Math_log kwh recs = n_1000)
    /\ (leb kwh kwh' = true ->
        leb (score Math_log kwh recs) (score Math_log kwh' recs) = true)
    /\ (leb recs recs' = true ->
        leb (score Math_log kwh recs) (score Math_log kwh recs') = true)
    /\ leb (score Math_log kwh recs) n_1000 = true.
Proof.
  intros kwh kwh' recs recs' W W' H Hr w.
  destruct (weighted_ok W H Hr) as [Ww Nw].
  unfold score. fold (weighted kwh recs). change w with (weighted kwh recs).
  split; [|split; [|split; [|split]]].
  - intros I. exact (@capped_round_value (weighted kwh recs) Ww Nw I).
  - intros I. exact (@capped_round_inf (weighted kwh recs) Nw I).
  - intros L.
    assert (H' : nonneg kwh') by exact (@nonneg_le kwh kwh' H L).
    destruct (weighted_ok W' H' Hr) as [Ww' Nw'].
    fold (weighted kwh' recs).
    apply Math_min_mono; [reflexivity|].
    apply Math_round_mono; try assumption.
    apply weighted_mono_kwh; assumption.
  - intros L.
    assert (Hr' : nonneg recs') by exact (@nonneg_le recs recs' Hr L).
    destruct (weighted_ok W H Hr') as [Ww' Nw'].
    fold (weighted kwh recs').
    apply Math_min_mono; [reflexivity|].
    apply Math_round_mono; try assumption.
    apply weighted_mono_recs; assumption.
  - apply Math_min_le_l; [reflexivity|].
    apply nonneg_not_nan, Math_round_nonneg, Nw.
Qed.

End ScoreProperties.

Lemma score_monotone_and_capped_witness :
  (Qval (score coarse_log (lit 65 2) (lit 65 5))
   == inject_Z (capped_round
                  (Qval (add (mul (coarse_log (add n_1 (lit 65 2))) n_200)
                             (mul (lit 65 5) n_50)))))%Q
  /\ leb (score coarse_log (lit 65 2) (lit 65 5))
         (score coarse_log (lit 1300 0) (lit 65 5)) = true
  /\ leb (score coarse_log (lit 1300 0) (lit 65 5))
         (score coarse_log (lit 1300 0) (lit 30 0)) = true
  /\ score coarse_log (lit 1300 0) (lit 30 0) = n_1000.
Proof.
  destruct (@score_monotone_and_capped coarse_log coarse_log_one
              coarse_log_mono (lit 65 2) (lit 1300 0) (lit 65 5) (lit 65 5)
              eq_refl eq_refl eq_refl eq_refl) as (V & _ & M & _).
  destruct (@score_monotone_and_capped coarse_log coarse_log_one
              coarse_log_mono (lit 1300 0) (lit 1300 0) (lit 65 5) (lit 30 0)
              eq_refl eq_refl eq_refl eq_refl) as (_ & _ & _ & M' & _).
  split; [apply V; vm_compute; reflexivity|].
  split; [apply M; reflexivity|]. split; [apply M'; reflexivity|].
  vm_compute. reflexivity.
Defined.

(** *** Certificates *)

(** C7.  Without an account [generateGIC] only shows its notice.  With
    one, the certificate has [totalRec = round(credits, 6)] and
    [totalCarbonKg = round(carbon, 3)], the issuer ["GreenPe:CERTv1"], the
    account's energy id and identity hash, its GSTIN or ["NA"] when that is
    empty, and the compliance flag [true]; it is put at the head of the
    certificates.  With credits 1.234567 and carbon 9.8765 the totals are
    1.234567 and 9.877. *)
Theorem generateGIC_certificate :
  forall (now : N) (s : State),
    wf (recBalance s) -> wf (carbonKg s) ->
    match user s with
    | None => generateGIC now s = (s, [Alert OnboardToGenerateGIC])
    | Some u =>
        exists g,
          generateGIC now s
            = (setGics (fun h => g :: h) s, [Download (gicId g ++ ".json") g])
          /\ gics (fst (generateGIC now s)) = g :: gics s
          /\ totalRec g = round_dp 6 (recBalance s)
          /\ totalCarbonKg g = round_dp 3 (carbonKg s)
          /\ issuer g = "GreenPe:CERTv1"
          /\ gen_energyId (generator g) = energyId u
          /\ aadhaar_hash (generator g) = aadhaarHash u
          /\ gen_gstin (generator g)
             = (if String.eqb (gstin u) "" then "NA" else gstin u)
          /\ eu_cbam (compliance g) = true
          /\ generatedAt (compliance g) = now
    end
    /\ (forall u s0,
          let s1 := with_balances (lit 1234567 6) (lit 98765 4) u s0 in
          option_map (fun g => (totalRec g, totalCarbonKg g))
            (hd_error (gics (fst (generateGIC now s1))))
          = Some (lit 1234567 6, lit 9877 3)).
Proof.
  intros now s Wr Wc. split.
  - unfold generateGIC. destruct (user s) as [u|]; [|reflexivity].
    eexists. split; [reflexivity|]. split; [reflexivity|].
    split; [apply fixed_round_dp; [lia|assumption]|].
    split; [apply fixed_round_dp; [lia|assumption]|].
    repeat split.
  - intros u s0 s1. unfold s1, with_balances, generateGIC. simpl user.
    cbv iota beta. simpl hd_error. simpl option_map. vm_compute. reflexivity.
Qed.

Lemma generateGIC_certificate_witness :
  let s := with_balances (lit 1234567 6) (lit 98765 4) asha initial in
  exists g,
    hd_error (gics (fst (generateGIC 11 s))) = Some g
    /\ totalRec g = lit 1234567 6
    /\ totalCarbonKg g = lit 9877 3
    /\ gen_gstin (generator g) = "NA"
    /\ eu_cbam (compliance g) = true.
Proof.
  intros s.
  destruct (@generateGIC_certificate 11 s eq_refl eq_refl) as [H _].
  change (user s) with (Some asha) in H.
  destruct H as (g & H1 & H2 & H3 & H4 & _ & _ & _ & H8 & H9 & _).
  exists g. split; [rewrite H2; reflexivity|].
  split; [rewrite H3; vm_compute; reflexivity|].
  split; [rewrite H4; vm_compute; reflexivity|].
  split; [rewrite H8; reflexivity|exact H9].
Defined.

(** *** Invariants of the ledger *)

(** C8, as stated, fails: after one meter tick the energy total is 0.65
    and the carbon offset 0.52, and the Reset button sets both to 0. *)
Lemma reset_decreases_energy_and_carbon_counterexample :
  let before := steps [EvMeterStart; EvTick (lit 5 1)] (mounted 0) in
  let after := step EvReset before in
  kwhTotal (app before) = lit 65 2
  /\ carbonKg (app before) = lit 52 2
  /\ kwhTotal (app after) = zero
  /\ carbonKg (app after) = zero
  /\ ltb (kwhTotal (app after)) (kwhTotal (app before)) = true
  /\ ltb (carbonKg (app after)) (carbonKg (app before)) = true.
Proof.
  vm_compute. repeat split.
Qed.

(** C8, amended.  From a well-formed ledger, no event other than Reset
    decreases the energy total or the carbon offset; Reset sets the energy
    total, the credit balance and the carbon offset to 0. *)
Theorem energy_and_carbon_decrease_only_on_reset :
  forall (ev : event) (sys : System),
    ledger_ok sys -> input_ok ev ->
    (ev <> EvReset ->
       leb (kwhTotal (app sys)) (kwhTotal (app (step ev sys))) = true
       /\ leb (carbonKg (app sys)) (carbonKg (app (step ev sys))) = true)
    /\ (ev = EvReset ->
          kwhTotal (app (step ev sys)) = zero
          /\ recBalance (app (step ev sys)) = zero
          /\ carbonKg (app (step ev sys)) = zero).
Proof.
  intros ev sys (Hk & Hc & Hr & Hp & Ho & Ht) Hin.
  assert (Rk : leb (kwhTotal (app sys)) (kwhTotal (app sys)) = true)
    by (apply le_refl, nonneg_not_nan, Hk).
  assert (Rc : leb (carbonKg (app sys)) (carbonKg (app sys)) = true)
    by (apply le_refl, nonneg_not_nan, Hc).
  split.
  - intros Hne.
    destruct ev as [a b c|b| | | | |u|v|v|now|now k|k|now| | ];
      try (split; assumption); try congruence.
    + (* tick *)
      destruct Hin as (Wu & Hu & _). unfold step.
      destruct (isMeterRunning (app sys)); [|split; assumption].
      destruct (tick_ok Hu) as [Wt Nt]. unfold tick_of in Wt, Nt. proj. split.
      * apply grow_ge; [lia|assumption..].
      * apply grow_ge; [lia|assumption| |].
        -- apply fixed_wf, mul_wf.
        -- apply fixed_nonneg, mul_nonneg_const; [exact pos_n_0_8|assumption].
    + (* place sell order *)
      unfold step, placeSellOrder. destruct (user (app sys)); [|split; assumption].
      destruct (_ || _); split; assumption.
    + (* buy *)
      unfold step. destruct (nth_error _ _); split; assumption.
    + (* settlement *)
      unfold step. destruct (nth_error _ _); [|split; assumption].
      unfold settle. cbn [app fst].
      destruct (is_user _ _); destruct (is_user _ _); split; assumption.
    + (* certificate *)
      unfold step, generateGIC. destruct (user (app sys)); split; assumption.
  - intros ->. split; [reflexivity|]. split; reflexivity.
Qed.

Lemma energy_and_carbon_decrease_only_on_reset_witness :
  let sys := step EvMeterStart (mounted 0) in
  leb (kwhTotal (app sys)) (kwhTotal (app (step (EvTick (lit 5 1)) sys))) = true
  /\ kwhTotal (app (step (EvTick (lit 5 1)) sys)) = lit 65 2.
Proof.
  intros sys.
  assert (Hs : ledger_ok sys).
  { apply ledger_ok_step; [apply ledger_ok_mounted|exact I]. }
  assert (Hin : input_ok (EvTick (lit 5 1))) by (repeat split).
  destruct (@energy_and_carbon_decrease_only_on_reset (EvTick (lit 5 1)) sys Hs Hin)
    as [H _].
  split.
  - apply H. discriminate.
  - vm_compute. reflexivity.
Defined.

(** C9.  From a well-formed ledger (in particular: the credit balance is
    non-negative and has 6 decimals) every event leaves a well-formed
    ledger: the credit balance is again non-negative with 6 decimals.  When
    a sell order is accepted, the rounded amount it debits is at most the
    balance. *)
Theorem credit_balance_never_negative :
  forall (ev : event) (sys : System),
    ledger_ok sys -> input_ok ev ->
    ledger_ok (step ev sys)
    /\ nonneg (recBalance (app (step ev sys)))
    /\ round_dp 6 (recBalance (app (step ev sys)))
       = recBalance (app (step ev sys))
    /\ (forall now,
          ev = EvPlaceSell now ->
          snd (placeSellOrder now (app sys)) = [] ->
          leb (round_dp 6 (placeRECs (app sys))) (recBalance (app sys)) = true
          /\ recBalance (app (step ev sys))
             = round_dp 6 (sub (recBalance (app sys))
                             (round_dp 6 (placeRECs (app sys))))).
Proof.
  intros ev sys H Hin.
  pose proof (@ledger_ok_step ev sys H Hin) as H'.
  split; [exact H'|].
  destruct H' as (_ & _ & (W' & N' & E') & _).
  split; [exact N'|]. split; [exact E'|].
  intros now -> Hacc.
  destruct H as (_ & _ & Hr & Hp & _).
  unfold placeSellOrder in Hacc. unfold step, placeSellOrder.
  destruct (user (app sys)) as [u|]; [|discriminate Hacc].
  destruct (leb (placeRECs (app sys)) zero) eqn:L; [discriminate Hacc|].
  destruct (gtb (placeRECs (app sys)) (recBalance (app sys))) eqn:G;
    [discriminate Hacc|].
  destruct (debit_le_balance Hr Hp L G) as (Np & Lf & A).
  assert (E6 : fixed 6 (placeRECs (app sys)) = round_dp 6 (placeRECs (app sys))).
  { apply fixed_round_dp; [lia|apply Hp]. }
  rewrite <- E6. split; [exact Lf|].
  cbn [orb]. proj. apply fixed_round_dp; [lia|].
  apply sub_wf; [apply Hr|apply fixed_wf, Hp].
Qed.

Lemma credit_balance_never_negative_witness :
  let sys := steps [EvOnboard "Asha" "123456789012" ""; EvMeterStart;
                    EvTick (lit 5 1); EvInputRECs (lit 65 5)] (mounted 0) in
  nonneg (recBalance (app (step (EvPlaceSell 9) sys)))
  /\ recBalance (app (step (EvPlaceSell 9) sys)) = zero.
Proof.
  intros sys.
  assert (Hs : ledger_ok sys).
  { apply ledger_ok_steps; [apply ledger_ok_mounted|].
    repeat constructor. }
  destruct (@credit_balance_never_negative (EvPlaceSell 9) sys Hs I)
    as (_ & H & _).
  split; [exact H|]. vm_compute. reflexivity.
Defined.

(** Hence the credit balance is non-negative in every run of the mounted
    application. *)
Lemma credit_balance_nonneg_in_every_run now evs :
  Forall input_ok evs ->
  nonneg (recBalance (app (steps evs (mounted now)))).
Proof.
  intros H. apply (@ledger_ok_steps evs (mounted now) (ledger_ok_mounted now) H).
Qed.

(** ** Further properties of the code *)

(** *** Onboarding *)

(** X1.  [createEnergyId] always returns a local part followed by
    ["@greenpe"]; the local part holds only lowercase letters and digits and
    is no longer than the name; a name that is already of that form is kept
    as it is, and making an id from the local part gives the same id
    again. *)
Theorem createEnergyId_format :
  forall nm : string,
    exists p,
      createEnergyId nm = p ++ "@greenpe"
      /\ Forall (fun c => is_lower_alnum c = true) (list_ascii_of_string p)
      /\ (String.length p <= String.length nm)%nat
      /\ createEnergyId p = createEnergyId nm
      /\ (Forall (fun c => is_lower_alnum c = true) (list_ascii_of_string nm) ->
          p = nm).
Proof.
  intros nm. exists (strip_lower nm). split; [reflexivity|].
  split; [apply strip_lower_chars|]. split; [apply strip_lower_length|].
  split.
  - unfold createEnergyId. rewrite (@strip_lower_fixed (strip_lower nm) (strip_lower_chars nm)).
    reflexivity.
  - apply strip_lower_fixed.
Qed.

(** X2.  [createEnergyId] does not tell apart names that differ in the case
    of a letter or in characters other than letters and digits: such names
    get the same energy id.  Two names get the same id exactly when they
    agree once stripped and lowercased. *)
Theorem createEnergyId_ignores_case_and_punctuation :
  forall (a b : string) (c : Ascii.ascii),
    createEnergyId (a ++ String (to_lower c) b) = createEnergyId (a ++ String c b)
    /\ (is_alnum c = false ->
        createEnergyId (a ++ String c b) = createEnergyId (a ++ b))
    /\ (forall nm nm', createEnergyId nm = createEnergyId nm' <->
                       strip_lower nm = strip_lower nm').
Proof.
  intros a b c. unfold createEnergyId. split; [|split].
  - rewrite !strip_lower_app. simpl.
    rewrite to_lower_is_alnum, to_lower_idem. reflexivity.
  - intros H. rewrite !strip_lower_app. simpl. rewrite H. reflexivity.
  - intros nm nm'. split; [|intros ->; reflexivity].
    intros H.
    assert (L : String.length (strip_lower nm) = String.length (strip_lower nm')).
    { apply (f_equal String.length) in H. rewrite !length_append in H. lia. }
    revert H L. generalize (strip_lower nm) (strip_lower nm').
    induction s as [|x s IH]; intros [|y s'] H L; try discriminate L.
    + reflexivity.
    + simpl in H. injection H as -> H. f_equal. apply IH; [exact H|].
      simpl in L. lia.
Qed.

(** X3.  [aadhaarHash] returns [null] for the empty text only.  Otherwise
    the hash is ["hash_"] followed by the last four UTF-16 code units of
    the text, which is what [slice(-4)] keeps: a text of at most four units
    is in its hash in full; texts that end with the same four units, cut
    between two characters, have the same hash; and when the cut falls
    inside a character of two units, the hash goes on with the second unit
    of that character alone.  For text made of ASCII characters the units
    are the characters. *)
Theorem aadhaarHash_keeps_last_four :
  forall a : string,
    (aadhaarHashOf a = None <-> a = "")
    /\ (a <> "" ->
        exists h, aadhaarHashOf a = Some ("hash_" ++ h)
                  /\ units h = Nat.min (units a) 4
                  /\ ((units a <= 4)%nat -> h = a))
    /\ (forall p t, starts_character t -> units t = 4%nat ->
          aadhaarHashOf (p ++ t) = Some ("hash_" ++ t))
    /\ (forall p l b1 b2 b3 t,
          (240 <= Ascii.nat_of_ascii l)%nat ->
          is_continuation b1 = true -> is_continuation b2 = true ->
          is_continuation b3 = true ->
          starts_character t -> units t = 3%nat ->
          aadhaarHashOf (p ++ String l (String b1 (String b2 (String b3 t))))
          = Some ("hash_"
                  ++ String (Ascii.ascii_of_nat 237)
                       (String (Ascii.ascii_of_nat
                                  (176 + Ascii.nat_of_ascii b2 mod 16))
                          (String b3 t))))
    /\ (Forall (fun c => (Ascii.nat_of_ascii c < 128)%nat) (list_ascii_of_string a) ->
        units a = String.length a /\ starts_character a).
Proof.
  intros a. split; [|split; [|split; [|split]]].
  - unfold aadhaarHashOf. destruct (String.eqb_spec a ""); split; intros H;
      congruence.
  - intros Ha. exists (last4 a). unfold aadhaarHashOf.
    destruct (String.eqb_spec a ""); [contradiction|].
    split; [reflexivity|]. split; [apply units_last4|apply last4_short].
  - intros p t Hs H. unfold aadhaarHashOf.
    destruct (String.eqb_spec (p ++ t) "") as [E|E].
    + destruct p; [|discriminate E]. simpl in E. subst t. discriminate H.
    + rewrite (@last4_suffix p t Hs H). reflexivity.
  - intros p l b1 b2 b3 t Hl H1 H2 H3 Hs H. unfold aadhaarHashOf.
    destruct (String.eqb_spec (p ++ String l (String b1 (String b2 (String b3 t)))) "")
      as [E|E].
    + destruct p; discriminate E.
    + rewrite (@last4_split p l b1 b2 b3 t Hl H1 H2 H3 Hs H). reflexivity.
  - intros H. split; [apply units_ascii, H|].
    unfold starts_character. destruct a as [|c a]; [exact I|].
    inversion H as [|x y Hc Ht]; subst. simpl.
    unfold is_continuation. apply andb_false_iff. left. apply Nat.leb_gt.
    exact Hc.
Qed.

(** Two accented letters are two units, and one character outside the
    basic plane is two: of a text of five units whose first character has
    two, the hash keeps the second unit of that character. *)
Example aadhaarHash_counts_code_units :
  let grin := String (Ascii.ascii_of_nat 240) (String (Ascii.ascii_of_nat 159)
                (String (Ascii.ascii_of_nat 152) (String (Ascii.ascii_of_nat 128) ""))) in
  aadhaarHashOf "12éé" = Some "hash_12éé"
  /\ aadhaarHashOf "0012éé" = Some "hash_12éé"
  /\ units grin = 2%nat
  /\ aadhaarHashOf (grin ++ "789")
     = Some ("hash_" ++ String (Ascii.ascii_of_nat 237) (String (Ascii.ascii_of_nat 184)
                          (String (Ascii.ascii_of_nat 128) "789"))).
Proof. vm_compute. repeat split. Qed.

(** X4.  [handleOnboard] never fails.  It installs an account whose name
    is the form's name, or ["user"] when that is empty; whose energy id is
    the one made from that name, lowercase letters and digits before
    ["@greenpe"]; whose identity hash is never [null]: it is the hash of
    the number, or of ["0000"] when the number is empty, and holds at most
    four code units after ["hash_"]; it closes the form and greets with the
    energy id.  Nothing else of the state changes: meter, balances, orders,
    trades, form cells, certificates and score stay, also when an account
    existed before. *)
Theorem handleOnboard_creates_identity :
  forall (a b c : string) (s : State),
    let r := handleOnboard a b c s in
    exists u p,
      user (fst r) = Some u
      /\ showOnboard (fst r) = false
      /\ snd r = [Alert (Welcome (energyId u))]
      /\ name u = (if String.eqb a "" then "user" else a)
      /\ energyId u = createEnergyId (name u)
      /\ energyId u = p ++ "@greenpe"
      /\ Forall (fun ch => is_lower_alnum ch = true) (list_ascii_of_string p)
      /\ (a = "" -> energyId u = "user@greenpe")
      /\ aadhaarHash u = aadhaarHashOf (if String.eqb b "" then "0000" else b)
      /\ (exists h, aadhaarHash u = Some ("hash_" ++ h)
                    /\ (units h <= 4)%nat
                    /\ (b = "" -> h = "0000")
                    /\ (b <> "" -> (units b <= 4)%nat -> h = b))
      /\ gstin u = c
      /\ kwhTotal (fst r) = kwhTotal s
      /\ lastReading (fst r) = lastReading s
      /\ isMeterRunning (fst r) = isMeterRunning s
      /\ recBalance (fst r) = recBalance s
      /\ carbonKg (fst r) = carbonKg s
      /\ inrBalance (fst r) = inrBalance s
      /\ orders (fst r) = orders s
      /\ tradeHistory (fst r) = tradeHistory s
      /\ placePrice (fst r) = placePrice s
      /\ placeRECs (fst r) = placeRECs s
      /\ gics (fst r) = gics s
      /\ greenScore (fst r) = greenScore s.
Proof.
  intros a b c s r. unfold r, handleOnboard. cbn [fst snd].
  eexists. exists (strip_lower (if String.eqb a "" then "user" else a)).
  split; [reflexivity|]. split; [reflexivity|].
  cbn [energyId name aadhaarHash gstin].
  split; [reflexivity|]. split; [reflexivity|]. split; [reflexivity|].
  split; [reflexivity|].
  split; [apply strip_lower_chars|]. split; [intros ->; reflexivity|].
  split; [reflexivity|].
  split; [|repeat split; reflexivity].
  exists (last4 (if String.eqb b "" then "0000" else b)).
  split; [|split; [|split]].
  - unfold aadhaarHashOf.
    destruct (String.eqb_spec b ""); [reflexivity|].
    destruct (String.eqb_spec b ""); [contradiction|reflexivity].
  - rewrite units_last4. apply Nat.le_min_r.
  - intros ->. reflexivity.
  - intros Hb Hl. destruct (String.eqb_spec b ""); [contradiction|].
    apply last4_short, Hl.
Qed.

(** X5.  A settlement credits by the account of the render the purchase
    was made in: onboarding again between the purchase and the settlement
    changes nothing of what the settlement does.  The two events commute. *)
Theorem settlement_keeps_identity_of_purchase :
  forall (a b c : string) (k : nat) (sys : System),
    step (EvSettle k) (step (EvOnboard a b c) sys)
    = step (EvOnboard a b c) (step (EvSettle k) sys).
Proof.
  intros a b c k sys. unfold step. proj. rewrite !app_nil_r.
  destruct (nth_error (timers sys) k) as [cb|];
    [|unfold run; proj; rewrite ?app_nil_r; reflexivity].
  unfold settle.
  destruct (is_user (seller (s_order cb)) (s_user cb));
  destruct (is_user (s_buyer cb) (s_user cb)); unfold run; proj;
  rewrite ?app_nil_r; reflexivity.
Qed.

(** *** Marketplace *)

(** X6.  In every run of the mounted application, each settlement that is
    still pending belongs to a trade of the history with the same order id,
    buyer, seller, amount, total and payment id; there are never more
    pending settlements than trades; and no event ever removes or changes a
    trade: the history only grows at its head. *)
Theorem pending_settlements_are_recorded_trades :
  forall (now : N) (evs : list event),
    let sys := steps evs (mounted now) in
    (forall cb, In cb (timers sys) ->
       exists t, In t (tradeHistory (app sys)) /\ recorded cb t)
    /\ (List.length (timers sys) <= List.length (tradeHistory (app sys)))%nat
    /\ (forall more, exists l,
          tradeHistory (app (steps more sys)) = (l ++ tradeHistory (app sys))%list).
Proof.
  intros now evs sys.
  assert (H : settlements_recorded sys).
  { apply settlements_recorded_steps. split; [constructor|simpl; lia]. }
  destruct H as [H L]. split; [|split].
  - rewrite Forall_forall in H. exact H.
  - exact L.
  - intros more. apply history_steps.
Qed.

(** X7.  When the sell orders of a run are placed at clock readings that
    differ from each other and from 1 and 2 (the seed orders are ["ORD-1"]
    and ["ORD-2"]), no two listed orders share an id, and a purchase removes
    the purchased order and no other. *)
Theorem order_ids_unique_for_distinct_clock_readings :
  forall (now : N) (evs : list event),
    NoDup (1%N :: 2%N :: place_times evs) ->
    let sys := steps evs (mounted now) in
    NoDup (map id (orders (app sys)))
    /\ (forall t k o,
          nth_error (orders (app sys)) k = Some o ->
          orders (app (step (EvBuy t k) sys)) = remove_nth k (orders (app sys))).
Proof.
  intros now evs N sys.
  assert (H : NoDup (map id (orders (app sys)))).
  { inversion N as [|? ? N1 N']; subst. inversion N' as [|? ? N2 N'']; subst.
    apply (@order_ids_steps evs (mounted now) [1%N; 2%N]).
    - simpl. constructor; [|constructor; [|constructor]].
      + intros [E|[]]. discriminate E.
      + intros [].
    - intros o [<-|[<-|[]]].
      + exists 1%N. split; [left; reflexivity|reflexivity].
      + exists 2%N. split; [right; left; reflexivity|reflexivity].
    - exact N''.
    - intros t [<-|[<-|[]]] Hin.
      + apply N1. right. exact Hin.
      + apply N2. exact Hin. }
  split; [exact H|]. intros t k o E.
  unfold step. rewrite E. proj. apply filter_id_remove_nth; assumption.
Qed.

Lemma order_ids_unique_for_distinct_clock_readings_witness :
  let sys := steps self_trade_script (mounted 0) in
  NoDup (map id (orders (app sys))).
Proof.
  intros sys.
  assert (N : NoDup (1%N :: 2%N :: place_times self_trade_script)).
  { simpl. repeat constructor; simpl; intuition discriminate. }
  exact (proj1 (@order_ids_unique_for_distinct_clock_readings 0 self_trade_script N)).
Defined.

(** X8.  An account with [R] millionths of a credit that lists [A] of them,
    [0 < A <= R], buys its own order and lets the settlement run, has
    exactly [R - A] millionths while the order is listed and exactly [R]
    again after the settlement: no credit is lost or made by the rounding.
    The order and the settlement are gone afterwards. *)
Theorem sell_and_buy_back_restores_credits :
  forall (t1 t2 : N) (sys : System) (u : User) (R A : Z),
    user (app sys) = Some u ->
    recBalance (app sys) = lit R 6 -> placeRECs (app sys) = lit A 6 ->
    (0 < A <= R)%Z -> (R < 2 ^ 50)%Z ->
    let sys1 := step (EvPlaceSell t1) sys in
    let sys2 := step (EvBuy t2 0) sys1 in
    let sys3 := step (EvSettle (List.length (timers sys))) sys2 in
    (exists o, orders (app sys1) = o :: orders (app sys)
               /\ rec o = lit A 6 /\ seller o = energyId u
               /\ id o = "ORD-" ++ digits t1)
    /\ recBalance (app sys1) = lit (R - A) 6
    /\ recBalance (app sys2) = lit (R - A) 6
    /\ recBalance (app sys3) = lit R 6
    /\ timers sys3 = timers sys
    /\ orders (app sys3)
       = filter (fun x => negb (String.eqb (id x) ("ORD-" ++ digits t1)))
           (orders (app sys)).
Proof.
  intros t1 t2 sys u R A Hu ER EA HA HR sys1 sys2 sys3.
  set (o := {| id := "ORD-" ++ digits t1; seller := energyId u;
               rec := lit A 6; pricePerREC := placePrice (app sys);
               createdAt := t1 |}).
  assert (E1 : sys1 = {| app := setRecBalance (fun _ => lit (R - A) 6)
                                  (setOrders (fun l => o :: l) (app sys));
                        timers := timers sys |}).
  { unfold sys1, step. rewrite (placeSellOrder_lit t1 (app sys) Hu ER EA HA HR).
    unfold run. cbn [fst snd scheduled flat_map]. rewrite app_nil_r.
    reflexivity. }
  set (cb := {| s_order := o; s_user := Some u; s_buyer := energyId u;
                s_total := fixed 2 (mul (rec o) (pricePerREC o));
                s_paymentId := "UPI-" ++ digits t2 |}).
  assert (T2 : timers sys2 = (timers sys ++ [cb])%list).
  { unfold sys2. rewrite E1. unfold step. proj. cbn [nth_error]. proj.
    rewrite Hu. reflexivity. }
  assert (R2 : recBalance (app sys2) = lit (R - A) 6).
  { unfold sys2. rewrite E1. reflexivity. }
  assert (O2 : orders (app sys2)
               = filter (fun x => negb (String.eqb (id x) ("ORD-" ++ digits t1)))
                   (orders (app sys))).
  { unfold sys2. rewrite E1. unfold step. proj. cbn [nth_error]. proj.
    cbn [filter id o]. rewrite String.eqb_refl. reflexivity. }
  assert (Eb : is_user (s_buyer cb) (s_user cb) = true) by apply String.eqb_refl.
  assert (E3 : sys3 = {| app := fst (settle cb (app sys2)); timers := timers sys |}).
  { unfold sys3, step. rewrite T2, nth_error_last, remove_nth_last. reflexivity. }
  destruct (settle_buyer cb (app sys2) Eb) as [S1 S2].
  split; [|split; [|split; [|split; [|split]]]].
  - rewrite E1. proj. exists o. repeat split.
  - rewrite E1. reflexivity.
  - exact R2.
  - rewrite E3. cbn [app]. rewrite S1, R2. cbn [cb s_order o rec].
    replace R with ((R - A) + A)%Z at 2 by lia. apply fixed6_add_lit; lia.
  - rewrite E3. reflexivity.
  - rewrite E3. cbn [app]. rewrite S2. exact O2.
Qed.

Lemma sell_and_buy_back_restores_credits_witness :
  let sys := {| app := setPlaceRECs (lit 300000 6)
                         (with_balances (lit 500000 6) zero asha initial);
                timers := [] |} in
  recBalance (app (step (EvPlaceSell 7) sys)) = lit 200000 6
  /\ recBalance (app (steps [EvPlaceSell 7; EvBuy 8 0; EvSettle 0] sys))
     = lit 500000 6.
Proof.
  intros sys.
  destruct (@sell_and_buy_back_restores_credits 7 8 sys asha 500000 300000
              eq_refl eq_refl eq_refl ltac:(lia) ltac:(lia))
    as (_ & H1 & _ & H3 & _).
  split; [exact H1|exact H3].
Defined.

(** X9.  Credits listed in a sell order cannot be listed again: after an
    order for [A] of [R] millionths of a credit, the balance is [R - A], a
    second order for more than [R - A] is refused with the state unchanged,
    and one for at most [R - A] is accepted and debited in full. *)
Theorem reserved_credits_cannot_be_listed_again :
  forall (t1 t2 : N) (sys : System) (u : User) (R A B : Z),
    user (app sys) = Some u ->
    recBalance (app sys) = lit R 6 -> placeRECs (app sys) = lit A 6 ->
    (0 < A <= R)%Z -> (R < 2 ^ 50)%Z -> (0 < B < 2 ^ 50)%Z ->
    let sys1 := step (EvInputRECs (lit B 6)) (step (EvPlaceSell t1) sys) in
    let sys2 := step (EvPlaceSell t2) sys1 in
    recBalance (app sys1) = lit (R - A) 6
    /\ ((R - A < B)%Z ->
        app sys2 = app sys1
        /\ snd (placeSellOrder t2 (app sys1)) = [Alert InvalidRecAmount])
    /\ ((B <= R - A)%Z ->
        recBalance (app sys2) = lit (R - A - B) 6
        /\ exists o, orders (app sys2) = o :: orders (app sys1)
                     /\ rec o = lit B 6).
Proof.
  intros t1 t2 sys u R A B Hu ER EA HA HR HB sys1 sys2.
  assert (U1 : user (app sys1) = Some u).
  { unfold sys1, step. rewrite (placeSellOrder_lit t1 (app sys) Hu ER EA HA HR).
    exact Hu. }
  assert (R1 : recBalance (app sys1) = lit (R - A) 6).
  { unfold sys1, step. rewrite (placeSellOrder_lit t1 (app sys) Hu ER EA HA HR).
    reflexivity. }
  assert (P1 : placeRECs (app sys1) = lit B 6).
  { unfold sys1, step. rewrite (placeSellOrder_lit t1 (app sys) Hu ER EA HA HR).
    reflexivity. }
  split; [exact R1|]. split.
  - intros Hlt.
    pose proof (placeSellOrder_over t2 (app sys1) U1 R1 P1 ltac:(lia) ltac:(lia)) as E.
    unfold sys2, step. rewrite E. split; reflexivity.
  - intros Hle.
    pose proof (placeSellOrder_lit t2 (app sys1) U1 R1 P1 ltac:(lia) ltac:(lia)) as E.
    unfold sys2, step. rewrite E. split; [reflexivity|].
    eexists. split; reflexivity.
Qed.

Lemma reserved_credits_cannot_be_listed_again_witness :
  let sys := {| app := setPlaceRECs (lit 300000 6)
                         (with_balances (lit 500000 6) zero asha initial);
                timers := [] |} in
  let sys1 := step (EvInputRECs (lit 200001 6)) (step (EvPlaceSell 7) sys) in
  recBalance (app sys1) = lit 200000 6
  /\ app (step (EvPlaceSell 8) sys1) = app sys1.
Proof.
  intros sys sys1.
  destruct (@reserved_credits_cannot_be_listed_again 7 8 sys asha 500000 300000
              200001 eq_refl eq_refl eq_refl ltac:(lia) ltac:(lia) ltac:(lia))
    as (H1 & H2 & _).
  split; [exact H1|]. apply H2. lia.
Defined.

(** X10.  Trading never creates credits.  In every run whose form inputs
    are finite numbers and whose meter ticks stay below some 4 * 10^11, with
    [micro] counting millionths of a credit: the credit balance, the amount
    of every listed order and the amount of every pending settlement are
    whole, non-negative numbers of millionths; and the balance, the listed
    amounts and the amounts awaited from purchases that a settlement will
    credit are together at most the 700000 of the two seed orders and 1200
    for each meter tick. *)
Theorem trading_never_creates_credits :
  forall (now : N) (evs : list event),
    Forall input_ok evs ->
    (700000 + 1200 * (ticks evs + 1) < 2 ^ 49)%Z ->
    let sys := steps evs (mounted now) in
    recBalance (app sys) = lit (micro (recBalance (app sys))) 6
    /\ (0 <= micro (recBalance (app sys)))%Z
    /\ Forall (fun o => rec o = lit (micro (rec o)) 6 /\ (0 <= micro (rec o))%Z)
         (orders (app sys))
    /\ Forall (fun cb => rec (s_order cb) = lit (micro (rec (s_order cb))) 6
                         /\ (0 <= micro (rec (s_order cb)))%Z)
         (timers sys)
    /\ (0 <= listed (orders (app sys)))%Z
    /\ (0 <= awaited (timers sys))%Z
    /\ (micro (recBalance (app sys)) + listed (orders (app sys))
        + awaited (timers sys)
        <= 700000 + 1200 * ticks evs)%Z.
Proof.
  intros now evs Hin Hb sys.
  destruct (@conserved_steps evs (mounted now) 700000 ltac:(lia) Hb
              (conserved_mounted now) Hin) as ([E A0] & O & T & P & L).
  split; [exact E|]. split; [exact A0|].
  split; [exact O|]. split; [exact T|].
  split; [apply listed_nonneg, O|]. split; [apply awaited_nonneg, T|].
  exact L.
Qed.

Lemma trading_never_creates_credits_witness :
  let sys := steps self_trade_script (mounted 0) in
  Forall (fun o => rec o = lit (micro (rec o)) 6 /\ (0 <= micro (rec o))%Z)
    (orders (app sys))
  /\ (micro (recBalance (app sys)) + listed (orders (app sys))
      + awaited (timers sys) <= 701200)%Z.
Proof.
  intros sys.
  assert (Hin : Forall input_ok self_trade_script) by (repeat constructor).
  destruct (@trading_never_creates_credits 0 self_trade_script Hin
              ltac:(vm_compute; reflexivity)) as (_ & _ & O & _ & _ & _ & H).
  split; [exact O|exact H].
Defined.

(** X11.  When no negative price is typed into the sell form, the cash
    balance is not negative at any point of a run: no event debits it. *)
Theorem cash_balance_never_negative :
  forall (now : N) (evs : list event),
    Forall input_ok evs -> Forall price_input_ok evs ->
    let sys := steps evs (mounted now) in
    nonneg (inrBalance (app sys))
    /\ (forall ev, input_ok ev -> price_input_ok ev ->
          nonneg (inrBalance (app (step ev sys)))).
Proof.
  intros now evs Hin Hpr sys.
  assert (H : cash_ok sys).
  { apply cash_ok_steps; [apply cash_ok_mounted|assumption..]. }
  split; [apply H|]. intros ev Hi Hp.
  apply (@cash_ok_step ev sys H Hi Hp).
Qed.

Lemma cash_balance_never_negative_witness :
  let sys := steps self_trade_script (mounted 0) in
  nonneg (inrBalance (app sys))
  /\ nonneg (inrBalance (app (step (EvSettle 0) sys))).
Proof.
  intros sys.
  assert (Hin : Forall input_ok self_trade_script) by (repeat constructor).
  assert (Hpr : Forall price_input_ok self_trade_script) by (repeat constructor).
  destruct (@cash_balance_never_negative 0 self_trade_script Hin Hpr) as [H1 H2].
  split; [exact H1|]. apply H2; exact I.
Defined.

(** With a negative price in the sell form the cash balance does become
    negative. *)
Example negative_price_debits_cash :
  Forall input_ok negative_price_script
  /\ ~ Forall price_input_ok negative_price_script
  /\ ltb (inrBalance (app (steps negative_price_script (mounted 0)))) zero = true.
Proof.
  split; [repeat constructor|]. split; [|vm_compute; reflexivity].
  intros H. rewrite Forall_forall in H.
  specialize (H (EvInputPrice (round64 true (inject_Z 5000000)))).
  cbn [price_input_ok] in H.
  assert (E : nonneg (round64 true (inject_Z 5000000)) -> False)
    by (vm_compute; discriminate).
  apply E, H. unfold negative_price_script. simpl. tauto.
Qed.

(** *** Certificates *)

(** X12.  In a well-formed ledger the certificate carries the credit
    balance and the carbon offset as they are (the rounding in
    [generateGIC] changes nothing), and issuing it consumes nothing: the
    balances, the orders and the pending settlements stay, so that a second
    certificate carries the same totals. *)
Theorem certificate_carries_the_balances :
  forall (now : N) (sys : System) (u : User),
    ledger_ok sys -> user (app sys) = Some u ->
    let sys' := step (EvGenerateGIC now) sys in
    exists g,
      gics (app sys') = g :: gics (app sys)
      /\ totalRec g = recBalance (app sys)
      /\ totalCarbonKg g = carbonKg (app sys)
      /\ recBalance (app sys') = recBalance (app sys)
      /\ carbonKg (app sys') = carbonKg (app sys)
      /\ orders (app sys') = orders (app sys)
      /\ timers sys' = timers sys
      /\ forall later,
           exists g',
             gics (app (step (EvGenerateGIC later) sys')) = g' :: g :: gics (app sys)
             /\ totalRec g' = totalRec g
             /\ totalCarbonKg g' = totalCarbonKg g.
Proof.
  intros now sys u (Hk & Hc & Hr & _) Hu sys'.
  pose proof (@is_amount_fixed 6 _ ltac:(lia) Hr) as Er.
  pose proof (@is_amount_fixed 3 _ ltac:(lia) Hc) as Ec.
  unfold sys', step, generateGIC. rewrite Hu. proj. rewrite app_nil_r.
  eexists. split; [reflexivity|].
  cbn [totalRec totalCarbonKg]. rewrite Er, Ec.
  repeat (split; [reflexivity|]).
  intros later. unfold step, generateGIC. proj. rewrite Hu. proj.
  eexists. split; [reflexivity|]. split; reflexivity.
Qed.

Lemma certificate_carries_the_balances_witness :
  let sys := steps [EvOnboard "Asha" "123456789012" ""; EvMeterStart;
                    EvTick (lit 5 1)] (mounted 0) in
  exists g,
    gics (app (step (EvGenerateGIC 9) sys)) = [g]
    /\ totalRec g = lit 65 5 /\ totalCarbonKg g = lit 52 2.
Proof.
  intros sys.
  assert (Hs : ledger_ok sys).
  { apply ledger_ok_steps; [apply ledger_ok_mounted|]. repeat constructor. }
  destruct (@certificate_carries_the_balances 9 sys
              {| name := "Asha"; energyId := "asha@greenpe";
                 aadhaarHash := Some "hash_9012"; gstin := "" |} Hs eq_refl)
    as (g & H1 & H2 & H3 & _).
  exists g. split; [exact H1|]. split.
  - rewrite H2. vm_compute. reflexivity.
  - rewrite H3. vm_compute. reflexivity.
Defined.

(** *** Meter *)

(** X13.  One meter tick reads [n] thousandths of a kWh,
    [100 <= n <= 1200].  With totals of [K] thousandths of a kWh, [R]
    millionths of a credit and [C] grams, all below 2^49, it leaves exactly
    [K + n], [R + n] and [C + round(0.8 * n)]: binary64 arithmetic loses
    nothing. *)
Theorem meter_tick_adds_exact_amounts :
  forall (u : number) (s : State) (K R C : Z),
    wf u -> nonneg u -> ltb u n_1 = true ->
    (0 <= K < 2 ^ 49)%Z -> (0 <= R < 2 ^ 49)%Z -> (0 <= C < 2 ^ 49)%Z ->
    kwhTotal s = lit K 3 -> recBalance s = lit R 6 -> carbonKg s = lit C 3 ->
    exists n : Z,
      (100 <= n <= 1200)%Z
      /\ lastReading (meterTick u s) = lit n 3
      /\ kwhTotal (meterTick u s) = lit (K + n) 3
      /\ recBalance (meterTick u s) = lit (R + n) 6
      /\ carbonKg (meterTick u s) = lit (C + (8 * n + 5) / 10) 3.
Proof.
  intros u s K R C Wu Nu Lu HK HR HC EK ER EC.
  destruct (tick_reading Wu Nu Lu) as (n & Hn & En).
  unfold tick_of in En.
  destruct (mint_exact Hn) as [M6 M3].
  assert (Hc : (0 <= (8 * n + 5) / 10 <= 960)%Z).
  { split; [apply Z.div_pos; lia|].
    assert ((8 * n + 5) / 10 < 961)%Z by (apply Z.div_lt_upper_bound; lia).
    lia. }
  exists n. split; [exact Hn|]. unfold meterTick. rewrite En. proj.
  rewrite EK, ER, EC, M6, M3.
  split; [reflexivity|]. split; [|split].
  - apply fixed3_add_lit; lia.
  - apply fixed6_add_lit; lia.
  - apply fixed3_add_lit; lia.
Qed.

Lemma meter_tick_adds_exact_amounts_witness :
  exists n : Z,
    lastReading (meterTick (lit 5 1) initial) = lit n 3
    /\ kwhTotal (meterTick (lit 5 1) initial) = lit (0 + n) 3
    /\ recBalance (meterTick (lit 5 1) initial) = lit (0 + n) 6.
Proof.
  destruct (@meter_tick_adds_exact_amounts (lit 5 1) initial 0 0 0
              eq_refl eq_refl eq_refl ltac:(lia) ltac:(lia) ltac:(lia)
              eq_refl eq_refl eq_refl)
    as (n & _ & H1 & H2 & H3 & _).
  exists n. split; [exact H1|]. split; [exact H2|exact H3].
Defined.

(** X14.  In a run of at most 2^38 events without sell orders and
    settlements, the credit balance is exactly a thousandth of the energy
    total ([K] millionths for [K] thousandths of a kWh), and the carbon
    offset in grams is 0.8 times [K] up to half a gram for each event. *)
Theorem credits_are_a_thousandth_of_the_energy :
  forall (now : N) (evs : list event),
    Forall input_ok evs -> Forall meter_event evs ->
    (Z.of_nat (List.length evs) <= 2 ^ 38)%Z ->
    let sys := steps evs (mounted now) in
    exists K C : Z,
      kwhTotal (app sys) = lit K 3
      /\ recBalance (app sys) = lit K 6
      /\ carbonKg (app sys) = lit C 3
      /\ (0 <= K <= 1200 * Z.of_nat (List.length evs))%Z
      /\ (Z.abs (10 * C - 8 * K) <= 5 * Z.of_nat (List.length evs))%Z.
Proof.
  intros now evs Hin Hm Hb sys.
  assert (T0 : tokenized 0 (mounted now)).
  { exists 0%Z, 0%Z. unfold mounted, seedOrders, initial. proj.
    rewrite !lit_zero. repeat split; lia. }
  destruct (@tokenized_steps evs (mounted now) 0%Z ltac:(lia) ltac:(lia) T0 Hin Hm)
    as (K & C & HK & HC & H8 & E1 & E2 & E3).
  exists K, C. rewrite Z.add_0_l in *.
  repeat split; try assumption; lia.
Qed.

Lemma credits_are_a_thousandth_of_the_energy_witness :
  let sys := steps [EvMeterStart; EvTick (lit 5 1); EvTick (lit 25 2)] (mounted 0) in
  exists K : Z,
    kwhTotal (app sys) = lit K 3 /\ recBalance (app sys) = lit K 6.
Proof.
  intros sys.
  assert (Hin : Forall input_ok [EvMeterStart; EvTick (lit 5 1); EvTick (lit 25 2)])
    by (repeat constructor).
  assert (Hm : Forall meter_event [EvMeterStart; EvTick (lit 5 1); EvTick (lit 25 2)])
    by (repeat constructor).
  destruct (@credits_are_a_thousandth_of_the_energy 0
              [EvMeterStart; EvTick (lit 5 1); EvTick (lit 25 2)] Hin Hm
              ltac:(simpl; lia))
    as (K & C & E1 & E2 & _).
  exists K. split; assumption.
Defined.

(** *** Score *)

Local Open Scope Q_scope.

Section ScoreRange.

Variable Math_log : number -> number.
Hypothesis Math_log_one : nonneg (Math_log n_1).
Hypothesis Math_log_mono :
  forall x y, wf x -> wf y -> leb n_1 x = true -> leb x y = true ->
    leb (Math_log x) (Math_log y) = true.

(** X15.  For non-negative inputs the score is a whole number from 0 to
    1000, and the account is shown as eligible for a loan exactly when that
    number is at least 301.  As for its monotonicity, this holds for every
    [Math_log] that is non-negative at 1 and monotone from 1 on. *)
Theorem score_is_a_whole_number_up_to_1000 :
  forall (kwh recs : number) (s : State),
    wf kwh -> nonneg kwh -> nonneg recs ->
    exists k : Z,
      (0 <= k <= 1000)%Z
      /\ is_nan (score Math_log kwh recs) = false
      /\ is_inf (score Math_log kwh recs) = false
      /\ Qval (score Math_log kwh recs) == inject_Z k
      /\ (loanEligible (setGreenScore (score Math_log kwh recs) s) = true
          <-> (300 < k)%Z).
Proof.
  intros kwh recs s W H Hr.
  destruct (@weighted_ok Math_log Math_log_one Math_log_mono kwh recs W H Hr) as [Ww Nw].
  set (w := add (mul (Math_log (add n_1 kwh)) n_200) (mul recs n_50)) in *.
  assert (Nr : nonneg (Math_round w)) by (apply Math_round_nonneg, Nw).
  assert (E1000 : Qval n_1000 == 1000) by (vm_compute; reflexivity).
  assert (E300 : Qval n_300 == 300) by (vm_compute; reflexivity).
  assert (Main : exists k : Z,
             (0 <= k <= 1000)%Z
             /\ is_nan (score Math_log kwh recs) = false
             /\ is_inf (score Math_log kwh recs) = false
             /\ Qval (score Math_log kwh recs) == inject_Z k).
  { unfold score. fold w. unfold Math_min.
    destruct (compare n_1000 (Math_round w)) as [[]|] eqn:Ec.
    - (* equal to 1000 *)
      destruct (@compare_Eq_le _ _ Ec) as [L1 L2]. cbn [sign n_1000].
      change (sign n_1000) with false. cbv iota.
      assert (I : is_inf (Math_round w) = false)
        by (apply (@finite_of_le _ n_1000 Nr L2); calc).
      exists 1000%Z. split; [lia|].
      split; [apply nonneg_not_nan, Nr|]. split; [exact I|].
      assert (Qval n_1000 <= Qval (Math_round w)).
      { apply leb_Qval; [calc|calc|apply nonneg_not_nan, Nr|exact I|exact L1]. }
      assert (Qval (Math_round w) <= Qval n_1000).
      { apply leb_Qval; [apply nonneg_not_nan, Nr|exact I|calc|calc|exact L2]. }
      change (inject_Z 1000) with 1000. lra.
    - exists 1000%Z. split; [lia|]. split; [calc|].
      split; [calc|]. exact E1000.
    - pose proof (@compare_Gt_le _ _ Ec) as L.
      assert (I : is_inf (Math_round w) = false)
        by (apply (@finite_of_le _ n_1000 Nr L); calc).
      assert (Iw : is_inf w = false).
      { destruct (is_inf w) eqn:E; [|reflexivity].
        rewrite (@is_inf_nonneg _ Nw E) in I. discriminate I. }
      destruct (@Math_round_round w Nw Ww Iw) as [R1 R2].
      set (k0 := Qfloor (Qval w + (1 # 2))) in *.
      set (z := round64 false (inject_Z k0)) in *.
      assert (Nz : nonneg z) by apply round64_nonneg.
      assert (Iz : is_inf z = false) by (apply (@finite_of_le _ _ Nz R2 I)).
      assert (Qr : Qval (Math_round w) <= Qval n_1000).
      { apply leb_Qval; [apply nonneg_not_nan, Nr|exact I|calc|calc|exact L]. }
      assert (Q1 : Qval (Math_round w) <= Qval z).
      { apply leb_Qval; [apply nonneg_not_nan, Nr|exact I|apply nonneg_not_nan, Nz
                        |exact Iz|exact R1]. }
      assert (Q2 : Qval z <= Qval (Math_round w)).
      { apply leb_Qval; [apply nonneg_not_nan, Nz|exact Iz|apply nonneg_not_nan, Nr
                        |exact I|exact R2]. }
      assert (K0 : (0 <= k0)%Z).
      { unfold k0. rewrite <- (Qfloor_Z 0). apply Qfloor_resp_le.
        pose proof (@Qval_nonneg w Nw). change (inject_Z 0) with 0. lra. }
      assert (K1 : (k0 <= 1000)%Z).
      { destruct (Z_le_gt_dec k0 1000) as [K|K]; [exact K|exfalso].
        assert (L1 : leb (round64 false (inject_Z 1001)) z = true).
        { apply round64_mono. rewrite <- Zle_Qle. lia. }
        assert (Q3 : Qval (round64 false (inject_Z 1001)) <= Qval z).
        { apply leb_Qval; [calc|calc|apply nonneg_not_nan, Nz|exact Iz|exact L1]. }
        rewrite round64_small_int in Q3 by lia.
        change (inject_Z 1001) with 1001 in Q3. lra. }
      exists k0. split; [lia|]. split; [apply nonneg_not_nan, Nr|].
      split; [exact I|].
      rewrite <- (@round64_small_int k0) by lia. fold z. lra.
    - exfalso. destruct (@compare_total n_1000 (Math_round w)) as [c Hc];
        [calc|apply nonneg_not_nan, Nr|]. congruence. }
  destruct Main as (k & Hk & Nn & Ni & Ek).
  exists k. split; [exact Hk|]. split; [exact Nn|]. split; [exact Ni|].
  split; [exact Ek|].
  unfold loanEligible, gtb. cbn [greenScore setGreenScore].
  rewrite ltb_Qval; [|calc|calc|exact Nn|exact Ni].
  rewrite Ek, E300. change 300 with (inject_Z 300). rewrite <- Zlt_Qlt.
  reflexivity.
Qed.

End ScoreRange.

Lemma score_is_a_whole_number_up_to_1000_witness :
  exists k : Z,
    (0 <= k <= 1000)%Z
    /\ Qval (score coarse_log (lit 1300 0) (lit 65 5)) == inject_Z k.
Proof.
  destruct (@score_is_a_whole_number_up_to_1000 coarse_log coarse_log_one
              coarse_log_mono (lit 1300 0) (lit 65 5) initial
              eq_refl eq_refl eq_refl)
    as (k & Hk & _ & _ & Ek & _).
  exists k. split; [exact Hk|exact Ek].
Defined.
